(** * Mutation++ kinetics: rate laws, rate manager and third-body manager

    A shallow embedding of [src/kinetics/RateLaws.h],
    [src/kinetics/RateManager.cpp] and [src/kinetics/ThirdBodyManager.h].

    C++ [double] values are modelled as real numbers ([R]); the arithmetic
    of the source is kept operation for operation, and rounding is not
    modelled.  Where a property of a rate law depends on rounding, overflow
    or NaN, the evaluation is modelled a second time in IEEE 754 binary64
    (module [Double]).  Arrays ([double*]) are lists indexed from zero,
    updated in place with stdpp's list insert. *)

From Stdlib Require Import Reals Lra Lia List Permutation.
From stdpp Require Import base list.
Import ListNotations.

Local Open Scope R_scope.

(** ** Rate laws ([RateLaws.h]) *)

(** [class Arrhenius]: the private members [m_lnA], [m_n], [m_temp]. *)
Record Arrhenius := mkArrhenius {
  arr_lnA : R;
  arr_n : R;
  arr_temp : R
}.

(** [Arrhenius::getLnRate(lnT, invT)]. *)
Definition Arrhenius_getLnRate (a : Arrhenius) (lnT invT : R) : R :=
  arr_lnA a + arr_n a * lnT - arr_temp a * invT.


(** [class rationalExp]. *)
Record rationalExp := mkRationalExp {
  re_n : R;
  re_temp : R;
  re_a0 : R; re_a1 : R; re_a2 : R;
  re_b0 : R; re_b1 : R; re_b2 : R; re_b3 : R
}.

(** [rationalExp::getLnRate(lnT, invT, T, sqT)]. *)
Definition rationalExp_getLnRate (r : rationalExp) (lnT invT T sqT : R) : R :=
  re_n r * lnT - re_temp r * invT
  + ln ((re_a0 r + re_a1 r * T + re_a2 r * sqT)
        / (re_b0 r + re_b1 r * T + re_b2 r * sqT + re_b3 r * sqT * T)).

(** [class constRate]. *)
Record constRate := mkConstRate { cr_lnA : R }.

(** [constRate::getLnRate()]. *)
Definition constRate_getLnRate (c : constRate) : R := cr_lnA c.

(** [class expRat33]. *)
Record expRat33 := mkExpRat33 {
  er_a0 : R; er_a1 : R; er_a2 : R; er_a3 : R;
  er_b0 : R; er_b1 : R; er_b2 : R
}.

(** [expRat33::getLnRate(T)]. *)
Definition expRat33_getLnRate (e : expRat33) (T : R) : R :=
  (er_a0 e + (er_a1 e + (er_a2 e + er_a3 e * T) * T) * T)
  / (er_b0 e + (er_b1 e + (er_b2 e + T) * T) * T).


(** The polymorphic base [RateLaw] with the four subclasses of
    [RateLaws.h]; the constructor is the run-time type seen by [typeid]. *)
Inductive RateLaw :=
| LawArrhenius (a : Arrhenius)
| LawRationalExp (r : rationalExp)
| LawConstRate (c : constRate)
| LawExpRat33 (e : expRat33).

(** Run-time type of a rate law, as compared by [typeid]. *)
Inductive RateLawKind := KArrhenius | KRationalExp | KConstRate | KExpRat33.

Definition typeid (p_rate : RateLaw) : RateLawKind :=
  match p_rate with
  | LawArrhenius _ => KArrhenius
  | LawRationalExp _ => KRationalExp
  | LawConstRate _ => KConstRate
  | LawExpRat33 _ => KExpRat33
  end.

(** ** Temperature selectors ([RateManager.cpp], [TEMPERATURE_SELECTOR]) *)

(** The three temperatures a [StateModel] is asked for. *)
Record StateModel := mkStateModel {
  state_T : R;
  state_Te : R;
  state_Tv : R
}.

Inductive TemperatureSelector := TSelector | TeSelector | ParkSelector.

(** [getT] of the three selector classes. *)
Definition getT (sel : TemperatureSelector) (state : StateModel) : R :=
  match sel with
  | TSelector => state_T state
  | TeSelector => state_Te state
  | ParkSelector => sqrt (state_T state * state_Tv state)
  end.

(** ** Reactions *)

(** The reaction types named in [RateManager.cpp]; [BND_BND_EMISSION] is the
    type used by the spontaneous emission transfer models and stands for the
    types that have no [SELECT_RATE_LAWS] line. *)
Inductive ReactionType :=
| ASSOCIATIVE_IONIZATION | DISSOCIATIVE_RECOMBINATION
| ASSOCIATIVE_DETACHMENT | DISSOCIATIVE_ATTACHMENT
| DISSOCIATION_E | RECOMBINATION_E
| DISSOCIATION_M | RECOMBINATION_M
| IONIZATION_E | ION_RECOMBINATION_E
| IONIZATION_M | ION_RECOMBINATION_M
| ELECTRONIC_ATTACHMENT_M | ELECTRONIC_DETACHMENT_M
| ELECTRONIC_ATTACHMENT_E | ELECTRONIC_DETACHMENT_E
| EXCHANGE | EXCITATION_M | EXCITATION_E
| BND_BND_EMISSION.

(** What the kinetics code reads of a [Reaction]: its type, reversibility,
    owned rate law, and the species indices of its reactants and products
    (one entry per unit of stoichiometric coefficient). *)
Record Reaction := mkReaction {
  type : ReactionType;
  isReversible : bool;
  rateLaw : RateLaw;
  reactants : list nat;
  products : list nat
}.

(** [template <int reactionType> struct RateSelector] with its
    [SELECT_RATE_LAWS] specialisations: (ForwardGroup, ReverseGroup). *)
Definition RateSelector (t : ReactionType)
  : TemperatureSelector * TemperatureSelector :=
  match t with
  | ASSOCIATIVE_IONIZATION => (TSelector, TeSelector)
  | DISSOCIATIVE_RECOMBINATION => (TeSelector, TSelector)
  | ASSOCIATIVE_DETACHMENT => (TSelector, TeSelector)
  | DISSOCIATIVE_ATTACHMENT => (TeSelector, TSelector)
  | DISSOCIATION_E => (TeSelector, TeSelector)
  | RECOMBINATION_E => (TeSelector, TeSelector)
  | DISSOCIATION_M => (ParkSelector, TSelector)
  | RECOMBINATION_M => (TSelector, ParkSelector)
  | IONIZATION_E => (TeSelector, TeSelector)
  | ION_RECOMBINATION_E => (TeSelector, TeSelector)
  | IONIZATION_M => (TSelector, TSelector)
  | ION_RECOMBINATION_M => (TSelector, TSelector)
  | ELECTRONIC_ATTACHMENT_M => (TeSelector, TSelector)
  | ELECTRONIC_DETACHMENT_M => (TSelector, TeSelector)
  | ELECTRONIC_ATTACHMENT_E => (TeSelector, TeSelector)
  | ELECTRONIC_DETACHMENT_E => (TeSelector, TeSelector)
  | EXCHANGE => (TSelector, TSelector)
  | EXCITATION_M => (TSelector, TSelector)
  | EXCITATION_E => (TeSelector, TeSelector)
  | BND_BND_EMISSION => (TSelector, TSelector)
  end.

Definition ForwardGroup (t : ReactionType) : TemperatureSelector :=
  fst (RateSelector t).
Definition ReverseGroup (t : ReactionType) : TemperatureSelector :=
  snd (RateSelector t).

#[global] Instance RateLawKind_eq_dec : EqDecision RateLawKind.
Proof. solve_decision. Defined.
#[global] Instance TemperatureSelector_eq_dec : EqDecision TemperatureSelector.
Proof. solve_decision. Defined.

(** ** Arrays *)

(** [p[i]] read from an array; an index outside the array (undefined in
    C++) reads as [0]. *)
Definition deref (p : list R) (i : nat) : R :=
  match p !! i with Some x => x | None => 0 end.

(** A sequence of writes [p[i] = v], first to last. *)
Fixpoint write_all (ws : list (nat * R)) (p : list R) : list R :=
  match ws with
  | [] => p
  | (i, v) :: ws' => write_all ws' (<[i := v]> p)
  end.

(** ** Rate law groups *)

(** A group type [RateLawGroup1T<RateLawType, TSelectorType>] is identified
    by the pair of its template arguments. *)
Definition GroupType : Type := RateLawKind * TemperatureSelector.

(** Modelled from the spec: the class [RateLawGroup1T] of [RateManager.h],
    which is not among the sources.  A group owns the ordered list of
    (slot, rate law) pairs added to it and the reversible reactions whose
    equilibrium constant is taken at the group's temperature. *)
Record RateLawGroup := mkGroup {
  m_rates : list (nat * RateLaw);
  m_reacs : list (nat * Reaction)
}.

Definition empty_group : RateLawGroup := mkGroup [] [].

(** Modelled from the spec: the rate law evaluation a group performs for one
    member, from the scalars [ln T], [1/T], [T] and [T^2] of the shared
    temperature (section 4.1 of the specification). *)
Definition lnRate1T (law : RateLaw) (T : R) : R :=
  match law with
  | LawArrhenius a => Arrhenius_getLnRate a (ln T) (1 / T)
  | LawRationalExp r => rationalExp_getLnRate r (ln T) (1 / T) T (T * T)
  | LawConstRate c => constRate_getLnRate c
  | LawExpRat33 e => expRat33_getLnRate e T
  end.

(** Modelled from the spec: [RateLawGroupCollection] of [RateManager.h],
    the groups keyed by group type, in the order the groups were created. *)
Definition RateLawGroupCollection : Type := list (GroupType * RateLawGroup).

(** Modelled from the spec: the lookup of the group of type [k] in the
    collection, which creates the group when it is absent; [f] is then
    applied to the group. *)
Fixpoint with_group (f : RateLawGroup -> RateLawGroup) (k : GroupType)
    (c : RateLawGroupCollection) : RateLawGroupCollection :=
  match c with
  | [] => [(k, f empty_group)]
  | (k', g) :: c' =>
      if decide (k = k') then (k', f g) :: c'
      else (k', g) :: with_group f k c'
  end.

(** Modelled from the spec: [addRateCoefficient<GroupType>(rxn, p_rate)]
    appends the entry (slot, rate law) to the group of that type. *)
Definition addRateCoefficient (k : GroupType) (slot : nat) (p_rate : RateLaw)
    (c : RateLawGroupCollection) : RateLawGroupCollection :=
  with_group (fun g => mkGroup (m_rates g ++ [(slot, p_rate)]) (m_reacs g)) k c.

(** Modelled from the spec: [addReaction<GroupType>(rxn, reaction)] records
    the reversible reaction with the group whose temperature its
    equilibrium constant is evaluated at. *)
Definition coll_addReaction (k : GroupType) (rxn : nat) (reaction : Reaction)
    (c : RateLawGroupCollection) : RateLawGroupCollection :=
  with_group (fun g => mkGroup (m_rates g) (m_reacs g ++ [(rxn, reaction)])) k c.

(** Modelled from the spec: a group's evaluation computes the selector's
    temperature once and writes each member's log rate at its slot. *)
Definition group_lnk (k : GroupType) (g : RateLawGroup) (state : StateModel)
    (p_lnk : list R) : list R :=
  let T := getT (snd k) state in
  write_all (map (fun e => (fst e, lnRate1T (snd e) T)) (m_rates g)) p_lnk.

(** Modelled from the spec: [logOfRateCoefficients(state, p_lnk)], every
    group evaluated in turn. *)
Fixpoint logOfRateCoefficients (state : StateModel)
    (c : RateLawGroupCollection) (p_lnk : list R) : list R :=
  match c with
  | [] => p_lnk
  | (k, g) :: c' => logOfRateCoefficients state c' (group_lnk k g state p_lnk)
  end.

(** ** Equilibrium constants *)

(** The thermodynamics collaborator as [RateManager::update] uses it: its
    state model, and [speciesSTGOverRT(T, p_g)], which fills [p_g[j]] for
    every species [j] with the species Gibbs energy over RT at [T]. *)
Record Thermodynamics := mkThermo {
  state : StateModel;
  speciesSTGOverRT : R -> nat -> R
}.

Definition sum_list (l : list R) : R := fold_right Rplus 0 l.

(** Modelled from the spec: ln(Keq) of a reaction from the species Gibbs
    energies over RT [g], combined per stoichiometry:
    ln Keq = -(sum over products - sum over reactants). *)
Definition lnKeq (g : nat -> R) (reaction : Reaction) : R :=
  sum_list (map g (reactants reaction)) - sum_list (map g (products reaction)).

(** Modelled from the spec: the loop of a group over its reversible
    reactions, [p_r[rxn] -= ln Keq], with [p_g] and [p_r] the arrays at
    offsets [off_g] and [off_r] of the block. *)
Fixpoint subtract_reacs (off_g off_r : nat) (reacs : list (nat * Reaction))
    (block : list R) : list R :=
  match reacs with
  | [] => block
  | (rxn, reaction) :: rest =>
      subtract_reacs off_g off_r rest
        (<[(off_r + rxn)%nat :=
             deref block (off_r + rxn)%nat
             - lnKeq (fun j => deref block (off_g + j)%nat) reaction]> block)
  end.

(** Modelled from the spec: the writes of [speciesSTGOverRT(T, p_g)], one
    per species, into the array at offset [off_g] of the block. *)
Definition gibbs_writes (thermo : Thermodynamics) (ns off_g : nat) (T : R)
    : list (nat * R) :=
  map (fun j => ((off_g + j)%nat, speciesSTGOverRT thermo T j)) (seq 0 ns).

(** Modelled from the spec: a group's part of the correction phase.  The
    species Gibbs energies at the group's temperature are written to the
    [ns] entries of [p_g], then subtracted per reaction. *)
Definition group_subtractLnKeq (thermo : Thermodynamics) (ns off_g off_r : nat)
    (k : GroupType) (g : RateLawGroup) (block : list R) : list R :=
  let T := getT (snd k) (state thermo) in
  subtract_reacs off_g off_r (m_reacs g)
    (write_all (gibbs_writes thermo ns off_g T) block).

(** Modelled from the spec: [subtractLnKeq(thermo, p_g, p_r)] of the
    collection, every group in turn. *)
Fixpoint subtractLnKeq (thermo : Thermodynamics) (ns off_g off_r : nat)
    (c : RateLawGroupCollection) (block : list R) : list R :=
  match c with
  | [] => block
  | (k, g) :: c' =>
      subtractLnKeq thermo ns off_g off_r c'
        (group_subtractLnKeq thermo ns off_g off_r k g block)
  end.

(** ** The rate manager ([RateManager.cpp]) *)

(** The members of [RateManager].  [mp_lnkf] is [None] for [NULL] and
    otherwise the block of [2*m_nr + m_ns] doubles; [mp_lnkb] and
    [mp_gibbs] point into the same block at offsets [m_nr] and [2*m_nr]. *)
Record RateManager := mkRateManager {
  m_ns : nat;
  m_nr : nat;
  m_rate_groups : RateLawGroupCollection;
  m_to_copy : list nat;
  m_irr : list nat;
  mp_lnkf : option (list R)
}.

Definition mp_lnkb (m : RateManager) : nat := m_nr m.
Definition mp_gibbs (m : RateManager) : nat := (m_nr m + m_nr m)%nat.

(** [RateManager::addRate<ForwardGroup, ReverseGroup>(rxn, reaction)]. *)
Definition addRate (FWD REV : GroupType) (rxn : nat) (reaction : Reaction)
    (m : RateManager) : RateManager :=
  let groups1 :=
    addRateCoefficient FWD rxn (rateLaw reaction) (m_rate_groups m) in
  if isReversible reaction then
    if decide (FWD = REV) then
      mkRateManager (m_ns m) (m_nr m)
        (coll_addReaction REV rxn reaction groups1)
        (m_to_copy m ++ [rxn]) (m_irr m) (mp_lnkf m)
    else
      mkRateManager (m_ns m) (m_nr m)
        (coll_addReaction REV rxn reaction
           (addRateCoefficient REV (rxn + m_nr m)%nat (rateLaw reaction) groups1))
        (m_to_copy m) (m_irr m) (mp_lnkf m)
  else
    mkRateManager (m_ns m) (m_nr m) groups1
      (m_to_copy m) (m_irr m ++ [rxn]) (mp_lnkf m).

(** [RateManager::selectRate<N>(rxn, reaction)].  The template recursion
    walks down from [MAX_REACTION_TYPES-1] to the reaction's type and there
    instantiates [RateSelector] of that type; a rate law that is none of
    the three tested kinds falls through the chain and adds nothing. *)
Definition selectRate (rxn : nat) (reaction : Reaction) (m : RateManager)
    : RateManager :=
  let FWD := ForwardGroup (type reaction) in
  let REV := ReverseGroup (type reaction) in
  match rateLaw reaction with
  | LawArrhenius _ => addRate (KArrhenius, FWD) (KArrhenius, REV) rxn reaction m
  | LawRationalExp _ =>
      addRate (KRationalExp, FWD) (KRationalExp, REV) rxn reaction m
  | LawConstRate _ => addRate (KConstRate, FWD) (KConstRate, REV) rxn reaction m
  | LawExpRat33 _ => m
  end.

(** The [InvalidInputError] thrown for a rate law, carrying the name of
    its run-time type. *)
Inductive InvalidInputError := InvalidRateLaw (name : RateLawKind).

(** The result of running code that may throw on a manager: either it
    completes, or it throws and leaves the members as they were at the
    throw. *)
Inductive Outcome :=
| Done (m : RateManager)
| Thrown (e : InvalidInputError) (m : RateManager).

(** [RateManager::addReaction(rxn, reaction)]. *)
Definition addReaction (rxn : nat) (reaction : Reaction) (m : RateManager)
    : Outcome :=
  let p_rate := rateLaw reaction in
  if decide (typeid p_rate = KArrhenius) then Done (selectRate rxn reaction m)
  else if decide (typeid p_rate = KConstRate)
       then Done (selectRate rxn reaction m)
  else if decide (typeid p_rate = KRationalExp)
       then Done (selectRate rxn reaction m)
  else Thrown (InvalidRateLaw (typeid p_rate)) m.

(** The constructor's loop [for (i = 0; i < m_nr; ++i) addReaction(i, ...)],
    from index [i] over the remaining reactions. *)
Fixpoint addReactions (i : nat) (reactions : list Reaction) (m : RateManager)
    : Outcome :=
  match reactions with
  | [] => Done m
  | reaction :: rest =>
      match addReaction i reaction m with
      | Done m' => addReactions (S i) rest m'
      | Thrown e m' => Thrown e m'
      end
  end.

(** [RateManager::RateManager(ns, reactions)]. *)
Definition RateManager_ctor (ns : nat) (reactions : list Reaction) : Outcome :=
  let nr := length reactions in
  match addReactions 0 reactions (mkRateManager ns nr [] [] [] None) with
  | Thrown e m => Thrown e m
  | Done m =>
      let block_size := (2 * m_nr m + ns)%nat in
      Done (mkRateManager (m_ns m) (m_nr m) (m_rate_groups m)
              (m_to_copy m) (m_irr m) (Some (replicate block_size 0)))
  end.

(** The copy loop of [update]: [mp_lnkb[index] = mp_lnkf[index]]. *)
Fixpoint copy_rates (off_b : nat) (to_copy : list nat) (block : list R)
    : list R :=
  match to_copy with
  | [] => block
  | index :: rest =>
      copy_rates off_b rest (<[(off_b + index)%nat := deref block index]> block)
  end.

(** The state of the block after each of the three phases of [update]. *)
Definition evaluate_phase (thermo : Thermodynamics) (m : RateManager)
    (block : list R) : list R :=
  logOfRateCoefficients (state thermo) (m_rate_groups m) block.

Definition copy_phase (thermo : Thermodynamics) (m : RateManager)
    (block : list R) : list R :=
  copy_rates (mp_lnkb m) (m_to_copy m) (evaluate_phase thermo m block).

Definition correct_phase (thermo : Thermodynamics) (m : RateManager)
    (block : list R) : list R :=
  subtractLnKeq thermo (m_ns m) (mp_gibbs m) (mp_lnkb m) (m_rate_groups m)
    (copy_phase thermo m block).

(** [RateManager::update(thermo)]. *)
Definition update (thermo : Thermodynamics) (m : RateManager) : RateManager :=
  match mp_lnkf m with
  | None => m
  | Some block =>
      mkRateManager (m_ns m) (m_nr m) (m_rate_groups m) (m_to_copy m) (m_irr m)
        (Some (correct_phase thermo m block))
  end.

(** The arrays a caller reads back: [lnkf()] and [lnkb()]. *)
Definition lnkf (m : RateManager) : list R :=
  match mp_lnkf m with
  | None => []
  | Some block => take (m_nr m) block
  end.

Definition lnkb (m : RateManager) : list R :=
  match mp_lnkf m with
  | None => []
  | Some block => take (m_nr m) (drop (mp_lnkb m) block)
  end.

(** ** The third-body manager ([ThirdBodyManager.h]) *)

Module Thirdbody.

(** [class PartialThirdbodyEffs]: the reaction index and the two lists of
    (index, efficiency) pairs, over species and over species groups. *)
Record PartialThirdbodyEffs := mkPartialThirdbodyEffs {
  m_rxn : nat;
  m_effs : list (nat * R);
  m_groupEffs : list (nat * R)
}.

(** One of the two loops of [multiplyEfficiencies]:
    [sum += p[iter->first] * iter->second]. *)
Fixpoint accumulate (sum : R) (p : list R) (effs : list (nat * R)) : R :=
  match effs with
  | [] => sum
  | (i, w) :: rest => accumulate (sum + deref p i * w) p rest
  end.

(** [PartialThirdbodyEffs::multiplyEfficiencies(sum, p_s, p_g, p_r)];
    the result is the array [p_r] after the call. *)
Definition multiplyEfficiencies (e : PartialThirdbodyEffs) (sum : R)
    (p_s p_g p_r : list R) : list R :=
  let sum1 := accumulate sum p_s (m_effs e) in
  let sum2 := accumulate sum1 p_g (m_groupEffs e) in
  <[m_rxn e := deref p_r (m_rxn e) * sum2]> p_r.

(** What the manager uses of the thermodynamics collaborator: the number
    of species groups and [sumSgroupMembersValues(p_s, p_g)], given as the
    content of [p_g] after the call. *)
Record SgroupThermo := mkSgroupThermo {
  nSgroups : nat;
  sumSgroupMembersValues : list R -> list R -> list R
}.

(** [class ThirdbodyManager]; [mgr_effs] is the member [m_effs], the
    vector of managed reactions. *)
Record ThirdbodyManager := mkThirdbodyManager {
  m_ns : nat;
  m_offset : nat;
  mgr_effs : list PartialThirdbodyEffs;
  m_thermo : SgroupThermo;
  p_g : list R
}.

(** [ThirdbodyManager::ThirdbodyManager(ns, electrons, thermo)].  The
    scratch array [p_g] is allocated uninitialised in the source; here it
    starts as zeros, and it is overwritten before every use. *)
Definition ThirdbodyManager_ctor (ns : nat) (electrons : bool)
    (thermo : SgroupThermo) : ThirdbodyManager :=
  mkThirdbodyManager ns (if electrons then 1%nat else 0%nat) [] thermo
    (replicate (nSgroups thermo) 0).

(** [ThirdbodyManager::addReaction(rxn, effs, gEffs)]. *)
Definition addReaction (rxn : nat) (effs gEffs : list (nat * R))
    (tm : ThirdbodyManager) : ThirdbodyManager :=
  mkThirdbodyManager (m_ns tm) (m_offset tm)
    (mgr_effs tm ++ [mkPartialThirdbodyEffs rxn effs gEffs])
    (m_thermo tm) (p_g tm).

(** The three arrays [multiplyThirdbodies] has access to: the
    concentrations [p_s], the scratch array [p_g] and the rates of
    progress [p_r]. *)
Record Arrays := mkArrays {
  arr_s : list R;
  arr_g : list R;
  arr_r : list R
}.

(** The loop of [multiplyThirdbodies] over the managed reactions. *)
Fixpoint multiply_all (effs : list PartialThirdbodyEffs) (sum : R)
    (p_s p_g p_r : list R) : list R :=
  match effs with
  | [] => p_r
  | e :: rest =>
      multiply_all rest sum p_s p_g (multiplyEfficiencies e sum p_s p_g p_r)
  end.

(** [ThirdbodyManager::multiplyThirdbodies(p_s, p_r)]: the arrays after
    the call. *)
Definition multiplyThirdbodies (tm : ThirdbodyManager) (p_s p_r : list R)
    : Arrays :=
  let sum := 0 in
  let p_g' := sumSgroupMembersValues (m_thermo tm) p_s (p_g tm) in
  mkArrays p_s p_g' (multiply_all (mgr_effs tm) sum p_s p_g' p_r).

(** The weighted sum of one managed reaction, as the specification words
    it: it starts at zero and accumulates concentration times weight over
    the species list, then group concentration times weight over the group
    list, in the order of the lists. *)
Definition weighted_sum (e : PartialThirdbodyEffs) (conc gconc : list R) : R :=
  fold_left (fun sum gw => sum + deref gconc (fst gw) * snd gw)
    (m_groupEffs e)
    (fold_left (fun sum sw => sum + deref conc (fst sw) * snd sw)
       (m_effs e) 0).

(** The rate of progress [x] of reaction [rxn] after every registration
    of [rxn] has multiplied it by its weighted sum, in the order of
    registration. *)
Fixpoint scaled (rxn : nat) (effs : list PartialThirdbodyEffs)
    (conc gconc : list R) (x : R) : R :=
  match effs with
  | [] => x
  | e :: rest =>
      scaled rxn rest conc gconc
        (if decide (m_rxn e = rxn) then x * weighted_sum e conc gconc else x)
  end.


(** The reaction indices registered with the manager. *)
Definition registered (tm : ThirdbodyManager) : list nat :=
  map m_rxn (mgr_effs tm).

(** The manager of the worked example: two species, no species groups,
    reaction 0 registered with species efficiencies 1.0 and 0.5. *)
Definition example_manager : ThirdbodyManager :=
  addReaction 0 [(0%nat, 1); (1%nat, 0.5)] []
    (ThirdbodyManager_ctor 2 false (mkSgroupThermo 0 (fun _ g => g))).

(** A thermodynamics collaborator with one species group that holds every
    species: [sumSgroupMembersValues] writes the sum of the species values
    to the group's entry. *)
Definition one_group_thermo : SgroupThermo :=
  mkSgroupThermo 1 (fun p_s _ => [sum_list p_s]).

(** A manager over [one_group_thermo]: reaction 0 is registered with
    species efficiencies 1.0 and 0.5 and efficiency 2.0 for the group. *)
Definition example_group_manager : ThirdbodyManager :=
  addReaction 0 [(0%nat, 1); (1%nat, 0.5)] [(0%nat, 2)]
    (ThirdbodyManager_ctor 2 false one_group_thermo).

End Thirdbody.

(** ** Views of a manager used to state its properties *)

(** Every (slot, rate law) entry of every group, tagged with its group
    type, and likewise the reversible reactions the groups hold. *)
Definition all_rates (c : RateLawGroupCollection)
    : list (GroupType * (nat * RateLaw)) :=
  flat_map (fun kg => map (pair (fst kg)) (m_rates (snd kg))) c.

Definition all_reacs (c : RateLawGroupCollection)
    : list (GroupType * (nat * Reaction)) :=
  flat_map (fun kg => map (pair (fst kg)) (m_reacs (snd kg))) c.

(** The slots occupied in the groups of a manager. *)
Definition rate_slots (m : RateManager) : list nat :=
  map (fun x => fst (snd x)) (all_rates (m_rate_groups m)).

(** Whether the forward and reverse selectors of a reaction coincide. *)
Definition same_selector (r : Reaction) : bool :=
  bool_decide (ForwardGroup (type r) = ReverseGroup (type r)).

(** The group type of a reaction's rate law at selector [sel]. *)
Definition group_type (sel : TemperatureSelector) (r : Reaction) : GroupType :=
  (typeid (rateLaw r), sel).

(** What classifying reaction [i] adds to the groups, the copy list and
    the list of irreversible reactions. *)
Definition expected_rates (nr i : nat) (r : Reaction)
    : list (GroupType * (nat * RateLaw)) :=
  (group_type (ForwardGroup (type r)) r, (i, rateLaw r))
  :: (if isReversible r && negb (same_selector r)
      then [(group_type (ReverseGroup (type r)) r, ((i + nr)%nat, rateLaw r))]
      else []).

Definition expected_reacs (i : nat) (r : Reaction)
    : list (GroupType * (nat * Reaction)) :=
  if isReversible r then [(group_type (ReverseGroup (type r)) r, (i, r))]
  else [].

Definition expected_copy (i : nat) (r : Reaction) : list nat :=
  if isReversible r && same_selector r then [i] else [].

Definition expected_irr (i : nat) (r : Reaction) : list nat :=
  if isReversible r then [] else [i].

(** Concatenates [f i r] over the reactions, numbered from [i]. *)
Fixpoint from_index {A : Type} (f : nat -> Reaction -> list A) (i : nat)
    (rs : list Reaction) : list A :=
  match rs with
  | [] => []
  | r :: rest => f i r ++ from_index f (S i) rest
  end.

(** The rate law kinds [RateManager::addReaction] accepts. *)
Definition accepted (k : RateLawKind) : bool :=
  match k with
  | KArrhenius | KConstRate | KRationalExp => true
  | KExpRat33 => false
  end.

(** The state of a manager built over [rs] with [ns] species: the groups
    hold exactly the expected entries and the block is allocated. *)
Record manager_inv (ns : nat) (rs : list Reaction) (m : RateManager)
    : Prop := mkManagerInv {
  inv_ns : m_ns m = ns;
  inv_nr : m_nr m = length rs;
  inv_accepted : Forall (fun r => accepted (typeid (rateLaw r)) = true) rs;
  inv_rates :
    all_rates (m_rate_groups m)
    ≡ₚ from_index (expected_rates (length rs)) 0 rs;
  inv_reacs : all_reacs (m_rate_groups m) ≡ₚ from_index expected_reacs 0 rs;
  inv_copy : m_to_copy m = from_index expected_copy 0 rs;
  inv_irr : m_irr m = from_index expected_irr 0 rs;
  inv_block :
    exists block, mp_lnkf m = Some block
                  /\ length block = (2 * length rs + ns)%nat
}.

(** The managers a program can hold: constructed, then updated any number
    of times. *)
Inductive constructed (ns : nat) (rs : list Reaction) : RateManager -> Prop :=
| constructed_ctor (m : RateManager) :
    RateManager_ctor ns rs = Done m -> constructed ns rs m
| constructed_update (thermo : Thermodynamics) (m : RateManager) :
    constructed ns rs m -> constructed ns rs (update thermo m).

(** The value that evaluating the rate law of reaction [r] once more, at
    the temperature of its reverse selector, would give for ln(kb) before
    the equilibrium correction. *)
Definition reevaluate_reverse (thermo : Thermodynamics) (r : Reaction) : R :=
  lnRate1T (rateLaw r) (getT (ReverseGroup (type r)) (state thermo)).

(** The species Gibbs energies as read back from the [ns] entries of
    [p_g]; an index past the block reads as [0]. *)
Definition gibbs_read (thermo : Thermodynamics) (ns : nat) (T : R) (j : nat)
    : R :=
  if decide (j < ns)%nat then speciesSTGOverRT thermo T j else 0.

(** The write a group performs for one of its entries: the slot and the
    log rate at the temperature of the group's selector. *)
Definition rate_write (st : StateModel) (x : GroupType * (nat * RateLaw))
    : nat * R :=
  (fst (snd x), lnRate1T (snd (snd x)) (getT (snd (fst x)) st)).

(** ** Example inputs *)

(** An irreversible exchange reaction (forward and reverse selectors both
    [TSelector]) with Arrhenius law ln A = 1, n = 0, Ta = 0. *)
Definition exchange_irreversible : Reaction :=
  mkReaction EXCHANGE false (LawArrhenius (mkArrhenius 1 0 0))
    [0%nat] [1%nat].

(** A reversible exchange reaction with a constant rate law, ln A = 3. *)
Definition exchange_reversible : Reaction :=
  mkReaction EXCHANGE true (LawConstRate (mkConstRate 3)) [0%nat] [1%nat].

(** A reversible dissociation by heavy particle impact (forward selector
    [ParkSelector], reverse selector [TSelector]), constant rate law. *)
Definition dissociation_reversible : Reaction :=
  mkReaction DISSOCIATION_M true (LawConstRate (mkConstRate 2))
    [0%nat] [1%nat; 1%nat].

(** A reaction with the rate law kind the manager does not accept. *)
Definition expRat33_reaction : Reaction :=
  mkReaction EXCHANGE false (LawExpRat33 (mkExpRat33 0 0 0 0 1 0 0))
    [0%nat] [1%nat].

(** A state at T = Te = Tv = 1 where species [j] has Gibbs energy over RT
    equal to [j]. *)
Definition example_thermo : Thermodynamics :=
  mkThermo (mkStateModel 1 1 1) (fun _ j => INR j).

(** The manager a constructor call leaves, whether it completed or threw. *)
Definition manager_of (o : Outcome) : RateManager :=
  match o with
  | Done m => m
  | Thrown _ m => m
  end.

From Stdlib Require Import Sorted.

(** ** Rate laws: derivatives and accessors ([RateLaws.h]) *)

(** [Arrhenius::derivative(k, lnT, invT)]. *)
Definition Arrhenius_derivative (a : Arrhenius) (k lnT invT : R) : R :=
  k * invT * (arr_n a + arr_temp a * invT).

(** [Arrhenius::n()] and [Arrhenius::T()]. *)
Definition Arrhenius_n (a : Arrhenius) : R := arr_n a.
Definition Arrhenius_T (a : Arrhenius) : R := arr_temp a.

(** [rationalExp::derivative(k, invT, T, sqT)]. *)
Definition rationalExp_derivative (r : rationalExp) (k invT T sqT : R) : R :=
  k * (invT * (re_n r + re_temp r * invT)
       + (re_a1 r + re_a2 r * 2 * T)
         / (re_a0 r + re_a1 r * T + re_a2 r * sqT)
       - (re_b1 r + re_b2 r * 2 * T + re_b3 r * 3 * sqT)
         / (re_b0 r + re_b1 r * T + re_b2 r * sqT + re_b3 r * sqT * T)).

(** [constRate::derivative()]. *)
Definition constRate_derivative (c : constRate) : R := 0.

(** The rate coefficient whose logarithm a law returns, as a function of
    the temperature at which a group evaluates the law. *)
Definition Arrhenius_rate (a : Arrhenius) (T : R) : R :=
  exp (Arrhenius_getLnRate a (ln T) (1 / T)).

Definition rationalExp_rate (r : rationalExp) (T : R) : R :=
  exp (rationalExp_getLnRate r (ln T) (1 / T) T (T * T)).

Definition constRate_rate (c : constRate) (T : R) : R :=
  exp (constRate_getLnRate c).

(** Numerator and denominator of the rational factor of [rationalExp]. *)
Definition rationalExp_P (r : rationalExp) (T : R) : R :=
  re_a0 r + re_a1 r * T + re_a2 r * (T * T).

Definition rationalExp_Q (r : rationalExp) (T : R) : R :=
  re_b0 r + re_b1 r * T + re_b2 r * (T * T) + re_b3 r * (T * T) * T.

From Stdlib Require Ascii String DecimalString.

(** ** Species list descriptor ([SpeciesListDescriptor.h]) *)

Module SpeciesList.

(** [std::lexicographical_compare] with [operator<] given as [ltb]: the
    comparison behind [operator<] of [std::vector<size_t>] and of
    [std::string]. *)
Fixpoint lexicographical_compare {A : Type} (ltb : A -> A -> bool)
    (l1 l2 : list A) : bool :=
  match l1, l2 with
  | [], [] => false
  | [], _ :: _ => true
  | _ :: _, [] => false
  | x :: l1', y :: l2' =>
      if ltb x y then true
      else if ltb y x then false
      else lexicographical_compare ltb l1' l2'
  end.

(** The characters of a string as unsigned character codes. *)
Definition char_codes (s : String.string) : list nat :=
  map Ascii.nat_of_ascii (String.list_ascii_of_string s).

(** [operator<] of [std::string]. *)
Definition string_lt (s1 s2 : String.string) : bool :=
  lexicographical_compare Nat.ltb (char_codes s1) (char_codes s2).

(** [class energyLevel]. *)
Record energyLevel := mkEnergyLevel {
  m_groundStateName : String.string;
  m_indices : list nat
}.

(** [energyLevel::operator<]. *)
Definition energyLevel_lt (this lvl : energyLevel) : bool :=
  if negb (String.eqb (m_groundStateName this) (m_groundStateName lvl))
  then string_lt (m_groundStateName this) (m_groundStateName lvl)
  else lexicographical_compare Nat.ltb (m_indices this) (m_indices lvl).

(** *** [SpeciesListDescriptor::separateSpeciesNames] *)

(** The characters the scanner tests for: the six white-space characters
    and the quotation mark (code 34). *)
Definition is_space (c : Ascii.ascii) : bool :=
  match Ascii.nat_of_ascii c with
  | 32 | 10 | 13 | 9 | 12 | 11 => true
  | _ => false
  end.

Definition is_quote (c : Ascii.ascii) : bool :=
  Nat.eqb (Ascii.nat_of_ascii c) 34.

(** [name += c]. *)
Definition push_char (name : String.string) (c : Ascii.ascii)
    : String.string :=
  String.append name (String.String c String.EmptyString).

(** [if (name.length() > 0) m_species_names.push_back(name)]. *)
Definition push_name (name : String.string) (names : list String.string)
    : list String.string :=
  match name with
  | String.EmptyString => names
  | String.String _ _ => names ++ [name]
  end.

(** The result of the scan: the species names, or the
    [InvalidInputError] for a quotation mark inside a name, with the name
    read so far and the position of the quotation mark. *)
Inductive Separated :=
| Names (names : list String.string)
| QuoteInName (name : String.string) (i : nat).

(** The loop of [separateSpeciesNames] from position [i] over the rest of
    the descriptor, with the scanner's state [in_quotes], the name being
    read and the names pushed so far. *)
Fixpoint separate_loop (rest : String.string) (i : nat) (in_quotes : bool)
    (name : String.string) (names : list String.string) : Separated :=
  match rest with
  | String.EmptyString => Names (push_name name names)
  | String.String c rest' =>
      if in_quotes then
        if is_quote c
        then separate_loop rest' (S i) false String.EmptyString
               (push_name name names)
        else separate_loop rest' (S i) true (push_char name c) names
      else if is_space c
        then separate_loop rest' (S i) false String.EmptyString
               (push_name name names)
      else if is_quote c
        then match name with
             | String.String _ _ => QuoteInName name i
             | String.EmptyString =>
                 separate_loop rest' (S i) true name names
             end
      else separate_loop rest' (S i) false (push_char name c) names
  end.

(** [SpeciesListDescriptor::separateSpeciesNames(descriptor)], appending
    to [m_species_names].  [trim] is [Utilities::String::trim], which is
    not among the sources.  Reading [descriptor[0]] of an empty string
    gives the null character. *)
Definition separateSpeciesNames (trim : String.string -> String.string)
    (descriptor : String.string) (m_species_names : list String.string)
    : Separated :=
  match trim descriptor with
  | String.EmptyString =>
      separate_loop String.EmptyString 0 false String.EmptyString
        m_species_names
  | String.String c rest =>
      if is_quote c
      then separate_loop rest 1 true String.EmptyString m_species_names
      else separate_loop (String.String c rest) 0 false String.EmptyString
             m_species_names
  end.

(** Whether a string holds a character satisfying [p]. *)
Fixpoint has_char (p : Ascii.ascii -> bool) (s : String.string) : bool :=
  match s with
  | String.EmptyString => false
  | String.String c s' => p c || has_char p s'
  end.

(** A name as it can be written without quotation marks: not empty, no
    white space, no quotation mark. *)
Definition plain_name (s : String.string) : Prop :=
  s <> String.EmptyString
  /\ has_char is_space s = false /\ has_char is_quote s = false.

(** Names written one after the other, separated by one space. *)
Fixpoint join_names (names : list String.string) : String.string :=
  match names with
  | [] => String.EmptyString
  | [name] => name
  | name :: rest =>
      String.append name
        (String.String (Ascii.ascii_of_nat 32) (join_names rest))
  end.

(** A name written between quotation marks. *)
Definition quoted (name : String.string) : String.string :=
  String.String (Ascii.ascii_of_nat 34)
    (String.append name
       (String.String (Ascii.ascii_of_nat 34) String.EmptyString)).

(** *** Species, as the descriptor reads them *)

(** The enumerations of [Species.h], which is not among the sources:
    [ParticleType] and [PhaseType] by the enumerators the sources name,
    and the level type in the order the comparisons of the sources imply
    ([NONE] is 0; a level type counts the level indices of a species). *)
Inductive ParticleType := ELECTRON | ATOM | MOLECULE.
Inductive PhaseType := GAS | LIQUID | SOLID.
Inductive LevelType := NONE | ELECTRONIC | VIBRATIONAL | ROTATIONAL.

Definition level_rank (t : LevelType) : nat :=
  match t with
  | NONE => 0
  | ELECTRONIC => 1
  | VIBRATIONAL => 2
  | ROTATIONAL => 3
  end.

(** What the descriptor reads of a [Species]. *)
Record Species := mkSpecies {
  name : String.string;
  groundStateName : String.string;
  type : ParticleType;
  phase : PhaseType;
  levelType : LevelType;
  level : nat;
  vibLevel : nat;
  rotLevel : nat;
  stoichiometry : list (String.string * nat)
}.

(** [energyLevel::energyLevel(const Species&)]. *)
Definition energyLevel_of (species : Species) : energyLevel :=
  mkEnergyLevel (groundStateName species)
    ((if level_rank ELECTRONIC <=? level_rank (levelType species)
      then [level species] else [])
     ++ (if level_rank VIBRATIONAL <=? level_rank (levelType species)
         then [vibLevel species] else [])
     ++ (if level_rank ROTATIONAL <=? level_rank (levelType species)
         then [rotLevel species] else [])).

(** [class SpeciesListDescriptor]: the members.  [m_expand_states] is the
    map from energy levels to the number of stars, given by its entries
    in iteration order. *)
Record SpeciesListDescriptor := mkDescriptor {
  m_species_names : list String.string;
  m_element_names : list String.string;
  m_expand_states : list (energyLevel * nat);
  m_gases : bool;
  m_solids : bool;
  m_liquids : bool
}.

(** [levelMap::find(key)]: the value of the entry equivalent to [key]
    under [operator<], if there is one. *)
Fixpoint map_find (key : energyLevel) (m : list (energyLevel * nat))
    : option nat :=
  match m with
  | [] => None
  | (k, v) :: m' =>
      if negb (energyLevel_lt k key) && negb (energyLevel_lt key k)
      then Some v
      else map_find key m'
  end.

(** [(it != m_expand_states.end()) && (it->second == n)]. *)
Definition found_with (d : SpeciesListDescriptor) (key : energyLevel)
    (n : nat) : bool :=
  match map_find key (m_expand_states d) with
  | Some v => Nat.eqb v n
  | None => false
  end.

(** *** [SpeciesListDescriptor::matches] *)

(** The loop over [j] of [matches], with [count] iterations left, and the
    test after it. *)
Fixpoint matches_levels (d : SpeciesListDescriptor) (species : Species)
    (count j : nat) (indices : list nat) : bool :=
  match count with
  | 0 =>
      found_with d (mkEnergyLevel (groundStateName species) indices)
        (level_rank (levelType species))
  | S count' =>
      if found_with d (mkEnergyLevel (groundStateName species) indices) j
      then true
      else matches_levels d species count' (S j) (removelast indices)
  end.

(** The loop of [matches] over the explicitly listed names: the result
    returned from inside the loop, if a name equals the ground state name
    of the species. *)
Fixpoint matches_explicit (d : SpeciesListDescriptor) (species : Species)
    (names : list String.string) : option bool :=
  match names with
  | [] => None
  | nm :: rest =>
      if String.eqb (groundStateName species) nm
      then Some (matches_levels d species (level_rank (levelType species)) 0
                   (m_indices (energyLevel_of species)))
      else matches_explicit d species rest
  end.

(** [m_element_names.count(el) == 0] negated. *)
Definition has_element (d : SpeciesListDescriptor) (el : String.string)
    : bool :=
  existsb (String.eqb el) (m_element_names d).

Definition PhaseType_eqb (a b : PhaseType) : bool :=
  match a, b with
  | GAS, GAS | LIQUID, LIQUID | SOLID, SOLID => true
  | _, _ => false
  end.

Definition ParticleType_eqb (a b : ParticleType) : bool :=
  match a, b with
  | ELECTRON, ELECTRON | ATOM, ATOM | MOLECULE, MOLECULE => true
  | _, _ => false
  end.

(** [SpeciesListDescriptor::matches(species)]. *)
Definition matches (d : SpeciesListDescriptor) (species : Species) : bool :=
  match matches_explicit d species (m_species_names d) with
  | Some b => b
  | None =>
      if negb (Nat.eqb (level_rank (levelType species)) (level_rank NONE))
      then false
      else if PhaseType_eqb (phase species) GAS && negb (m_gases d)
      then false
      else if PhaseType_eqb (phase species) SOLID && negb (m_solids d)
      then false
      else if PhaseType_eqb (phase species) LIQUID && negb (m_liquids d)
      then false
      else forallb (fun e => has_element d (fst e)) (stoichiometry species)
  end.

(** *** [SpeciesListDescriptor::order] *)

(** [std::find_if]: the position of the first element satisfying [p]. *)
Fixpoint find_if {A : Type} (p : A -> bool) (l : list A) : option nat :=
  match l with
  | [] => None
  | x :: l' => if p x then Some 0%nat else option_map S (find_if p l')
  end.

(** The predicates [NameEquals], [GroundStateNameEquals], [TypeEquals] and
    [IsCondensed]. *)
Definition NameEquals (nm : String.string) (s : Species) : bool :=
  String.eqb (name s) nm.
Definition GroundStateNameEquals (nm : String.string) (s : Species) : bool :=
  String.eqb (groundStateName s) nm.
Definition TypeEquals (t : ParticleType) (s : Species) : bool :=
  ParticleType_eqb (type s) t.
Definition IsCondensed (s : Species) : bool :=
  negb (PhaseType_eqb (phase s) GAS).

(** The one-character string of character code [n]. *)
Definition chr (n : nat) : String.string :=
  String.String (Ascii.ascii_of_nat n) String.EmptyString.

(** The unsigned decimal a stream prints for an index. *)
Definition decimal (n : nat) : String.string :=
  DecimalString.NilZero.string_of_uint (Nat.to_uint n).

(** The indices as [energyLevel::name] prints them after the opening
    parenthesis: all but the last followed by a comma, the last by the
    closing parenthesis (character codes 44 and 41; 40 opens). *)
Fixpoint name_indices (indices : list nat) : String.string :=
  match indices with
  | [] => String.EmptyString
  | [i] => String.append (decimal i) (chr 41)
  | i :: rest =>
      String.append (decimal i) (String.append (chr 44) (name_indices rest))
  end.

(** [energyLevel::name()]. *)
Definition energyLevel_name (lvl : energyLevel) : String.string :=
  match m_indices lvl with
  | [] => m_groundStateName lvl
  | _ :: _ =>
      String.append (m_groundStateName lvl)
        (String.append (chr 40) (name_indices (m_indices lvl)))
  end.

(** The inner loop of the expansion: from position [k] over the species
    [l] that follow, the position of the lowest level met so far among
    the species with ground state name [nm]. *)
Fixpoint lowest_level (nm : String.string) (l : list Species) (k : nat)
    (lowest : nat) (lvl : Species) : nat :=
  match l with
  | [] => lowest
  | s :: l' =>
      if GroundStateNameEquals nm s
         && energyLevel_lt (energyLevel_of s) (energyLevel_of lvl)
      then lowest_level nm l' (S k) k s
      else lowest_level nm l' (S k) lowest lvl
  end.

(** The outer loop of the expansion of name [nm]: while a species with
    that ground state name is left in [input], the lowest of them is
    moved to the end of the ordered list.  [fuel] bounds the iterations;
    the length of [input] is enough, one species leaving per iteration. *)
Fixpoint expand_name (fuel : nat) (nm : String.string)
    (input ordered : list Species) : list Species * list Species :=
  match fuel with
  | 0 => (input, ordered)
  | S fuel' =>
      match find_if (GroundStateNameEquals nm) input with
      | None => (input, ordered)
      | Some k0 =>
          match input !! k0 with
          | None => (input, ordered)
          | Some s0 =>
              let k := lowest_level nm (drop (S k0) input) (S k0) k0 s0 in
              match input !! k with
              | None => (input, ordered)
              | Some s =>
                  expand_name fuel' nm (delete k input) (ordered ++ [s])
              end
          end
      end
  end.

(** The first loop of [order], over the explicitly listed names: the
    state is the input list, the ordered list and the missing names. *)
Fixpoint order_names (d : SpeciesListDescriptor) (names : list String.string)
    (input ordered : list Species) (missing : list String.string)
    : list Species * list Species * list String.string :=
  match names with
  | [] => (input, ordered, missing)
  | nm :: rest =>
      if found_with d (mkEnergyLevel nm []) 0
      then
        match find_if (NameEquals nm) input with
        | None => order_names d rest input ordered (missing ++ [nm])
        | Some k =>
            match input !! k with
            | None => order_names d rest input ordered missing
            | Some s =>
                order_names d rest (delete k input) (ordered ++ [s]) missing
            end
        end
      else
        let io := expand_name (length input) nm input ordered in
        order_names d rest (fst io) (snd io) missing
  end.

(** The second loop of [order]: every level listed without a star must be
    in the ordered list under its full name. *)
Fixpoint check_missing (m : list (energyLevel * nat))
    (ordered : list Species) (missing : list String.string)
    : list String.string :=
  match m with
  | [] => missing
  | (lvl, v) :: m' =>
      if Nat.eqb v 0
      then
        match find_if (NameEquals (energyLevel_name lvl)) ordered with
        | None => check_missing m' ordered (missing ++ [energyLevel_name lvl])
        | Some _ => check_missing m' ordered missing
        end
      else check_missing m' ordered missing
  end.

(** [ordered_list.splice(ordered_list.begin(), ordered_list, it)] for the
    first electron, when it is neither first nor absent. *)
Definition electron_first (ordered : list Species) : list Species :=
  match find_if (TypeEquals ELECTRON) ordered with
  | Some (S k) =>
      match ordered !! (S k) with
      | Some s => s :: delete (S k) ordered
      | None => ordered
      end
  | _ => ordered
  end.

(** The loop [while (ncond-- > 0)]: the first condensed species is moved
    to the end of the list. *)
Fixpoint condensed_last (ncond : nat) (ordered : list Species)
    : list Species :=
  match ncond with
  | 0 => ordered
  | S ncond' =>
      match find_if IsCondensed ordered with
      | None => ordered
      | Some k =>
          match ordered !! k with
          | None => ordered
          | Some s => condensed_last ncond' (delete k ordered ++ [s])
          end
      end
  end.

(** [std::count_if]. *)
Definition count_if {A : Type} (p : A -> bool) (l : list A) : nat :=
  length (List.filter p l).

(** The three containers [order] works on, after the call. *)
Record Ordered := mkOrdered {
  ord_input : list Species;
  ord_output : list Species;
  ord_missing : list String.string
}.

(** [SpeciesListDescriptor::order(input, output, missing)]. *)
Definition order (d : SpeciesListDescriptor) (input output : list Species)
    (missing : list String.string) : Ordered :=
  let '(input1, ordered1, missing1) :=
    order_names d (m_species_names d) input [] missing in
  let missing2 := check_missing (m_expand_states d) ordered1 missing1 in
  if (0 <? length missing2)%nat then mkOrdered input1 output missing2
  else
    let ordered2 := ordered1 ++ input1 in
    let ordered3 := electron_first ordered2 in
    let ncond := count_if IsCondensed ordered3 in
    mkOrdered [] (condensed_last ncond ordered3) missing2.

(** *** Example species and descriptor *)

(** The species N (a gas atom), e- (the electron, a gas) and C(gr) (a
    solid), and a descriptor that lists N and allows gases and solids
    made of the elements N, e- and C. *)
Definition sp_N : Species :=
  mkSpecies (chr 78) (chr 78) ATOM GAS NONE 0 0 0 [(chr 78, 1%nat)].
Definition sp_e : Species :=
  mkSpecies (chr 101) (chr 101) ELECTRON GAS NONE 0 0 0 [(chr 101, 1%nat)].
Definition sp_C : Species :=
  mkSpecies (chr 67) (chr 67) ATOM SOLID NONE 0 0 0 [(chr 67, 1%nat)].
Definition descriptor_N : SpeciesListDescriptor :=
  mkDescriptor [chr 78] [chr 78; chr 101; chr 67]
    [(mkEnergyLevel (chr 78) [], 0%nat)] true true false.

(** Whether the descriptor allows the phase of a species. *)
Definition phase_allowed (d : SpeciesListDescriptor) (p : PhaseType) : bool :=
  match p with
  | GAS => m_gases d
  | SOLID => m_solids d
  | LIQUID => m_liquids d
  end.

End SpeciesList.

(** ** Rigid-rotor harmonic-oscillator parameters ([ParticleRRHO.cpp]) *)

Module RRHO.

(** The members of [ParticleRRHO]; an electronic level is the pair of
    its degeneracy and its energy. *)
Record ParticleRRHO := mkParticleRRHO {
  m_hform : R;
  m_steric : Z;
  m_linearity : Z;
  m_rotational_t : R;
  m_electronic_energies : list (Z * R);
  m_vibrational_energies : list R
}.

(** The accessors [nElectronicLevels()] and [electronicEnergy(i)] of
    [ParticleRRHO.h], which is not among the sources: the size of
    [m_electronic_energies] and its entry [i]. *)
Definition nElectronicLevels (rrho : ParticleRRHO) : nat :=
  length (m_electronic_energies rrho).

Definition electronicEnergy (rrho : ParticleRRHO) (i : nat) : option (Z * R) :=
  m_electronic_energies rrho !! i.

(** [ParticleRRHO::ParticleRRHO(const ParticleRRHO& rrho, size_t level)],
    with the gas constant [RU] of [Constants.h] as a parameter.  The
    result is [None] when the assertion [level < rrho.nElectronicLevels()]
    fails. *)
Definition ParticleRRHO_level (RU : R) (rrho : ParticleRRHO) (level : nat)
    : option ParticleRRHO :=
  match electronicEnergy rrho level with
  | Some e =>
      Some (mkParticleRRHO
              (m_hform rrho + RU * snd e)
              (m_steric rrho)
              (m_linearity rrho)
              (m_rotational_t rrho)
              [(fst e, 0)]
              (m_vibrational_energies rrho))
  | None => None
  end.

End RRHO.

(** ** Spontaneous emission source term (the file of [OmegaSEf]) *)

Module OmegaSEf.

(** What [OmegaSEf] reads of the mixture: its reactions, the translational
    temperature, and the arrays the mixture fills, [mp_delta] (by
    [getReactionDelta] from the formation enthalpies) and [mp_rate] (by
    [netRatesOfProgress]). *)
Record Mixture := mkMixture {
  reactions : list Reaction;
  T : R;
  mp_delta : list R;
  mp_rate : list R
}.

Definition is_BND_BND_EMISSION (t : ReactionType) : bool :=
  match t with
  | BND_BND_EMISSION => true
  | _ => false
  end.

(** The constructor's loop: [m_rId] collects, from index [i] on, the
    indices of the reactions of type [BND_BND_EMISSION]. *)
Fixpoint collect_rId (i : nat) (rs : list Reaction) (m_rId : list nat)
    : list nat :=
  match rs with
  | [] => m_rId
  | r :: rest =>
      if is_BND_BND_EMISSION (type r)
      then collect_rId (S i) rest (m_rId ++ [i])
      else collect_rId (S i) rest m_rId
  end.

(** [OmegaSEf::OmegaSEf(mix)]: the member [m_rId]. *)
Definition OmegaSEf_ctor (mix : Mixture) : list nat :=
  collect_rId 0 (reactions mix) [].

(** The loop of [source]: [src += mp_delta[j]*mp_rate[j]]. *)
Fixpoint sum_source (m_rId : list nat) (delta rate : list R) (src : R) : R :=
  match m_rId with
  | [] => src
  | j :: rest => sum_source rest delta rate (src + deref delta j * deref rate j)
  end.

(** [OmegaSEf::source()], with the gas constant [RU] as a parameter. *)
Definition source (RU : R) (mix : Mixture) : R :=
  let src := sum_source (OmegaSEf_ctor mix) (mp_delta mix) (mp_rate mix) 0 in
  src * RU * T mix.

(** A spontaneous emission reaction between two bound levels; the
    manager of rate coefficients is not asked about it here, so its rate
    law is only a placeholder. *)
Definition emission_reaction : Reaction :=
  mkReaction BND_BND_EMISSION false (LawConstRate (mkConstRate 0))
    [0%nat] [1%nat].

End OmegaSEf.

(** ** The Arrhenius law in double precision

    A C++ [double] is an IEEE 754 binary64 number, and so is Rocq's
    primitive [float]: its addition, subtraction, multiplication and
    division round to nearest, overflow to infinity and propagate NaN as
    the machine's do.  [Arrhenius_getLnRate] above reads the expression of
    the source in exact arithmetic; [Double.getLnRate] evaluates the same
    expression, operation for operation, in binary64. *)

From Stdlib Require Floats.

Module Double.

Import PrimFloat.

(** [class Arrhenius]: the private members, as doubles. *)
Record Arrhenius := mkArrhenius {
  m_lnA : float;
  m_n : float;
  m_temp : float
}.

(** [Arrhenius::getLnRate(lnT, invT)]:
    [return (m_lnA + m_n * lnT - m_temp * invT);]. *)
Definition getLnRate (a : Arrhenius) (lnT invT : float) : float :=
  (m_lnA a + m_n a * lnT - m_temp a * invT)%float.

(** The double [std::log(1e10)] returns, 23.025850929940457. *)
Definition ln_1e10 : float := 0x1.7069e2aa2aa5bp+4%float.

(** The double nearest to 1e-310, a positive subnormal number, and the
    double [std::log] returns for it, -713.8013788281542. *)
Definition T_subnormal : float := 0x0.012688b70e62bp-1022%float.

Definition ln_T_subnormal : float := (- 0x1.64e69394d9508p+9)%float.

(** The temperature 300.0 and the double [std::log] returns both for it
    and for the next double above it, 5.703782474656201. *)
Definition T_300 : float := 0x1.2cp+8%float.

Definition ln_T_300 : float := 0x1.6d0ac5a6095d8p+2%float.

End Double.

(** * Properties *)

(** ** Rate laws *)

Section RateLawProperties.

Import PrimFloat FloatOps FloatAxioms SpecFloat.



(** The finite doubles are the zeros and the numbers with a mantissa and
    an exponent. *)
Lemma is_finite_Prim2SF (x : float) :
  is_finite x = true ->
  (exists s, Prim2SF x = S754_zero s)
  \/ (exists s m e, Prim2SF x = S754_finite s m e).
Proof.
  unfold is_finite, is_nan, is_infinity. rewrite !eqb_spec, abs_spec.
  destruct (Prim2SF x) as [s|s| |s m e] eqn:Hx.
  - eauto.
  - intros H. exfalso. destruct s; vm_compute in H; discriminate.
  - intros H. vm_compute in H. discriminate.
  - right. eauto.
Qed.

(** With exponent and activation temperature zero, the two products are
    zeros of either sign whenever ln T and 1/T are finite, and adding and
    subtracting a zero leaves a non-zero ln A as it is. *)
Lemma Double_getLnRate_constant (lnA lnT invT : float) :
  is_finite lnA = true -> is_zero lnA = false ->
  is_finite lnT = true -> is_finite invT = true ->
  Double.getLnRate (Double.mkArrhenius lnA 0 0) lnT invT = lnA.
Proof.
  intros HA HAz HT HI. apply Prim2SF_inj.
  unfold Double.getLnRate; simpl.
  rewrite sub_spec, add_spec, !mul_spec.
  change (Prim2SF 0) with (S754_zero false).
  apply is_finite_Prim2SF in HA, HT, HI.
  unfold is_zero in HAz. rewrite eqb_spec in HAz.
  destruct HA as [[s Ha]|(s & m & e & Ha)]; rewrite Ha in *.
  - exfalso. destruct s; vm_compute in HAz; discriminate.
  - destruct HT as [[s1 Ht]|(s1 & m1 & e1 & Ht)],
             HI as [[s2 Hi]|(s2 & m2 & e2 & Hi)];
      rewrite Ht, Hi; reflexivity.
Qed.

(** C6, as the code has it: evaluation at lnT and invT returns the double
    (ln A + n lnT) - Ta invT, which in exact arithmetic is
    ln A + n ln T - Ta (1/T) for every T > 0; with n = 0 and Ta = 0 (and
    ln A = ln(1e10), or any other finite non-zero double) the result is
    ln A exactly whenever ln T and 1/T are finite doubles, and in exact
    arithmetic for every T > 0. *)
Theorem Arrhenius_getLnRate_spec :
  (forall (a : Double.Arrhenius) (lnT invT : float),
      Double.getLnRate a lnT invT
      = (Double.m_lnA a + Double.m_n a * lnT - Double.m_temp a * invT)%float)
  /\ (forall lnA lnT invT : float,
        is_finite lnA = true -> is_zero lnA = false ->
        is_finite lnT = true -> is_finite invT = true ->
        Double.getLnRate (Double.mkArrhenius lnA 0 0) lnT invT = lnA)
  /\ (forall (a : Arrhenius) (T : R),
        0 < T ->
        Arrhenius_getLnRate a (ln T) (1 / T)
        = arr_lnA a + arr_n a * ln T - arr_temp a * (1 / T))
  /\ (forall T : R,
        0 < T ->
        Arrhenius_getLnRate (mkArrhenius (ln 1e10) 0 0) (ln T) (1 / T)
        = ln 1e10).
Proof.
  split; [| split; [| split]].
  - reflexivity.
  - exact Double_getLnRate_constant.
  - reflexivity.
  - intros T _. unfold Arrhenius_getLnRate; simpl. ring.
Qed.

(** At T = 300: ln T and 1/T are finite and the result is ln(1e10). *)
Lemma Arrhenius_getLnRate_spec_witness :
  Double.getLnRate (Double.mkArrhenius Double.ln_1e10 0 0)
    Double.ln_T_300 (1 / Double.T_300)%float
  = Double.ln_1e10.
Proof.
  apply (proj1 (proj2 Arrhenius_getLnRate_spec)); reflexivity.
Defined.

(** C6 as stated fails on doubles: T = 1e-310 is positive, 1/T overflows
    to infinity, 0 * infinity is NaN, and the result is NaN, not
    ln(1e10). *)
Lemma Arrhenius_getLnRate_subnormal :
  (0 <? Double.T_subnormal)%float = true
  /\ (1 / Double.T_subnormal)%float = infinity
  /\ is_finite Double.ln_T_subnormal = true
  /\ is_nan (Double.getLnRate (Double.mkArrhenius Double.ln_1e10 0 0)
               Double.ln_T_subnormal (1 / Double.T_subnormal)%float)
     = true
  /\ (Double.getLnRate (Double.mkArrhenius Double.ln_1e10 0 0)
        Double.ln_T_subnormal (1 / Double.T_subnormal)
      =? Double.ln_1e10)%float
     = false.
Proof. repeat split; vm_compute; reflexivity. Qed.








End RateLawProperties.

(** ** Third-body manager *)

Section ThirdbodyProperties.

Import Thirdbody.

Lemma deref_Some (p : list R) (i : nat) (x : R) :
  p !! i = Some x -> deref p i = x.
Proof. intros H. unfold deref. rewrite H. reflexivity. Qed.

Lemma accumulate_fold_left (p : list R) (effs : list (nat * R)) (sum : R) :
  accumulate sum p effs
  = fold_left (fun acc sw => acc + deref p (fst sw) * snd sw) effs sum.
Proof.
  revert sum. induction effs as [|[i w] rest IH]; intros sum; simpl.
  - reflexivity.
  - apply IH.
Qed.

Lemma multiplyEfficiencies_weighted (e : PartialThirdbodyEffs)
    (p_s p_g p_r : list R) :
  multiplyEfficiencies e 0 p_s p_g p_r
  = <[m_rxn e := deref p_r (m_rxn e) * weighted_sum e p_s p_g]> p_r.
Proof.
  unfold multiplyEfficiencies, weighted_sum.
  rewrite !accumulate_fold_left. reflexivity.
Qed.

Lemma multiply_all_scaled (effs : list PartialThirdbodyEffs)
    (p_s p_g p_r : list R) (i : nat) (x : R) :
  p_r !! i = Some x ->
  multiply_all effs 0 p_s p_g p_r !! i = Some (scaled i effs p_s p_g x).
Proof.
  revert p_r x. induction effs as [|e rest IH]; intros p_r x Hx; simpl.
  - exact Hx.
  - rewrite multiplyEfficiencies_weighted.
    destruct (decide (m_rxn e = i)) as [Heq|Hne].
    + apply IH. rewrite Heq, (deref_Some _ _ _ Hx).
      apply list_lookup_insert_eq. apply lookup_lt_Some in Hx. exact Hx.
    + apply IH. rewrite list_lookup_insert_ne by exact Hne. exact Hx.
Qed.

Lemma scaled_unregistered (effs : list PartialThirdbodyEffs)
    (conc gconc : list R) (rxn : nat) (x : R) :
  rxn ∉ map m_rxn effs -> scaled rxn effs conc gconc x = x.
Proof.
  induction effs as [|e rest IH]; intros Hi; simpl.
  - reflexivity.
  - simpl in Hi. apply not_elem_of_cons in Hi as [Hne Hrest].
    destruct (decide (m_rxn e = rxn)); [congruence | apply IH, Hrest].
Qed.

Lemma scaled_app (l1 l2 : list PartialThirdbodyEffs) (conc gconc : list R)
    (rxn : nat) (x : R) :
  scaled rxn (l1 ++ l2) conc gconc x
  = scaled rxn l2 conc gconc (scaled rxn l1 conc gconc x).
Proof.
  revert x. induction l1 as [|e rest IH]; intros x; simpl.
  - reflexivity.
  - apply IH.
Qed.

Lemma scaled_once (l1 l2 : list PartialThirdbodyEffs)
    (e : PartialThirdbodyEffs) (conc gconc : list R) (x : R) :
  m_rxn e ∉ map m_rxn l1 -> m_rxn e ∉ map m_rxn l2 ->
  scaled (m_rxn e) (l1 ++ e :: l2) conc gconc x
  = x * weighted_sum e conc gconc.
Proof.
  intros H1 H2. rewrite scaled_app. simpl.
  rewrite decide_True by reflexivity.
  rewrite (scaled_unregistered l1) by exact H1.
  apply scaled_unregistered, H2.
Qed.

Lemma multiply_all_length (effs : list PartialThirdbodyEffs)
    (p_s p_g p_r : list R) (sum : R) :
  length (multiply_all effs sum p_s p_g p_r) = length p_r.
Proof.
  revert p_r. induction effs as [|e rest IH]; intros p_r; simpl.
  - reflexivity.
  - rewrite IH. unfold multiplyEfficiencies. apply length_insert.
Qed.


Lemma multiply_all_frame (effs : list PartialThirdbodyEffs)
    (p_s p_g p_r : list R) (sum : R) (i : nat) :
  i ∉ map m_rxn effs ->
  multiply_all effs sum p_s p_g p_r !! i = p_r !! i.
Proof.
  revert p_r. induction effs as [|e rest IH]; intros p_r Hi; simpl.
  - reflexivity.
  - simpl in Hi. apply not_elem_of_cons in Hi as [Hne Hrest].
    rewrite IH by exact Hrest. unfold multiplyEfficiencies.
    apply list_lookup_insert_ne. congruence.
Qed.

(** C2: [multiplyThirdbodies] multiplies the rate of progress of every
    registered reaction, in place, by its weighted sum: the sum starts at
    zero and accumulates concentration times weight over the species
    efficiencies and group concentration times weight over the group
    efficiencies (once per registration of the index, in the order of
    registration), the group concentrations being what
    [sumSgroupMembersValues] of the thermodynamics collaborator computes
    from the concentrations.  With concentrations [1.0, 2.0], species
    efficiencies [1.0, 0.5], no group efficiencies and rate of progress 5.0
    the result is 10.0. *)
Theorem multiplyThirdbodies_weighted (tm : ThirdbodyManager)
    (p_s p_r : list R) :
  let groups := sumSgroupMembersValues (m_thermo tm) p_s (p_g tm) in
  let out := multiplyThirdbodies tm p_s p_r in
  arr_g out = groups
  /\ (forall (i : nat) (x : R),
        p_r !! i = Some x ->
        arr_r out !! i = Some (scaled i (mgr_effs tm) p_s groups x))
  /\ (forall (l1 l2 : list PartialThirdbodyEffs) (e : PartialThirdbodyEffs)
             (x : R),
        mgr_effs tm = l1 ++ e :: l2 ->
        m_rxn e ∉ map m_rxn l1 -> m_rxn e ∉ map m_rxn l2 ->
        p_r !! m_rxn e = Some x ->
        arr_r out !! m_rxn e = Some (x * weighted_sum e p_s groups))
  /\ (forall thermo : SgroupThermo,
        arr_r (multiplyThirdbodies
                 (addReaction 0 [(0%nat, 1); (1%nat, 0.5)] []
                    (ThirdbodyManager_ctor 2 false thermo))
                 [1; 2] [5])
        = [10]).
Proof.
  intros groups out. split; [| split; [| split]].
  - reflexivity.
  - intros i x Hx. simpl. apply multiply_all_scaled, Hx.
  - intros l1 l2 e x Heffs H1 H2 Hx. simpl.
    rewrite (multiply_all_scaled _ _ _ _ _ _ Hx), Heffs.
    rewrite scaled_once by assumption. reflexivity.
  - intros thermo. simpl. unfold multiplyEfficiencies; simpl.
    unfold deref; simpl. f_equal. lra.
Qed.

(** With the group of all species at efficiency 2.0: the group
    concentration is 1 + 2 = 3, the weighted sum 1 + 1 + 6 = 8, and the
    rate of progress 5 becomes 40. *)
Lemma multiplyThirdbodies_weighted_witness :
  arr_r (multiplyThirdbodies example_group_manager [1; 2] [5; 7]) !! 0%nat
  = Some 40.
Proof.
  destruct (multiplyThirdbodies_weighted example_group_manager [1; 2] [5; 7])
    as (_ & _ & H & _).
  etransitivity.
  - apply (H [] []
             (mkPartialThirdbodyEffs 0 [(0%nat, 1); (1%nat, 0.5)]
                [(0%nat, 2)]) 5).
    + reflexivity.
    + simpl. apply not_elem_of_nil.
    + simpl. apply not_elem_of_nil.
    + reflexivity.
  - f_equal. unfold weighted_sum, deref; simpl. lra.
Defined.

(** C10: [multiplyThirdbodies] leaves every rate of progress whose index
    was not registered unchanged, keeps the length of the array, and does
    not write the concentrations. *)
Theorem multiplyThirdbodies_frame (tm : ThirdbodyManager)
    (p_s p_r : list R) :
  let out := multiplyThirdbodies tm p_s p_r in
  (forall i : nat, i ∉ registered tm -> arr_r out !! i = p_r !! i)
  /\ length (arr_r out) = length p_r
  /\ arr_s out = p_s.
Proof.
  split; [| split].
  - intros i Hi. simpl. apply multiply_all_frame, Hi.
  - simpl. apply multiply_all_length.
  - reflexivity.
Qed.

Lemma multiplyThirdbodies_frame_witness :
  arr_r (multiplyThirdbodies example_manager [1; 2] [5; 7]) !! 1%nat
  = [5; 7] !! 1%nat.
Proof.
  apply (proj1 (multiplyThirdbodies_frame example_manager [1; 2] [5; 7])).
  simpl. apply not_elem_of_cons. split; [discriminate | apply not_elem_of_nil].
Defined.

End ThirdbodyProperties.

(** ** Rate manager: the group collection *)

Section CollectionProperties.

Lemma all_rates_addRateCoefficient (k : GroupType) (slot : nat)
    (law : RateLaw) (c : RateLawGroupCollection) :
  all_rates (addRateCoefficient k slot law c)
  ≡ₚ all_rates c ++ [(k, (slot, law))].
Proof.
  unfold addRateCoefficient.
  induction c as [|[k' g] c' IH]; simpl.
  - reflexivity.
  - destruct (decide (k = k')) as [->|Hne]; simpl.
    + rewrite map_app; simpl. rewrite <- !app_assoc.
      apply Permutation_app_head. apply Permutation_app_comm.
    + rewrite IH. rewrite app_assoc. reflexivity.
Qed.

Lemma all_reacs_addRateCoefficient (k : GroupType) (slot : nat)
    (law : RateLaw) (c : RateLawGroupCollection) :
  all_reacs (addRateCoefficient k slot law c) = all_reacs c.
Proof.
  unfold addRateCoefficient.
  induction c as [|[k' g] c' IH]; simpl.
  - reflexivity.
  - destruct (decide (k = k')) as [->|Hne]; simpl.
    + reflexivity.
    + rewrite IH. reflexivity.
Qed.

Lemma all_reacs_coll_addReaction (k : GroupType) (rxn : nat)
    (r : Reaction) (c : RateLawGroupCollection) :
  all_reacs (coll_addReaction k rxn r c) ≡ₚ all_reacs c ++ [(k, (rxn, r))].
Proof.
  unfold coll_addReaction.
  induction c as [|[k' g] c' IH]; simpl.
  - reflexivity.
  - destruct (decide (k = k')) as [->|Hne]; simpl.
    + rewrite map_app; simpl. rewrite <- !app_assoc.
      apply Permutation_app_head. apply Permutation_app_comm.
    + rewrite IH. rewrite app_assoc. reflexivity.
Qed.

Lemma all_rates_coll_addReaction (k : GroupType) (rxn : nat)
    (r : Reaction) (c : RateLawGroupCollection) :
  all_rates (coll_addReaction k rxn r c) = all_rates c.
Proof.
  unfold coll_addReaction.
  induction c as [|[k' g] c' IH]; simpl.
  - reflexivity.
  - destruct (decide (k = k')) as [->|Hne]; simpl.
    + reflexivity.
    + rewrite IH. reflexivity.
Qed.

End CollectionProperties.

(** ** Rate manager: classification of the reactions *)

Section ClassificationProperties.

Lemma addRate_spec (rxn : nat) (r : Reaction) (m : RateManager) :
  let m' := addRate (group_type (ForwardGroup (type r)) r)
                    (group_type (ReverseGroup (type r)) r) rxn r m in
  m_ns m' = m_ns m /\ m_nr m' = m_nr m /\ mp_lnkf m' = mp_lnkf m
  /\ all_rates (m_rate_groups m')
     ≡ₚ all_rates (m_rate_groups m) ++ expected_rates (m_nr m) rxn r
  /\ all_reacs (m_rate_groups m')
     ≡ₚ all_reacs (m_rate_groups m) ++ expected_reacs rxn r
  /\ m_to_copy m' = m_to_copy m ++ expected_copy rxn r
  /\ m_irr m' = m_irr m ++ expected_irr rxn r.
Proof.
  unfold addRate, expected_rates, expected_reacs, expected_copy, expected_irr,
    same_selector, group_type.
  destruct (isReversible r); simpl.
  - case_decide as Heq; simpl.
    + assert (Hsel : ForwardGroup (type r) = ReverseGroup (type r))
        by congruence.
      rewrite (bool_decide_eq_true_2 _ Hsel); simpl.
      rewrite ?app_nil_r. repeat split; try reflexivity.
      * rewrite all_rates_coll_addReaction.
        apply all_rates_addRateCoefficient.
      * rewrite all_reacs_coll_addReaction, all_reacs_addRateCoefficient.
        reflexivity.
    + assert (Hsel : ForwardGroup (type r) <> ReverseGroup (type r))
        by congruence.
      rewrite (bool_decide_eq_false_2 _ Hsel); simpl.
      rewrite ?app_nil_r. repeat split; try reflexivity.
      * rewrite all_rates_coll_addReaction, !all_rates_addRateCoefficient.
        rewrite <- app_assoc. reflexivity.
      * rewrite all_reacs_coll_addReaction, !all_reacs_addRateCoefficient.
        reflexivity.
  - rewrite ?app_nil_r. repeat split; try reflexivity.
    apply all_rates_addRateCoefficient.
    rewrite all_reacs_addRateCoefficient. reflexivity.
Qed.

Lemma selectRate_accepted (rxn : nat) (r : Reaction) (m : RateManager) :
  accepted (typeid (rateLaw r)) = true ->
  selectRate rxn r m
  = addRate (group_type (ForwardGroup (type r)) r)
            (group_type (ReverseGroup (type r)) r) rxn r m.
Proof.
  unfold selectRate, group_type.
  destruct (rateLaw r); simpl; intros H; (reflexivity || discriminate).
Qed.

Lemma addReaction_Done (rxn : nat) (r : Reaction) (m m' : RateManager) :
  addReaction rxn r m = Done m' ->
  accepted (typeid (rateLaw r)) = true /\ m' = selectRate rxn r m.
Proof.
  unfold addReaction.
  destruct (rateLaw r) eqn:Hlaw; simpl; intros H; inversion H; subst;
    split; reflexivity.
Qed.

Lemma addReaction_Thrown (rxn : nat) (r : Reaction) (m m' : RateManager)
    (e : InvalidInputError) :
  addReaction rxn r m = Thrown e m' ->
  accepted (typeid (rateLaw r)) = false /\ m' = m.
Proof.
  unfold addReaction.
  destruct (rateLaw r) eqn:Hlaw; simpl; intros H; inversion H; subst;
    split; reflexivity.
Qed.

Lemma addReaction_outcome (rxn : nat) (r : Reaction) (m : RateManager) :
  addReaction rxn r m
  = if accepted (typeid (rateLaw r)) then Done (selectRate rxn r m)
    else Thrown (InvalidRateLaw (typeid (rateLaw r))) m.
Proof. unfold addReaction. destruct (rateLaw r); reflexivity. Qed.

Lemma selectRate_mp_lnkf (rxn : nat) (r : Reaction) (m : RateManager) :
  mp_lnkf (selectRate rxn r m) = mp_lnkf m.
Proof.
  unfold selectRate, addRate.
  destruct (rateLaw r); try reflexivity;
    destruct (isReversible r); try reflexivity;
    match goal with |- context [decide ?P] => destruct (decide P) end;
    reflexivity.
Qed.

Lemma addReactions_Done (rs : list Reaction) (i : nat) (m m' : RateManager) :
  addReactions i rs m = Done m' ->
  m_ns m' = m_ns m /\ m_nr m' = m_nr m /\ mp_lnkf m' = mp_lnkf m
  /\ Forall (fun r => accepted (typeid (rateLaw r)) = true) rs
  /\ all_rates (m_rate_groups m')
     ≡ₚ all_rates (m_rate_groups m)
        ++ from_index (expected_rates (m_nr m)) i rs
  /\ all_reacs (m_rate_groups m')
     ≡ₚ all_reacs (m_rate_groups m) ++ from_index expected_reacs i rs
  /\ m_to_copy m' = m_to_copy m ++ from_index expected_copy i rs
  /\ m_irr m' = m_irr m ++ from_index expected_irr i rs.
Proof.
  revert i m. induction rs as [|r rest IH]; intros i m H; simpl in *.
  - inversion H; subst. rewrite !app_nil_r.
    repeat split; try reflexivity. apply Forall_nil_2.
  - destruct (addReaction i r m) as [m1|e m1] eqn:Hadd; [| discriminate].
    apply addReaction_Done in Hadd as [Hacc ->].
    rewrite (selectRate_accepted _ _ _ Hacc) in H.
    destruct (addRate_spec i r m) as (Hns & Hnr & Hblk & Hr & Hq & Hc & Hi).
    apply IH in H as (Hns' & Hnr' & Hblk' & Hall & Hr' & Hq' & Hc' & Hi').
    rewrite Hnr in Hr'.
    repeat split.
    + congruence.
    + congruence.
    + congruence.
    + constructor; assumption.
    + rewrite Hr', Hr, <- app_assoc. reflexivity.
    + rewrite Hq', Hq, <- app_assoc. reflexivity.
    + rewrite Hc', Hc, <- app_assoc. reflexivity.
    + rewrite Hi', Hi, <- app_assoc. reflexivity.
Qed.

Lemma addReactions_Thrown (rs : list Reaction) (i : nat) (m m' : RateManager)
    (e : InvalidInputError) :
  addReactions i rs m = Thrown e m' ->
  mp_lnkf m' = mp_lnkf m
  /\ Exists (fun r => accepted (typeid (rateLaw r)) = false) rs.
Proof.
  revert i m. induction rs as [|r rest IH]; intros i m H; simpl in *.
  - discriminate.
  - destruct (addReaction i r m) as [m1|e1 m1] eqn:Hadd.
    + apply addReaction_Done in Hadd as [Hacc ->].
      apply IH in H as [Hblk Hex]. split.
      * rewrite Hblk. apply selectRate_mp_lnkf.
      * apply Exists_cons_tl, Hex.
    + inversion H; subst.
      apply addReaction_Thrown in Hadd as [Hacc ->]. split.
      * reflexivity.
      * apply Exists_cons_hd, Hacc.
Qed.

Lemma addReactions_accepted (rs : list Reaction) (i : nat) (m : RateManager) :
  Forall (fun r => accepted (typeid (rateLaw r)) = true) rs ->
  exists m', addReactions i rs m = Done m'.
Proof.
  revert i m. induction rs as [|r rest IH]; intros i m Hall; simpl.
  - eexists; reflexivity.
  - inversion Hall as [|? ? Hr Hrest]; subst.
    rewrite addReaction_outcome, Hr. apply IH, Hrest.
Qed.

Lemma RateManager_ctor_inv (ns : nat) (rs : list Reaction) (m : RateManager) :
  RateManager_ctor ns rs = Done m -> manager_inv ns rs m.
Proof.
  unfold RateManager_ctor. intros H.
  destruct (addReactions 0 rs _) as [m1|e m1] eqn:Hadd; [| discriminate].
  inversion H; subst; clear H.
  apply addReactions_Done in Hadd
    as (Hns & Hnr & Hblk & Hall & Hr & Hq & Hc & Hi).
  simpl in *. constructor; simpl; try assumption.
  eexists; split; [reflexivity |].
  rewrite length_replicate, Hnr. reflexivity.
Qed.

End ClassificationProperties.

(** ** Arrays: sequences of writes *)

Section ArrayProperties.

Lemma write_all_length (ws : list (nat * R)) (p : list R) :
  length (write_all ws p) = length p.
Proof.
  revert p. induction ws as [|[i v] ws IH]; intros p; simpl.
  - reflexivity.
  - rewrite IH. apply length_insert.
Qed.

Lemma write_all_app (ws1 ws2 : list (nat * R)) (p : list R) :
  write_all (ws1 ++ ws2) p = write_all ws2 (write_all ws1 p).
Proof.
  revert p. induction ws1 as [|[i v] ws IH]; intros p; simpl.
  - reflexivity.
  - apply IH.
Qed.

Lemma write_all_frame (ws : list (nat * R)) (p : list R) (i : nat) :
  ~ In i (map fst ws) -> write_all ws p !! i = p !! i.
Proof.
  revert p. induction ws as [|[j v] ws IH]; intros p Hi; simpl in *.
  - reflexivity.
  - rewrite IH by tauto. apply list_lookup_insert_ne. tauto.
Qed.

Lemma write_all_lookup (ws : list (nat * R)) (p : list R) (i : nat) (v : R) :
  List.NoDup (map fst ws) -> In (i, v) ws -> (i < length p)%nat ->
  write_all ws p !! i = Some v.
Proof.
  revert p. induction ws as [|[j w] ws IH]; intros p Hnd Hin Hlen;
    simpl in *.
  - contradiction.
  - inversion Hnd as [|? ? Hnotin Hnd']; subst.
    destruct Hin as [Heq|Hin].
    + inversion Heq; subst. rewrite write_all_frame by exact Hnotin.
      apply list_lookup_insert_eq, Hlen.
    + apply IH; [exact Hnd' | exact Hin |].
      rewrite length_insert. exact Hlen.
Qed.

Lemma logOfRateCoefficients_writes (st : StateModel)
    (c : RateLawGroupCollection) (p : list R) :
  logOfRateCoefficients st c p
  = write_all (map (rate_write st) (all_rates c)) p.
Proof.
  revert p. induction c as [|[k g] c IH]; intros p; simpl.
  - reflexivity.
  - rewrite IH, map_app, write_all_app. unfold group_lnk.
    rewrite map_map. reflexivity.
Qed.

Lemma copy_rates_length (off : nat) (l : list nat) (p : list R) :
  length (copy_rates off l p) = length p.
Proof.
  revert p. induction l as [|x l IH]; intros p; simpl.
  - reflexivity.
  - rewrite IH. apply length_insert.
Qed.

Lemma copy_rates_frame (off : nat) (l : list nat) (p : list R) (s : nat) :
  (forall x, In x l -> s <> (off + x)%nat) ->
  copy_rates off l p !! s = p !! s.
Proof.
  revert p. induction l as [|x l IH]; intros p Hs; simpl.
  - reflexivity.
  - rewrite IH by (intros y Hy; apply Hs; right; exact Hy).
    apply list_lookup_insert_ne. intros Heq. apply (Hs x); [left|]; auto.
Qed.

Lemma copy_rates_lookup (off : nat) (l : list nat) (p : list R) (x : nat) :
  (forall y, In y l -> (y < off)%nat) -> In x l ->
  (off + x < length p)%nat ->
  copy_rates off l p !! (off + x)%nat = Some (deref p x).
Proof.
  revert p. induction l as [|y l IH]; intros p Hlt Hin Hlen; simpl in *.
  - contradiction.
  - assert (Hderef : deref (<[(off + y)%nat := deref p y]> p) x = deref p x).
    { unfold deref. rewrite list_lookup_insert_ne; [reflexivity |].
      assert (x < off)%nat by (destruct Hin as [->|Hin];
                               [apply Hlt; left | apply Hlt; right]; auto).
      lia. }
    destruct (in_dec Nat.eq_dec x l) as [Hxl|Hxl].
    + rewrite IH; [rewrite Hderef; reflexivity | | exact Hxl |].
      * intros z Hz. apply Hlt. right. exact Hz.
      * rewrite length_insert. exact Hlen.
    + destruct Hin as [->|Hin]; [| contradiction].
      rewrite copy_rates_frame.
      * apply list_lookup_insert_eq, Hlen.
      * intros z Hz Heq. assert (x = z) by lia. subst. contradiction.
Qed.

Lemma lnKeq_ext (g g' : nat -> R) (r : Reaction) :
  (forall j, In j (reactants r ++ products r) -> g j = g' j) ->
  lnKeq g r = lnKeq g' r.
Proof.
  intros H. unfold lnKeq. f_equal; f_equal; apply map_ext_in;
    intros j Hj; apply H, in_or_app; [left | right]; exact Hj.
Qed.

Lemma subtract_reacs_length (og or : nat) (reacs : list (nat * Reaction))
    (p : list R) :
  length (subtract_reacs og or reacs p) = length p.
Proof.
  revert p. induction reacs as [|[x r] l IH]; intros p; simpl.
  - reflexivity.
  - rewrite IH. apply length_insert.
Qed.

Lemma subtract_reacs_frame (og or : nat) (reacs : list (nat * Reaction))
    (p : list R) (s : nat) :
  (forall x, In x (map fst reacs) -> s <> (or + x)%nat) ->
  subtract_reacs og or reacs p !! s = p !! s.
Proof.
  revert p. induction reacs as [|[x r] l IH]; intros p Hs; simpl in *.
  - reflexivity.
  - rewrite IH by (intros y Hy; apply Hs; right; exact Hy).
    apply list_lookup_insert_ne. intros Heq. apply (Hs x); [left|]; auto.
Qed.

Lemma subtract_reacs_lookup (og or : nat) (reacs : list (nat * Reaction))
    (p : list R) (x : nat) (r : Reaction) :
  List.NoDup (map fst reacs) ->
  (forall y, In y (map fst reacs) -> (or + y < og)%nat) ->
  In (x, r) reacs -> (or + x < length p)%nat ->
  subtract_reacs og or reacs p !! (or + x)%nat
  = Some (deref p (or + x)%nat - lnKeq (fun j => deref p (og + j)%nat) r).
Proof.
  revert p. induction reacs as [|[y r'] l IH]; intros p Hnd Hlt Hin Hlen;
    simpl in *.
  - contradiction.
  - inversion Hnd as [|? ? Hnotin Hnd']; subst.
    destruct Hin as [Heq|Hin].
    + inversion Heq; subst. rewrite subtract_reacs_frame.
      * apply list_lookup_insert_eq, Hlen.
      * intros z Hz Heq'. assert (x = z) by lia. subst. contradiction.
    + assert (Hxy : x <> y).
      { intros ->. apply Hnotin.
        apply (in_map fst) in Hin. exact Hin. }
      rewrite IH; [| exact Hnd' | | exact Hin |].
      * f_equal. unfold deref at 1.
        rewrite list_lookup_insert_ne by lia. fold (deref p (or + x)%nat).
        f_equal. apply lnKeq_ext. intros j _. unfold deref.
        rewrite list_lookup_insert_ne; [reflexivity |].
        specialize (Hlt y (or_introl eq_refl)). lia.
      * intros z Hz. apply Hlt. right. exact Hz.
      * rewrite length_insert. exact Hlen.
Qed.

End ArrayProperties.

(** ** Rate manager: the correction phase *)

Section CorrectionProperties.

Variable thermo : Thermodynamics.
Variables ns og or : nat.

Lemma gibbs_writes_slots (T : R) (s : nat) :
  In s (map fst (gibbs_writes thermo ns og T)) <-> (og <= s < og + ns)%nat.
Proof.
  unfold gibbs_writes. rewrite map_map; simpl. rewrite in_map_iff. split.
  - intros (j & <- & Hj). apply in_seq in Hj. lia.
  - intros Hs. exists (s - og)%nat. split; [lia |]. apply in_seq. lia.
Qed.

Lemma gibbs_writes_NoDup (T : R) : List.NoDup (map fst (gibbs_writes thermo ns og T)).
Proof.
  unfold gibbs_writes. rewrite map_map; simpl.
  apply Finite.Injective_map_NoDup; [| apply seq_NoDup].
  intros a b Hab. lia.
Qed.

Lemma gibbs_writes_read (T : R) (p : list R) (j : nat) :
  length p = (og + ns)%nat ->
  deref (write_all (gibbs_writes thermo ns og T) p) (og + j)%nat = gibbs_read thermo ns T j.
Proof.
  intros Hlen. unfold deref, gibbs_read. destruct (decide (j < ns)%nat) as [Hj|Hj].
  - rewrite (write_all_lookup _ _ _ (speciesSTGOverRT thermo T j)).
    + reflexivity.
    + apply gibbs_writes_NoDup.
    + unfold gibbs_writes. apply in_map_iff. exists j. split; [reflexivity |].
      apply in_seq. lia.
    + lia.
  - rewrite (proj2 (lookup_ge_None _ _)); [reflexivity |].
    rewrite write_all_length. lia.
Qed.

Lemma group_subtractLnKeq_length (k : GroupType) (g : RateLawGroup)
    (p : list R) :
  length (group_subtractLnKeq thermo ns og or k g p) = length p.
Proof.
  unfold group_subtractLnKeq.
  rewrite subtract_reacs_length, write_all_length. reflexivity.
Qed.

Lemma group_subtractLnKeq_frame (k : GroupType) (g : RateLawGroup)
    (p : list R) (s : nat) :
  (s < og)%nat ->
  (forall x, In x (map fst (m_reacs g)) -> s <> (or + x)%nat) ->
  group_subtractLnKeq thermo ns og or k g p !! s = p !! s.
Proof.
  intros Hs Hne. unfold group_subtractLnKeq.
  rewrite subtract_reacs_frame by exact Hne.
  apply write_all_frame. fold (gibbs_writes thermo ns og (getT (snd k) (state thermo))).
  rewrite gibbs_writes_slots. lia.
Qed.

Lemma group_subtractLnKeq_lookup (k : GroupType) (g : RateLawGroup)
    (p : list R) (x : nat) (r : Reaction) :
  length p = (og + ns)%nat ->
  List.NoDup (map fst (m_reacs g)) ->
  (forall y, In y (map fst (m_reacs g)) -> (or + y < og)%nat) ->
  In (x, r) (m_reacs g) ->
  group_subtractLnKeq thermo ns og or k g p !! (or + x)%nat
  = Some (deref p (or + x)%nat
          - lnKeq (gibbs_read thermo ns (getT (snd k) (state thermo))) r).
Proof.
  intros Hlen Hnd Hlt Hin. unfold group_subtractLnKeq.
  fold (gibbs_writes thermo ns og (getT (snd k) (state thermo))).
  assert (Hx : (or + x < og)%nat).
  { apply Hlt. apply (in_map fst) in Hin. exact Hin. }
  rewrite (subtract_reacs_lookup _ _ _ _ x r); try assumption.
  - f_equal. f_equal.
    + unfold deref. rewrite write_all_frame; [reflexivity |].
      rewrite gibbs_writes_slots. lia.
    + apply lnKeq_ext. intros j _. apply gibbs_writes_read, Hlen.
  - rewrite write_all_length. lia.
Qed.

Lemma subtractLnKeq_length (c : RateLawGroupCollection) (p : list R) :
  length (subtractLnKeq thermo ns og or c p) = length p.
Proof.
  revert p. induction c as [|[k g] c IH]; intros p; simpl.
  - reflexivity.
  - rewrite IH. apply group_subtractLnKeq_length.
Qed.

Lemma subtractLnKeq_frame (c : RateLawGroupCollection) (p : list R)
    (s : nat) :
  (s < og)%nat ->
  (forall x, In x (map (fun e => fst (snd e)) (all_reacs c)) ->
             s <> (or + x)%nat) ->
  subtractLnKeq thermo ns og or c p !! s = p !! s.
Proof.
  revert p. induction c as [|[k g] c IH]; intros p Hs Hne; simpl in *.
  - reflexivity.
  - rewrite map_app, map_map in Hne; simpl in Hne.
    rewrite IH; [| exact Hs |].
    + apply group_subtractLnKeq_frame; [exact Hs |].
      intros x Hx. apply Hne, in_or_app. left. exact Hx.
    + intros x Hx. apply Hne, in_or_app. right. exact Hx.
Qed.

Lemma subtractLnKeq_lookup (c : RateLawGroupCollection) (p : list R)
    (k : GroupType) (x : nat) (r : Reaction) :
  length p = (og + ns)%nat ->
  List.NoDup (map (fun e => fst (snd e)) (all_reacs c)) ->
  (forall y, In y (map (fun e => fst (snd e)) (all_reacs c)) ->
             (or + y < og)%nat) ->
  In (k, (x, r)) (all_reacs c) ->
  subtractLnKeq thermo ns og or c p !! (or + x)%nat
  = Some (deref p (or + x)%nat
          - lnKeq (gibbs_read thermo ns (getT (snd k) (state thermo))) r).
Proof.
  revert p. induction c as [|[k' g] c IH]; intros p Hlen Hnd Hlt Hin;
    simpl in *.
  - contradiction.
  - rewrite map_app, map_map in Hnd, Hlt; simpl in Hnd, Hlt.
    apply NoDup_ListNoDup, NoDup_app in Hnd as (Hnd1 & Hdisj & Hnd2).
    apply in_app_or in Hin as [Hin|Hin].
    + apply in_map_iff in Hin as ([x' r'] & Heq & Hin).
      inversion Heq; subst; clear Heq.
      assert (Hx : (or + x < og)%nat).
      { apply Hlt, in_or_app. left. apply (in_map fst) in Hin. exact Hin. }
      rewrite subtractLnKeq_frame; [| exact Hx |].
      * apply group_subtractLnKeq_lookup; try assumption.
        -- apply NoDup_ListNoDup, Hnd1.
        -- intros y Hy. apply Hlt, in_or_app. left. exact Hy.
      * intros y Hy Heq. assert (x = y) by lia. subst y.
        apply (Hdisj x); apply list_elem_of_In; [| exact Hy].
        apply (in_map fst) in Hin. exact Hin.
    + assert (Hx : (or + x < og)%nat).
      { apply Hlt, in_or_app. right.
        apply (in_map (fun e => fst (snd e))) in Hin. exact Hin. }
      rewrite (IH _ ); try assumption.
      * f_equal. f_equal. unfold deref.
        rewrite group_subtractLnKeq_frame; [reflexivity | exact Hx |].
        intros y Hy Heq. assert (x = y) by lia. subst y.
        apply (Hdisj x); apply list_elem_of_In; [exact Hy |].
        apply (in_map (fun e => fst (snd e))) in Hin. exact Hin.
      * rewrite group_subtractLnKeq_length. exact Hlen.
      * apply NoDup_ListNoDup, Hnd2.
      * intros y Hy. apply Hlt, in_or_app. right. exact Hy.
Qed.

End CorrectionProperties.

(** ** Rate manager: what the classification leaves in the groups *)

Section ExpectedProperties.

Lemma in_from_index {A : Type} (f : nat -> Reaction -> list A) (i : nat)
    (rs : list Reaction) (x : A) :
  In x (from_index f i rs)
  <-> exists j r, rs !! j = Some r /\ In x (f (i + j)%nat r).
Proof.
  revert i. induction rs as [|r rest IH]; intros i; simpl.
  - split; [contradiction | intros (j & r & H & _); discriminate].
  - rewrite in_app_iff, IH. split.
    + intros [Hx | (j & r' & Hj & Hx)].
      * exists 0%nat, r. rewrite Nat.add_0_r. split; [reflexivity | exact Hx].
      * exists (S j), r'. rewrite Nat.add_succ_r. split; assumption.
    + intros (j & r' & Hj & Hx). destruct j as [|j]; simpl in Hj.
      * inversion Hj; subst. rewrite Nat.add_0_r in Hx. left. exact Hx.
      * right. exists j, r'. rewrite Nat.add_succ_r in Hx. split; assumption.
Qed.

Lemma rates_slot_range (nr i : nat) (rs : list Reaction) (s : nat) :
  In s (map (fun x => fst (snd x)) (from_index (expected_rates nr) i rs)) ->
  (i <= s < i + length rs)%nat \/ (i + nr <= s < i + length rs + nr)%nat.
Proof.
  rewrite in_map_iff. intros (x & <- & Hx).
  apply in_from_index in Hx as (j & r & Hj & Hx).
  apply lookup_lt_Some in Hj. unfold expected_rates in Hx.
  destruct Hx as [<-|Hx]; simpl; [lia |].
  destruct (isReversible r && negb (same_selector r)); simpl in Hx.
  - destruct Hx as [<-|[]]; simpl. lia.
  - contradiction.
Qed.

Lemma rates_slots_NoDup (nr i : nat) (rs : list Reaction) :
  (i + length rs <= nr)%nat ->
  List.NoDup
    (map (fun x => fst (snd x)) (from_index (expected_rates nr) i rs)).
Proof.
  revert i. induction rs as [|r rest IH]; intros i Hlen; simpl in *.
  - constructor.
  - assert (Hrest : forall s,
      In s (map (fun x => fst (snd x))
              (from_index (expected_rates nr) (S i) rest)) ->
      s <> i /\ s <> (i + nr)%nat).
    { intros s Hs. apply rates_slot_range in Hs. lia. }
    constructor.
    + rewrite map_app, in_app_iff. intros [Hin|Hin].
      * destruct (isReversible r && negb (same_selector r)); simpl in Hin.
        -- destruct Hin as [Heq|[]]. lia.
        -- contradiction.
      * apply Hrest in Hin. lia.
    + rewrite map_app.
      destruct (isReversible r && negb (same_selector r)); simpl.
      * constructor; [| apply IH; lia].
        intros Hin. apply Hrest in Hin. lia.
      * apply IH. lia.
Qed.

Lemma reacs_slot_range (i : nat) (rs : list Reaction) (s : nat) :
  In s (map (fun x => fst (snd x)) (from_index expected_reacs i rs)) ->
  (i <= s < i + length rs)%nat.
Proof.
  rewrite in_map_iff. intros (x & <- & Hx).
  apply in_from_index in Hx as (j & r & Hj & Hx).
  apply lookup_lt_Some in Hj. unfold expected_reacs in Hx.
  destruct (isReversible r); simpl in Hx; [| contradiction].
  destruct Hx as [<-|[]]; simpl. lia.
Qed.

Lemma reacs_slots_NoDup (i : nat) (rs : list Reaction) :
  List.NoDup (map (fun x => fst (snd x)) (from_index expected_reacs i rs)).
Proof.
  revert i. induction rs as [|r rest IH]; intros i; simpl.
  - constructor.
  - rewrite map_app. unfold expected_reacs at 1.
    destruct (isReversible r); simpl; [| apply IH].
    constructor; [| apply IH].
    intros Hin. apply reacs_slot_range in Hin. lia.
Qed.

Lemma copy_range (i : nat) (rs : list Reaction) (x : nat) :
  In x (from_index expected_copy i rs) -> (i <= x < i + length rs)%nat.
Proof.
  intros Hx. apply in_from_index in Hx as (j & r & Hj & Hx).
  apply lookup_lt_Some in Hj. unfold expected_copy in Hx.
  destruct (isReversible r && same_selector r); simpl in Hx; [| contradiction].
  destruct Hx as [<-|[]]. lia.
Qed.

Lemma in_expected_copy (rs : list Reaction) (i : nat) (r : Reaction) :
  rs !! i = Some r ->
  In i (from_index expected_copy 0 rs)
  <-> isReversible r = true /\ same_selector r = true.
Proof.
  intros Hi. rewrite in_from_index. split.
  - intros (j & r' & Hj & Hx). simpl in Hx. unfold expected_copy in Hx.
    destruct (isReversible r') eqn:Hrev, (same_selector r') eqn:Hsame;
      simpl in Hx; try contradiction.
    destruct Hx as [<-|[]]. rewrite Hi in Hj. inversion Hj; subst.
    split; assumption.
  - intros [Hrev Hsame]. exists i, r. split; [exact Hi |].
    unfold expected_copy. rewrite Hrev, Hsame. left. reflexivity.
Qed.

Lemma in_expected_forward (rs : list Reaction) (i : nat) (r : Reaction) :
  rs !! i = Some r ->
  In (group_type (ForwardGroup (type r)) r, (i, rateLaw r))
     (from_index (expected_rates (length rs)) 0 rs).
Proof.
  intros Hi. apply in_from_index. exists i, r. split; [exact Hi |].
  left. reflexivity.
Qed.

Lemma in_expected_reverse (rs : list Reaction) (i : nat) (r : Reaction) :
  rs !! i = Some r -> isReversible r = true -> same_selector r = false ->
  In (group_type (ReverseGroup (type r)) r,
      ((length rs + i)%nat, rateLaw r))
     (from_index (expected_rates (length rs)) 0 rs).
Proof.
  intros Hi Hrev Hsame. apply in_from_index. exists i, r.
  split; [exact Hi |]. right. rewrite Hrev, Hsame. simpl. left.
  rewrite (Nat.add_comm (length rs) i). reflexivity.
Qed.

Lemma reverse_slot_in (rs : list Reaction) (i : nat) (r : Reaction) :
  rs !! i = Some r ->
  In (length rs + i)%nat
     (map (fun x => fst (snd x))
        (from_index (expected_rates (length rs)) 0 rs)) ->
  isReversible r = true /\ same_selector r = false.
Proof.
  intros Hi. rewrite in_map_iff. intros (x & Hslot & Hx).
  apply in_from_index in Hx as (j & r' & Hj & Hx).
  pose proof (lookup_lt_Some _ _ _ Hj) as Hlt. simpl in Hx.
  unfold expected_rates in Hx. destruct Hx as [<-|Hx]; simpl in Hslot.
  - lia.
  - destruct (isReversible r') eqn:Hrev, (same_selector r') eqn:Hsame;
      simpl in Hx; try contradiction.
    destruct Hx as [<-|[]]. simpl in Hslot.
    assert (j = i) by lia. subst j. rewrite Hi in Hj. inversion Hj; subst.
    split; assumption.
Qed.

Lemma in_expected_reacs (rs : list Reaction) (i : nat) (r : Reaction) :
  rs !! i = Some r -> isReversible r = true ->
  In (group_type (ReverseGroup (type r)) r, (i, r))
     (from_index expected_reacs 0 rs).
Proof.
  intros Hi Hrev. apply in_from_index. exists i, r. split; [exact Hi |].
  unfold expected_reacs. rewrite Hrev. left. reflexivity.
Qed.

Lemma reacs_slot_in (rs : list Reaction) (i : nat) (r : Reaction) :
  rs !! i = Some r ->
  In i (map (fun x => fst (snd x)) (from_index expected_reacs 0 rs)) ->
  isReversible r = true.
Proof.
  intros Hi. rewrite in_map_iff. intros (x & Hslot & Hx).
  apply in_from_index in Hx as (j & r' & Hj & Hx). simpl in Hx.
  unfold expected_reacs in Hx.
  destruct (isReversible r') eqn:Hrev; simpl in Hx; [| contradiction].
  destruct Hx as [<-|[]]. simpl in Hslot. subst j.
  rewrite Hi in Hj. inversion Hj; subst. exact Hrev.
Qed.

End ExpectedProperties.

(** ** Rate manager: the three phases of [update] *)

Section PhaseProperties.

Variable ns : nat.
Variable rs : list Reaction.
Variable m : RateManager.
Variable thermo : Thermodynamics.
Variable block : list R.

Hypothesis Hinv : manager_inv ns rs m.
Hypothesis Hlen : length block = (2 * length rs + ns)%nat.

Lemma manager_slots_NoDup :
  List.NoDup (map fst (map (rate_write (state thermo))
                         (all_rates (m_rate_groups m)))).
Proof using All.
  rewrite map_map. simpl.
  eapply Permutation_NoDup.
  - symmetry. apply Permutation_map. apply (inv_rates _ _ _ Hinv).
  - apply rates_slots_NoDup. lia.
Qed.

Lemma manager_slot_in (s : nat) :
  In s (map fst (map (rate_write (state thermo))
                   (all_rates (m_rate_groups m))))
  <-> In s (map (fun x => fst (snd x))
              (from_index (expected_rates (length rs)) 0 rs)).
Proof using All.
  rewrite map_map. simpl.
  pose proof (Permutation_map (fun x : GroupType * (nat * RateLaw) =>
                                 fst (snd x))
                (inv_rates _ _ _ Hinv)) as Hp.
  split; intros H.
  - eapply Permutation_in; [exact Hp | exact H].
  - eapply Permutation_in; [symmetry; exact Hp | exact H].
Qed.

Lemma manager_rate_in (x : GroupType * (nat * RateLaw)) :
  In x (from_index (expected_rates (length rs)) 0 rs) ->
  In (rate_write (state thermo) x)
     (map (rate_write (state thermo)) (all_rates (m_rate_groups m))).
Proof using All.
  intros H. apply in_map.
  eapply Permutation_in; [symmetry; apply (inv_rates _ _ _ Hinv) | exact H].
Qed.

Lemma evaluate_phase_length :
  length (evaluate_phase thermo m block) = length block.
Proof using All.
  unfold evaluate_phase. rewrite logOfRateCoefficients_writes.
  apply write_all_length.
Qed.

Lemma evaluate_phase_forward (i : nat) (r : Reaction) :
  rs !! i = Some r ->
  evaluate_phase thermo m block !! i
  = Some (lnRate1T (rateLaw r) (getT (ForwardGroup (type r)) (state thermo))).
Proof using All.
  intros Hi. pose proof (lookup_lt_Some _ _ _ Hi) as Hlt.
  unfold evaluate_phase. rewrite logOfRateCoefficients_writes.
  apply write_all_lookup.
  - apply manager_slots_NoDup.
  - apply (manager_rate_in (group_type (ForwardGroup (type r)) r,
                            (i, rateLaw r))).
    apply in_expected_forward, Hi.
  - lia.
Qed.

Lemma evaluate_phase_reverse (i : nat) (r : Reaction) :
  rs !! i = Some r -> isReversible r = true -> same_selector r = false ->
  evaluate_phase thermo m block !! (length rs + i)%nat
  = Some (lnRate1T (rateLaw r) (getT (ReverseGroup (type r)) (state thermo))).
Proof using All.
  intros Hi Hrev Hsame. pose proof (lookup_lt_Some _ _ _ Hi) as Hlt.
  unfold evaluate_phase. rewrite logOfRateCoefficients_writes.
  apply write_all_lookup.
  - apply manager_slots_NoDup.
  - apply (manager_rate_in (group_type (ReverseGroup (type r)) r,
                            ((length rs + i)%nat, rateLaw r))).
    apply in_expected_reverse; assumption.
  - lia.
Qed.

Lemma evaluate_phase_reverse_frame (i : nat) (r : Reaction) :
  rs !! i = Some r ->
  ~ (isReversible r = true /\ same_selector r = false) ->
  evaluate_phase thermo m block !! (length rs + i)%nat
  = block !! (length rs + i)%nat.
Proof using All.
  intros Hi Hno. unfold evaluate_phase.
  rewrite logOfRateCoefficients_writes. apply write_all_frame.
  rewrite manager_slot_in. intros Hin. apply Hno.
  apply (reverse_slot_in rs i r Hi Hin).
Qed.

Lemma copy_phase_length :
  length (copy_phase thermo m block) = length block.
Proof using All.
  unfold copy_phase. rewrite copy_rates_length. apply evaluate_phase_length.
Qed.

Lemma copy_phase_forward (i : nat) :
  (i < length rs)%nat ->
  copy_phase thermo m block !! i = evaluate_phase thermo m block !! i.
Proof using All.
  intros Hi. unfold copy_phase, mp_lnkb. apply copy_rates_frame.
  intros x _. rewrite (inv_nr _ _ _ Hinv). lia.
Qed.

Lemma copy_phase_same (i : nat) (r : Reaction) :
  rs !! i = Some r -> isReversible r = true -> same_selector r = true ->
  copy_phase thermo m block !! (length rs + i)%nat
  = Some (deref (evaluate_phase thermo m block) i).
Proof using All.
  intros Hi Hrev Hsame. pose proof (lookup_lt_Some _ _ _ Hi) as Hlt.
  unfold copy_phase, mp_lnkb. rewrite (inv_nr _ _ _ Hinv).
  apply copy_rates_lookup.
  - intros y Hy. rewrite (inv_copy _ _ _ Hinv) in Hy.
    apply copy_range in Hy. lia.
  - rewrite (inv_copy _ _ _ Hinv). apply (in_expected_copy rs i r Hi).
    split; assumption.
  - rewrite evaluate_phase_length. lia.
Qed.

Lemma copy_phase_other (i : nat) (r : Reaction) :
  rs !! i = Some r ->
  ~ (isReversible r = true /\ same_selector r = true) ->
  copy_phase thermo m block !! (length rs + i)%nat
  = evaluate_phase thermo m block !! (length rs + i)%nat.
Proof using All.
  intros Hi Hno. unfold copy_phase, mp_lnkb. rewrite (inv_nr _ _ _ Hinv).
  apply copy_rates_frame. intros x Hx Heq.
  assert (x = i) by lia. subst x. apply Hno.
  rewrite (inv_copy _ _ _ Hinv) in Hx.
  apply (in_expected_copy rs i r Hi). exact Hx.
Qed.

Lemma manager_reacs_NoDup :
  List.NoDup (map (fun e => fst (snd e)) (all_reacs (m_rate_groups m))).
Proof using All.
  eapply Permutation_NoDup.
  - symmetry. apply Permutation_map. apply (inv_reacs _ _ _ Hinv).
  - apply reacs_slots_NoDup.
Qed.

Lemma manager_reacs_slot (x : nat) :
  In x (map (fun e => fst (snd e)) (all_reacs (m_rate_groups m)))
  <-> In x (map (fun e => fst (snd e)) (from_index expected_reacs 0 rs)).
Proof using All.
  pose proof (Permutation_map (fun e : GroupType * (nat * Reaction) =>
                                 fst (snd e))
                (inv_reacs _ _ _ Hinv)) as Hp.
  split; intros H.
  - eapply Permutation_in; [exact Hp | exact H].
  - eapply Permutation_in; [symmetry; exact Hp | exact H].
Qed.

Lemma correct_phase_length :
  length (correct_phase thermo m block) = length block.
Proof using All.
  unfold correct_phase. rewrite subtractLnKeq_length.
  apply copy_phase_length.
Qed.

Lemma correct_phase_forward (i : nat) :
  (i < length rs)%nat ->
  correct_phase thermo m block !! i = copy_phase thermo m block !! i.
Proof using All.
  intros Hi. unfold correct_phase, mp_gibbs, mp_lnkb.
  rewrite (inv_nr _ _ _ Hinv). apply subtractLnKeq_frame; lia.
Qed.

Lemma correct_phase_reversible (i : nat) (r : Reaction) :
  rs !! i = Some r -> isReversible r = true ->
  correct_phase thermo m block !! (length rs + i)%nat
  = Some (deref (copy_phase thermo m block) (length rs + i)%nat
          - lnKeq (gibbs_read thermo ns
                     (getT (ReverseGroup (type r)) (state thermo))) r).
Proof using All.
  intros Hi Hrev. unfold correct_phase, mp_gibbs, mp_lnkb.
  rewrite (inv_nr _ _ _ Hinv), (inv_ns _ _ _ Hinv).
  apply (subtractLnKeq_lookup thermo ns _ _ _ _
           (group_type (ReverseGroup (type r)) r) i r).
  - rewrite copy_phase_length. lia.
  - apply manager_reacs_NoDup.
  - intros y Hy. apply manager_reacs_slot, reacs_slot_range in Hy. lia.
  - eapply Permutation_in; [symmetry; apply (inv_reacs _ _ _ Hinv) |].
    apply in_expected_reacs; assumption.
Qed.

Lemma correct_phase_irreversible (i : nat) (r : Reaction) :
  rs !! i = Some r -> isReversible r = false ->
  correct_phase thermo m block !! (length rs + i)%nat
  = copy_phase thermo m block !! (length rs + i)%nat.
Proof using All.
  intros Hi Hrev. pose proof (lookup_lt_Some _ _ _ Hi) as Hlt.
  unfold correct_phase, mp_gibbs, mp_lnkb.
  rewrite (inv_nr _ _ _ Hinv). apply subtractLnKeq_frame; [lia |].
  intros x Hx Heq. assert (x = i) by lia. subst x.
  apply manager_reacs_slot in Hx.
  rewrite (reacs_slot_in rs i r Hi Hx) in Hrev. discriminate.
Qed.

End PhaseProperties.

(** ** Rate manager: the block after [update] *)

Section UpdateProperties.

Lemma same_selector_true (r : Reaction) :
  same_selector r = true <-> ForwardGroup (type r) = ReverseGroup (type r).
Proof. unfold same_selector. apply bool_decide_eq_true. Qed.

Lemma copy_phase_values (ns : nat) (rs : list Reaction) (m : RateManager)
    (thermo : Thermodynamics) (block : list R) (i : nat) (r : Reaction) :
  manager_inv ns rs m -> length block = (2 * length rs + ns)%nat ->
  rs !! i = Some r ->
  copy_phase thermo m block !! i
  = Some (lnRate1T (rateLaw r) (getT (ForwardGroup (type r)) (state thermo)))
  /\ copy_phase thermo m block !! (length rs + i)%nat
     = if isReversible r
       then Some (lnRate1T (rateLaw r)
                    (getT (ReverseGroup (type r)) (state thermo)))
       else block !! (length rs + i)%nat.
Proof.
  intros Hinv Hlen Hi. pose proof (lookup_lt_Some _ _ _ Hi) as Hlt.
  pose proof (evaluate_phase_forward ns rs m thermo block Hinv Hlen i r Hi)
    as Hfwd.
  split.
  - rewrite (copy_phase_forward ns rs m thermo block Hinv Hlen i Hlt).
    exact Hfwd.
  - destruct (isReversible r) eqn:Hrev.
    + destruct (same_selector r) eqn:Hsame.
      * rewrite (copy_phase_same ns rs m thermo block Hinv Hlen i r Hi Hrev
                   Hsame).
        unfold deref. rewrite Hfwd.
        apply same_selector_true in Hsame. rewrite Hsame. reflexivity.
      * rewrite (copy_phase_other ns rs m thermo block Hinv Hlen i r Hi)
          by (intros [_ H]; congruence).
        apply (evaluate_phase_reverse ns rs m thermo block Hinv Hlen i r Hi
                 Hrev Hsame).
    + rewrite (copy_phase_other ns rs m thermo block Hinv Hlen i r Hi)
        by (intros [H _]; congruence).
      apply (evaluate_phase_reverse_frame ns rs m thermo block Hinv Hlen i r Hi).
      intros [H _]; congruence.
Qed.

Lemma correct_phase_values (ns : nat) (rs : list Reaction) (m : RateManager)
    (thermo : Thermodynamics) (block : list R) (i : nat) (r : Reaction) :
  manager_inv ns rs m -> length block = (2 * length rs + ns)%nat ->
  rs !! i = Some r ->
  correct_phase thermo m block !! i
  = Some (lnRate1T (rateLaw r) (getT (ForwardGroup (type r)) (state thermo)))
  /\ correct_phase thermo m block !! (length rs + i)%nat
     = if isReversible r
       then Some (lnRate1T (rateLaw r)
                    (getT (ReverseGroup (type r)) (state thermo))
                  - lnKeq (gibbs_read thermo ns
                             (getT (ReverseGroup (type r)) (state thermo))) r)
       else block !! (length rs + i)%nat.
Proof.
  intros Hinv Hlen Hi. pose proof (lookup_lt_Some _ _ _ Hi) as Hlt.
  destruct (copy_phase_values ns rs m thermo block i r Hinv Hlen Hi)
    as [Hf Hb].
  split.
  - rewrite (correct_phase_forward ns rs m thermo block Hinv Hlen i Hlt).
    exact Hf.
  - destruct (isReversible r) eqn:Hrev.
    + rewrite (correct_phase_reversible ns rs m thermo block Hinv Hlen i r
                 Hi Hrev).
      unfold deref. rewrite Hb. reflexivity.
    + rewrite (correct_phase_irreversible ns rs m thermo block Hinv Hlen i r
                 Hi Hrev).
      exact Hb.
Qed.

Lemma update_inv (ns : nat) (rs : list Reaction) (m : RateManager)
    (thermo : Thermodynamics) :
  manager_inv ns rs m -> manager_inv ns rs (update thermo m).
Proof.
  intros Hinv. destruct (inv_block _ _ _ Hinv) as (block & Hblk & Hlen).
  unfold update. rewrite Hblk.
  destruct Hinv as [Hns Hnr Hacc Hr Hq Hc Hi _].
  constructor; simpl; try assumption.
  eexists; split; [reflexivity |].
  rewrite (correct_phase_length ns rs m thermo block); [exact Hlen | | exact Hlen].
  constructor; try assumption. eexists; split; eassumption.
Qed.

Lemma constructed_inv (ns : nat) (rs : list Reaction) (m : RateManager) :
  constructed ns rs m -> manager_inv ns rs m.
Proof.
  induction 1 as [m Hctor | thermo m _ IH].
  - apply RateManager_ctor_inv, Hctor.
  - apply update_inv, IH.
Qed.

Lemma lnkf_lookup (m : RateManager) (block : list R) (i : nat) :
  mp_lnkf m = Some block -> (i < m_nr m)%nat -> lnkf m !! i = block !! i.
Proof.
  intros Hblk Hi. unfold lnkf. rewrite Hblk. apply lookup_take_lt, Hi.
Qed.

Lemma lnkb_lookup (m : RateManager) (block : list R) (i : nat) :
  mp_lnkf m = Some block -> (i < m_nr m)%nat ->
  lnkb m !! i = block !! (m_nr m + i)%nat.
Proof.
  intros Hblk Hi. unfold lnkb, mp_lnkb. rewrite Hblk.
  rewrite lookup_take_lt by exact Hi. apply lookup_drop.
Qed.

Lemma lnkf_length (ns : nat) (rs : list Reaction) (m : RateManager) :
  manager_inv ns rs m -> length (lnkf m) = length rs.
Proof.
  intros Hinv. destruct (inv_block _ _ _ Hinv) as (block & Hblk & Hlen).
  unfold lnkf. rewrite Hblk, length_take, (inv_nr _ _ _ Hinv). lia.
Qed.

Lemma lnkb_length (ns : nat) (rs : list Reaction) (m : RateManager) :
  manager_inv ns rs m -> length (lnkb m) = length rs.
Proof.
  intros Hinv. destruct (inv_block _ _ _ Hinv) as (block & Hblk & Hlen).
  unfold lnkb, mp_lnkb.
  rewrite Hblk, length_take, length_drop, (inv_nr _ _ _ Hinv). lia.
Qed.

End UpdateProperties.

(** ** Rate manager: the claims *)

Section RateManagerClaims.

Lemma lnKeq_gibbs_read (thermo : Thermodynamics) (ns : nat) (T : R)
    (r : Reaction) :
  (forall j, In j (reactants r ++ products r) -> (j < ns)%nat) ->
  lnKeq (gibbs_read thermo ns T) r = lnKeq (speciesSTGOverRT thermo T) r.
Proof.
  intros Hsp. apply lnKeq_ext. intros j Hj. unfold gibbs_read.
  rewrite decide_True by (apply Hsp, Hj). reflexivity.
Qed.

(** C1: for every reversible reaction, after [update] the ln(kb) entry of
    the reaction is the value the evaluate and copy phases left there (the
    rate law's log rate at the reverse selector's temperature) minus
    ln(Keq), combined from the species Gibbs energies over RT at that
    temperature per the reaction's stoichiometry; the subtraction is applied
    to the block as the evaluate and copy phases left it for all
    reactions. *)
Theorem update_reversible_lnkb (ns : nat) (rs : list Reaction)
    (m : RateManager) (thermo : Thermodynamics) (i : nat) (r : Reaction)
    (Hm : constructed ns rs m) (Hi : rs !! i = Some r)
    (Hrev : isReversible r = true)
    (Hsp : forall j, In j (reactants r ++ products r) -> (j < ns)%nat) :
  let Tb := getT (ReverseGroup (type r)) (state thermo) in
  exists block,
    mp_lnkf m = Some block
    /\ mp_lnkf (update thermo m)
       = Some (subtractLnKeq thermo (m_ns m) (mp_gibbs m) (mp_lnkb m)
                 (m_rate_groups m)
                 (copy_rates (mp_lnkb m) (m_to_copy m)
                    (logOfRateCoefficients (state thermo) (m_rate_groups m)
                       block)))
    /\ copy_phase thermo m block !! (mp_lnkb m + i)%nat
       = Some (lnRate1T (rateLaw r) Tb)
    /\ lnkb (update thermo m) !! i
       = Some (deref (copy_phase thermo m block) (mp_lnkb m + i)%nat
               - lnKeq (speciesSTGOverRT thermo Tb) r)
    /\ lnkb (update thermo m) !! i
       = Some (lnRate1T (rateLaw r) Tb - lnKeq (speciesSTGOverRT thermo Tb) r).
Proof.
  intros Tb. pose proof (constructed_inv _ _ _ Hm) as Hinv.
  destruct (inv_block _ _ _ Hinv) as (block & Hblk & Hlen).
  pose proof (lookup_lt_Some _ _ _ Hi) as Hlt.
  pose proof (inv_nr _ _ _ Hinv) as Hnr.
  destruct (copy_phase_values ns rs m thermo block i r Hinv Hlen Hi)
    as [_ Hcopy].
  destruct (correct_phase_values ns rs m thermo block i r Hinv Hlen Hi)
    as [_ Hcorr].
  rewrite Hrev in Hcopy, Hcorr.
  rewrite (lnKeq_gibbs_read _ _ _ _ Hsp) in Hcorr.
  assert (Hupd : mp_lnkf (update thermo m)
                 = Some (correct_phase thermo m block)).
  { unfold update. rewrite Hblk. reflexivity. }
  assert (Hlnkb : lnkb (update thermo m) !! i
                  = Some (lnRate1T (rateLaw r) Tb
                          - lnKeq (speciesSTGOverRT thermo Tb) r)).
  { rewrite (lnkb_lookup _ _ _ Hupd).
    - replace (m_nr (update thermo m)) with (length rs).
      + exact Hcorr.
      + unfold update. rewrite Hblk. simpl. congruence.
    - unfold update. rewrite Hblk. simpl. lia. }
  exists block. unfold mp_lnkb at 3 4. rewrite Hnr.
  repeat split.
  - exact Hblk.
  - exact Hupd.
  - exact Hcopy.
  - rewrite Hlnkb. unfold deref. rewrite Hcopy. reflexivity.
  - exact Hlnkb.
Qed.

Lemma update_reversible_lnkb_witness :
  lnkb (update example_thermo
          (manager_of (RateManager_ctor 2 [exchange_reversible]))) !! 0%nat
  = Some (3 - (0 - 1)).
Proof.
  assert (Hm : constructed 2 [exchange_reversible]
                 (manager_of (RateManager_ctor 2 [exchange_reversible])))
    by (apply constructed_ctor; reflexivity).
  assert (Hsp : forall j,
             In j (reactants exchange_reversible
                   ++ products exchange_reversible) -> (j < 2)%nat)
    by (simpl; intros j [<-|[<-|[]]]; lia).
  destruct (update_reversible_lnkb 2 [exchange_reversible] _ example_thermo
              0 exchange_reversible Hm eq_refl eq_refl Hsp)
    as (block & _ & _ & _ & _ & H).
  rewrite H. f_equal. unfold lnKeq; simpl. ring.
Defined.

(** C3: for every reaction whose forward selector equals its reverse
    selector (a reversible reaction: only these have a reverse selector
    and a ln(kb)), right after the copy phase the ln(kb) entry equals the
    ln(kf) entry of the same reaction, before the equilibrium correction,
    and the copied value is the one that evaluating the rate law once more
    at the reverse selector's temperature would give. *)
Theorem copy_phase_same_selector (ns : nat) (rs : list Reaction)
    (m : RateManager) (thermo : Thermodynamics) (block : list R)
    (i : nat) (r : Reaction)
    (Hm : constructed ns rs m) (Hblk : mp_lnkf m = Some block)
    (Hi : rs !! i = Some r) (Hrev : isReversible r = true)
    (Hsame : ForwardGroup (type r) = ReverseGroup (type r)) :
  let after_copy := copy_phase thermo m block in
  take (m_nr m) (drop (mp_lnkb m) after_copy) !! i
  = take (m_nr m) after_copy !! i
  /\ after_copy !! (mp_lnkb m + i)%nat = Some (deref after_copy i)
  /\ take (m_nr m) (drop (mp_lnkb m) after_copy) !! i
     = Some (reevaluate_reverse thermo r).
Proof.
  intros after_copy. unfold reevaluate_reverse. pose proof (constructed_inv _ _ _ Hm) as Hinv.
  destruct (inv_block _ _ _ Hinv) as (block' & Hblk' & Hlen).
  rewrite Hblk in Hblk'. inversion Hblk'; subst block'; clear Hblk'.
  pose proof (lookup_lt_Some _ _ _ Hi) as Hlt.
  pose proof (inv_nr _ _ _ Hinv) as Hnr.
  destruct (copy_phase_values ns rs m thermo block i r Hinv Hlen Hi)
    as [Hf Hb].
  rewrite Hrev in Hb. unfold mp_lnkb. rewrite Hnr.
  rewrite !lookup_take_lt by exact Hlt. rewrite lookup_drop.
  fold after_copy in Hf, Hb. rewrite Hb, Hf, Hsame.
  unfold deref. rewrite Hf, Hsame. repeat split; reflexivity.
Qed.

Lemma copy_phase_same_selector_witness :
  copy_phase example_thermo
    (manager_of (RateManager_ctor 2 [exchange_reversible])) [0; 0; 0; 0]
  !! 1%nat
  = Some (deref
            (copy_phase example_thermo
               (manager_of (RateManager_ctor 2 [exchange_reversible]))
               [0; 0; 0; 0]) 0).
Proof.
  assert (Hm : constructed 2 [exchange_reversible]
                 (manager_of (RateManager_ctor 2 [exchange_reversible])))
    by (apply constructed_ctor; reflexivity).
  destruct (copy_phase_same_selector 2 [exchange_reversible] _ example_thermo
              [0; 0; 0; 0] 0 exchange_reversible Hm eq_refl eq_refl eq_refl
              eq_refl) as (_ & H & _).
  exact H.
Defined.

Lemma copy_NoDup (i : nat) (rs : list Reaction) :
  List.NoDup (from_index expected_copy i rs).
Proof.
  revert i. induction rs as [|r rest IH]; intros i; simpl.
  - constructor.
  - unfold expected_copy at 1.
    destruct (isReversible r && same_selector r); simpl; [| apply IH].
    constructor; [| apply IH].
    intros Hin. apply copy_range in Hin. lia.
Qed.

Lemma irr_NoDup (i : nat) (rs : list Reaction) :
  List.NoDup (from_index expected_irr i rs).
Proof.
  revert i. induction rs as [|r rest IH]; intros i; simpl.
  - constructor.
  - unfold expected_irr at 1. destruct (isReversible r); simpl; [apply IH |].
    constructor; [| apply IH].
    intros Hin. apply in_from_index in Hin as (j & r' & Hj & Hx).
    unfold expected_irr in Hx. destruct (isReversible r'); simpl in Hx.
    + contradiction.
    + destruct Hx as [Heq|[]]. lia.
Qed.

Lemma in_expected_irr (rs : list Reaction) (i : nat) (r : Reaction) :
  rs !! i = Some r ->
  In i (from_index expected_irr 0 rs) <-> isReversible r = false.
Proof.
  intros Hi. rewrite in_from_index. split.
  - intros (j & r' & Hj & Hx). simpl in Hx. unfold expected_irr in Hx.
    destruct (isReversible r') eqn:Hrev; simpl in Hx; [contradiction |].
    destruct Hx as [<-|[]]. rewrite Hi in Hj. inversion Hj; subst.
    exact Hrev.
  - intros Hrev. exists i, r. split; [exact Hi |].
    unfold expected_irr. rewrite Hrev. left. reflexivity.
Qed.

Lemma count_occ_NoDup_In (l : list nat) (x : nat) :
  List.NoDup l -> In x l -> count_occ Nat.eq_dec l x = 1%nat.
Proof. intros Hnd. apply NoDup_count_occ'. exact Hnd. Qed.

Lemma count_occ_notin (l : list nat) (x : nat) :
  ~ In x l -> count_occ Nat.eq_dec l x = 0%nat.
Proof. apply count_occ_not_In. Qed.

Lemma In_map_NoDup_eq {A B : Type} (f : A -> B) (l : list A) (x y : A) :
  List.NoDup (map f l) -> In x l -> In y l -> f x = f y -> x = y.
Proof.
  induction l as [|a l IH]; simpl; intros Hnd Hx Hy Hf; [contradiction |].
  inversion Hnd as [|? ? Hnotin Hnd']; subst.
  destruct Hx as [->|Hx], Hy as [->|Hy].
  - reflexivity.
  - exfalso. apply Hnotin. rewrite Hf. apply in_map, Hy.
  - exfalso. apply Hnotin. rewrite <- Hf. apply in_map, Hx.
  - apply IH; assumption.
Qed.

(** C4: after construction over reactions 0..N-1, every reaction holds
    exactly one forward slot, the slot of its own index, and it lies in the
    group of its rate law kind and forward selector and in no other group;
    every reversible reaction holds exactly one of a reverse slot at
    index + N, which lies in the group of its rate law kind and reverse
    selector and in no other group, or an entry of the copy list (the copy
    list exactly when its two selectors coincide), never both and never
    neither; an irreversible reaction holds neither. *)
Theorem classification_partition (ns : nat) (rs : list Reaction)
    (m : RateManager) (i : nat) (r : Reaction)
    (Hctor : RateManager_ctor ns rs = Done m) (Hi : rs !! i = Some r) :
  count_occ Nat.eq_dec (rate_slots m) i = 1%nat
  /\ In (group_type (ForwardGroup (type r)) r, (i, rateLaw r))
        (all_rates (m_rate_groups m))
  /\ (forall g law,
        In (g, (i, law)) (all_rates (m_rate_groups m)) ->
        g = group_type (ForwardGroup (type r)) r /\ law = rateLaw r)
  /\ (isReversible r = true ->
      (count_occ Nat.eq_dec (rate_slots m) (i + length rs)
       + count_occ Nat.eq_dec (m_to_copy m) i = 1)%nat
      /\ (count_occ Nat.eq_dec (m_to_copy m) i = 1%nat
          <-> ForwardGroup (type r) = ReverseGroup (type r))
      /\ (count_occ Nat.eq_dec (rate_slots m) (i + length rs)%nat = 1%nat
          <-> ForwardGroup (type r) <> ReverseGroup (type r))
      /\ (ForwardGroup (type r) <> ReverseGroup (type r) ->
          In (group_type (ReverseGroup (type r)) r,
              ((i + length rs)%nat, rateLaw r))
             (all_rates (m_rate_groups m))
          /\ forall g law,
               In (g, ((i + length rs)%nat, law))
                  (all_rates (m_rate_groups m)) ->
               g = group_type (ReverseGroup (type r)) r /\ law = rateLaw r)
      /\ In (group_type (ReverseGroup (type r)) r, (i, r))
            (all_reacs (m_rate_groups m))
      /\ count_occ Nat.eq_dec (m_irr m) i = 0%nat)
  /\ (isReversible r = false ->
      count_occ Nat.eq_dec (rate_slots m) (i + length rs)%nat = 0%nat
      /\ (forall g law,
            ~ In (g, ((i + length rs)%nat, law))
                 (all_rates (m_rate_groups m)))
      /\ count_occ Nat.eq_dec (m_to_copy m) i = 0%nat
      /\ count_occ Nat.eq_dec (m_irr m) i = 1%nat).
Proof.
  pose proof (RateManager_ctor_inv _ _ _ Hctor) as Hinv.
  pose proof (lookup_lt_Some _ _ _ Hi) as Hlt.
  pose proof (Permutation_map (fun x : GroupType * (nat * RateLaw) =>
                                 fst (snd x))
                (inv_rates _ _ _ Hinv)) as Hp.
  assert (Hnd : List.NoDup (rate_slots m)).
  { eapply Permutation_NoDup; [symmetry; exact Hp |].
    apply rates_slots_NoDup. lia. }
  assert (Hin : forall s, In s (rate_slots m)
                <-> In s (map (fun x => fst (snd x))
                            (from_index (expected_rates (length rs)) 0 rs))).
  { intros s. split; intros H.
    - eapply Permutation_in; [exact Hp | exact H].
    - eapply Permutation_in; [symmetry; exact Hp | exact H]. }
  assert (Hfwd : In (group_type (ForwardGroup (type r)) r, (i, rateLaw r))
                    (all_rates (m_rate_groups m))).
  { eapply Permutation_in; [symmetry; apply (inv_rates _ _ _ Hinv) |].
    apply in_expected_forward, Hi. }
  assert (Hrevslot : In (i + length rs)%nat (rate_slots m)
                     <-> isReversible r = true /\ same_selector r = false).
  { rewrite Hin, (Nat.add_comm i). split.
    - apply reverse_slot_in, Hi.
    - intros [Hrev Hsame].
      apply (in_map (fun x => fst (snd x))
               _ _ (in_expected_reverse rs i r Hi Hrev Hsame)). }
  assert (Hrevin : isReversible r = true -> same_selector r = false ->
                   In (group_type (ReverseGroup (type r)) r,
                       ((i + length rs)%nat, rateLaw r))
                      (all_rates (m_rate_groups m))).
  { intros Hrev Hsame.
    eapply Permutation_in; [symmetry; apply (inv_rates _ _ _ Hinv) |].
    rewrite (Nat.add_comm i). apply in_expected_reverse; assumption. }
  assert (Hunique : forall x y,
             In x (all_rates (m_rate_groups m)) ->
             In y (all_rates (m_rate_groups m)) ->
             fst (snd x) = fst (snd y) -> x = y).
  { intros x y.
    apply (In_map_NoDup_eq (fun z : GroupType * (nat * RateLaw) =>
                              fst (snd z))).
    exact Hnd. }
  assert (Hnotsame : same_selector r = false
                     <-> ForwardGroup (type r) <> ReverseGroup (type r)).
  { destruct (same_selector r) eqn:Hsame; split; try discriminate.
    - intros Hne. exfalso. apply Hne, same_selector_true, Hsame.
    - intros _ Heq. apply same_selector_true in Heq. congruence.
    - reflexivity. }
  pose proof (in_expected_copy rs i r Hi) as Hcopy.
  pose proof (in_expected_irr rs i r Hi) as Hirr.
  rewrite <- (inv_copy _ _ _ Hinv) in Hcopy.
  rewrite <- (inv_irr _ _ _ Hinv) in Hirr.
  assert (Hndc : List.NoDup (m_to_copy m))
    by (rewrite (inv_copy _ _ _ Hinv); apply copy_NoDup).
  assert (Hndi : List.NoDup (m_irr m))
    by (rewrite (inv_irr _ _ _ Hinv); apply irr_NoDup).
  split; [| split; [exact Hfwd | split; [| split]]].
  - apply count_occ_NoDup_In; [exact Hnd |].
    apply (in_map (fun x => fst (snd x)) _ _ Hfwd).
  - intros g law Hg.
    pose proof (Hunique _ _ Hg Hfwd eq_refl) as Heq.
    inversion Heq; subst. split; reflexivity.
  - intros Hrev.
    assert (Hnirr : count_occ Nat.eq_dec (m_irr m) i = 0%nat).
    { apply count_occ_notin. rewrite Hirr. congruence. }
    assert (Hreac : In (group_type (ReverseGroup (type r)) r, (i, r))
                       (all_reacs (m_rate_groups m))).
    { eapply Permutation_in; [symmetry; apply (inv_reacs _ _ _ Hinv) |].
      apply in_expected_reacs; assumption. }
    assert (Hgroup : ForwardGroup (type r) <> ReverseGroup (type r) ->
              In (group_type (ReverseGroup (type r)) r,
                  ((i + length rs)%nat, rateLaw r))
                 (all_rates (m_rate_groups m))
              /\ forall g law,
                   In (g, ((i + length rs)%nat, law))
                      (all_rates (m_rate_groups m)) ->
                   g = group_type (ReverseGroup (type r)) r
                   /\ law = rateLaw r).
    { intros Hne. apply Hnotsame in Hne.
      pose proof (Hrevin Hrev Hne) as Hr. split; [exact Hr |].
      intros g law Hg. pose proof (Hunique _ _ Hg Hr eq_refl) as Heq.
      inversion Heq; subst. split; reflexivity. }
    destruct (same_selector r) eqn:Hsame.
    + assert (Hc : count_occ Nat.eq_dec (m_to_copy m) i = 1%nat).
      { apply count_occ_NoDup_In; [exact Hndc |]. apply Hcopy. auto. }
      assert (Hs : count_occ Nat.eq_dec (rate_slots m) (i + length rs)%nat
                   = 0%nat).
      { apply count_occ_notin. rewrite Hrevslot. intros [_ H]. discriminate. }
      rewrite Hs, Hc.
      split; [reflexivity | split; [| split; [| split; [| split]]]];
        try assumption.
      * split; [intros _; apply same_selector_true, Hsame | reflexivity].
      * split; [discriminate |].
        intros Hne. apply Hnotsame in Hne. discriminate.
    + assert (Hc : count_occ Nat.eq_dec (m_to_copy m) i = 0%nat).
      { apply count_occ_notin. rewrite Hcopy. intros [_ H]. discriminate. }
      assert (Hs : count_occ Nat.eq_dec (rate_slots m) (i + length rs)%nat
                   = 1%nat).
      { apply count_occ_NoDup_In; [exact Hnd |]. apply Hrevslot. auto. }
      rewrite Hs, Hc.
      split; [reflexivity | split; [| split; [| split; [| split]]]];
        try assumption.
      * split; [discriminate |].
        intros H. apply same_selector_true in H. congruence.
      * split; [intros _; apply Hnotsame; reflexivity | reflexivity].
  - intros Hrev.
    assert (Hno : ~ In (i + length rs)%nat (rate_slots m)).
    { rewrite Hrevslot. intros [H _]. congruence. }
    split; [| split; [| split]].
    + apply count_occ_notin, Hno.
    + intros g law Hg. apply Hno.
      apply (in_map (fun x => fst (snd x)) _ _ Hg).
    + apply count_occ_notin. rewrite Hcopy. intros [H _]. congruence.
    + apply count_occ_NoDup_In; [exact Hndi |]. apply Hirr, Hrev.
Qed.

(** The reversible dissociation at index 0 of two reactions (Park forward,
    T reverse): its reverse slot 0 + 2 lies in the group of constant rate
    laws evaluated at T. *)
Lemma classification_partition_witness :
  count_occ Nat.eq_dec
    (rate_slots (manager_of (RateManager_ctor 2
                               [dissociation_reversible;
                                exchange_reversible])))
    0%nat
  = 1%nat
  /\ In ((KConstRate, TSelector),
         (2%nat, rateLaw dissociation_reversible))
        (all_rates
           (m_rate_groups
              (manager_of (RateManager_ctor 2
                             [dissociation_reversible;
                              exchange_reversible])))).
Proof.
  destruct (classification_partition 2
              [dissociation_reversible; exchange_reversible]
              _ 0 dissociation_reversible eq_refl eq_refl)
    as (Hcount & _ & _ & Hrev & _).
  split; [exact Hcount |].
  destruct (Hrev eq_refl) as (_ & _ & _ & Hgroup & _).
  apply Hgroup. discriminate.
Defined.

Lemma accepted_false (k : RateLawKind) :
  accepted k = false
  <-> k <> KArrhenius /\ k <> KConstRate /\ k <> KRationalExp.
Proof.
  destruct k; simpl; split; try discriminate; try tauto;
    intros; repeat split; discriminate.
Qed.

(** C5: construction throws exactly when some reaction's rate law has a
    run-time kind other than Arrhenius, constRate and rationalExp; when it
    throws, the block for ln(kf), ln(kb) and the Gibbs energies has not
    been allocated, and when it completes the block is allocated with
    2 N + ns zeros. *)
Theorem RateManager_ctor_throws_iff (ns : nat) (rs : list Reaction) :
  ((exists e m, RateManager_ctor ns rs = Thrown e m)
   <-> exists r, In r rs
                 /\ typeid (rateLaw r) <> KArrhenius
                 /\ typeid (rateLaw r) <> KConstRate
                 /\ typeid (rateLaw r) <> KRationalExp)
  /\ (forall e m, RateManager_ctor ns rs = Thrown e m ->
                  mp_lnkf m = None /\ lnkf m = [] /\ lnkb m = [])
  /\ (forall m, RateManager_ctor ns rs = Done m ->
                mp_lnkf m = Some (replicate (2 * length rs + ns) 0)).
Proof.
  unfold RateManager_ctor.
  destruct (addReactions 0 rs (mkRateManager ns (length rs) [] [] [] None))
    as [m1|e1 m1] eqn:Hadd.
  - apply addReactions_Done in Hadd
      as (_ & Hnr & _ & Hall & _). simpl in Hnr.
    split; [split | split].
    + intros (e & m & H). discriminate.
    + intros (r & Hin & Hk). apply accepted_false in Hk.
      rewrite Forall_forall in Hall.
      specialize (Hall r (proj2 (list_elem_of_In _ _) Hin)). congruence.
    + intros e m H. discriminate.
    + intros m H. inversion H; subst; simpl. rewrite Hnr. reflexivity.
  - apply addReactions_Thrown in Hadd as [Hblk Hex]. simpl in Hblk.
    split; [split | split].
    + intros _. apply List.Exists_exists in Hex as (r & Hin & Hk).
      exists r. split; [exact Hin | apply accepted_false, Hk].
    + intros _. eauto.
    + intros e m H. inversion H; subst.
      unfold lnkf, lnkb. rewrite Hblk. auto.
    + intros m H. discriminate.
Qed.

Lemma RateManager_ctor_throws_iff_witness :
  exists e m, RateManager_ctor 2 [exchange_reversible; expRat33_reaction]
              = Thrown e m.
Proof.
  apply (proj1 (RateManager_ctor_throws_iff 2
                  [exchange_reversible; expRat33_reaction])).
  exists expRat33_reaction. simpl.
  repeat split; [right; left; reflexivity | discriminate ..].
Defined.

(** C9: two successive [update] calls on a constructed manager with the
    same thermodynamic state leave the same ln(kf) and ln(kb) arrays. *)
Theorem update_deterministic (ns : nat) (rs : list Reaction)
    (m : RateManager) (thermo : Thermodynamics)
    (Hm : constructed ns rs m) :
  lnkf (update thermo (update thermo m)) = lnkf (update thermo m)
  /\ lnkb (update thermo (update thermo m)) = lnkb (update thermo m).
Proof.
  pose proof (constructed_inv _ _ _ Hm) as Hinv.
  pose proof (update_inv _ _ _ thermo Hinv) as Hinv1.
  pose proof (update_inv _ _ _ thermo Hinv1) as Hinv2.
  destruct (inv_block _ _ _ Hinv) as (block & Hblk & Hlen).
  destruct (inv_block _ _ _ Hinv1) as (block1 & Hblk1 & Hlen1).
  destruct (inv_block _ _ _ Hinv2) as (block2 & Hblk2 & Hlen2).
  assert (Hb2 : block2 = correct_phase thermo (update thermo m) block1).
  { unfold update at 1 in Hblk2. rewrite Hblk1 in Hblk2. simpl in Hblk2.
    congruence. }
  pose proof (inv_nr _ _ _ Hinv1) as Hnr1.
  pose proof (inv_nr _ _ _ Hinv2) as Hnr2.
  assert (Hb1 : block1 = correct_phase thermo m block).
  { unfold update in Hblk1. rewrite Hblk in Hblk1. simpl in Hblk1.
    congruence. }
  split; apply list_eq; intros i.
  - destruct (decide (i < length rs)%nat) as [Hi|Hi].
    + rewrite (lnkf_lookup _ _ _ Hblk2), (lnkf_lookup _ _ _ Hblk1) by lia.
      destruct (lookup_lt_is_Some_2 rs i Hi) as [r Hr].
      rewrite Hb2.
      rewrite (proj1 (correct_phase_values ns rs _ thermo _ i r Hinv1 Hlen1
                        Hr)).
      rewrite Hb1.
      rewrite (proj1 (correct_phase_values ns rs _ thermo _ i r Hinv Hlen
                        Hr)).
      reflexivity.
    + rewrite !(proj2 (lookup_ge_None _ _)); [reflexivity | |].
      * rewrite (lnkf_length _ _ _ Hinv1). lia.
      * rewrite (lnkf_length _ _ _ Hinv2). lia.
  - destruct (decide (i < length rs)%nat) as [Hi|Hi].
    + rewrite (lnkb_lookup _ _ _ Hblk2), (lnkb_lookup _ _ _ Hblk1) by lia.
      destruct (lookup_lt_is_Some_2 rs i Hi) as [r Hr].
      rewrite Hnr1, Hnr2. rewrite Hb2.
      rewrite (proj2 (correct_phase_values ns rs _ thermo _ i r Hinv1 Hlen1
                        Hr)).
      destruct (isReversible r) eqn:Hrev; [| reflexivity].
      rewrite Hb1.
      rewrite (proj2 (correct_phase_values ns rs _ thermo _ i r Hinv Hlen
                        Hr)).
      rewrite Hrev. reflexivity.
    + rewrite !(proj2 (lookup_ge_None _ _)); [reflexivity | |].
      * rewrite (lnkb_length _ _ _ Hinv1). lia.
      * rewrite (lnkb_length _ _ _ Hinv2). lia.
Qed.

Lemma update_deterministic_witness :
  lnkb (update example_thermo
          (update example_thermo
             (manager_of (RateManager_ctor 2
                            [dissociation_reversible; exchange_irreversible]))))
  = lnkb (update example_thermo
            (manager_of (RateManager_ctor 2
                           [dissociation_reversible; exchange_irreversible]))).
Proof.
  apply (update_deterministic 2
           [dissociation_reversible; exchange_irreversible]).
  apply constructed_ctor. reflexivity.
Defined.

End RateManagerClaims.

(** * Further properties of the code *)

(** ** Rate laws: derivatives *)

Section RateLawDerivatives.

Lemma derivable_pt_lim_value (f : R -> R) (x l l' : R) :
  l = l' -> derivable_pt_lim f x l -> derivable_pt_lim f x l'.
Proof. intros ->. exact (fun H => H). Qed.

Lemma derivable_pt_lim_inv_id (T : R) :
  T <> 0 -> derivable_pt_lim (fun y => 1 / y) T (- / (T * T)).
Proof.
  intros HT.
  apply (derivable_pt_lim_ext (fct_cte 1 / id)%F); [reflexivity |].
  eapply derivable_pt_lim_value;
    [| apply derivable_pt_lim_div;
       [apply derivable_pt_lim_const | apply derivable_pt_lim_id | exact HT]].
  unfold fct_cte, id, Rsqr. field. exact HT.
Qed.

Lemma derivable_pt_lim_arrhenius_exponent (lnA n Ta T : R) :
  0 < T ->
  derivable_pt_lim (fun y => lnA + n * ln y - Ta * (1 / y)) T
    (n * / T + Ta * / (T * T)).
Proof.
  intros HT.
  apply (derivable_pt_lim_ext
           (fct_cte lnA + mult_real_fct n ln
            - mult_real_fct Ta (fun y => (1 / y)%R))%F); [reflexivity |].
  eapply derivable_pt_lim_value;
    [| apply derivable_pt_lim_minus;
       [apply derivable_pt_lim_plus;
        [apply derivable_pt_lim_const
        | apply derivable_pt_lim_scal, derivable_pt_lim_ln, HT]
       | apply derivable_pt_lim_scal, derivable_pt_lim_inv_id; lra]].
  field. lra.
Qed.

(** X1: for T > 0, [Arrhenius::derivative], called with the rate
    coefficient k(T) and 1/T, is the derivative with respect to T of the
    rate coefficient k(T) = exp(ln A + n ln T - Ta/T). *)
Theorem Arrhenius_derivative_correct (a : Arrhenius) (T : R) (HT : 0 < T) :
  derivable_pt_lim (Arrhenius_rate a) T
    (Arrhenius_derivative a (Arrhenius_rate a T) (ln T) (1 / T)).
Proof.
  apply (derivable_pt_lim_ext
           (comp exp (fun y => arr_lnA a + arr_n a * ln y
                               - arr_temp a * (1 / y)))); [reflexivity |].
  eapply derivable_pt_lim_value;
    [| apply derivable_pt_lim_comp;
       [apply derivable_pt_lim_arrhenius_exponent, HT
       | apply derivable_pt_lim_exp]].
  unfold Arrhenius_derivative, Arrhenius_rate, Arrhenius_getLnRate.
  field. lra.
Qed.

Lemma Arrhenius_derivative_correct_witness :
  derivable_pt_lim (Arrhenius_rate (mkArrhenius 0 1 0)) 2
    (Arrhenius_derivative (mkArrhenius 0 1 0)
       (Arrhenius_rate (mkArrhenius 0 1 0) 2) (ln 2) (1 / 2)).
Proof. apply Arrhenius_derivative_correct. lra. Defined.

Lemma derivable_pt_lim_rationalExp_P (r : rationalExp) (T : R) :
  derivable_pt_lim (rationalExp_P r) T (re_a1 r + re_a2 r * 2 * T).
Proof.
  apply (derivable_pt_lim_ext
           (fct_cte (re_a0 r) + mult_real_fct (re_a1 r) id
            + mult_real_fct (re_a2 r) (id * id))%F); [reflexivity |].
  eapply derivable_pt_lim_value;
    [| apply derivable_pt_lim_plus;
       [apply derivable_pt_lim_plus;
        [apply derivable_pt_lim_const
        | apply derivable_pt_lim_scal, derivable_pt_lim_id]
       | apply derivable_pt_lim_scal, derivable_pt_lim_mult;
         apply derivable_pt_lim_id]].
  unfold id. ring.
Qed.

Lemma derivable_pt_lim_rationalExp_Q (r : rationalExp) (T : R) :
  derivable_pt_lim (rationalExp_Q r) T
    (re_b1 r + re_b2 r * 2 * T + re_b3 r * 3 * (T * T)).
Proof.
  apply (derivable_pt_lim_ext
           (fct_cte (re_b0 r) + mult_real_fct (re_b1 r) id
            + mult_real_fct (re_b2 r) (id * id)
            + mult_real_fct (re_b3 r) (id * id * id))%F).
  { intros z. unfold rationalExp_Q, plus_fct, mult_real_fct, mult_fct,
      fct_cte, id. ring. }
  eapply derivable_pt_lim_value;
    [| apply derivable_pt_lim_plus;
       [apply derivable_pt_lim_plus;
        [apply derivable_pt_lim_plus;
         [apply derivable_pt_lim_const
         | apply derivable_pt_lim_scal, derivable_pt_lim_id]
        | apply derivable_pt_lim_scal, derivable_pt_lim_mult;
          apply derivable_pt_lim_id]
       | apply derivable_pt_lim_scal, derivable_pt_lim_mult;
         [apply derivable_pt_lim_mult; apply derivable_pt_lim_id
         | apply derivable_pt_lim_id]]].
  unfold mult_fct, id. ring.
Qed.

(** X2: where the rational factor P(T)/Q(T) is positive (T > 0),
    [rationalExp::derivative], called with the rate coefficient k(T), 1/T,
    T and T^2, is the derivative with respect to T of
    k(T) = T^n exp(-Ta/T) P(T)/Q(T). *)
Theorem rationalExp_derivative_correct (r : rationalExp) (T : R)
    (HT : 0 < T) (HQ : rationalExp_Q r T <> 0)
    (HPQ : 0 < rationalExp_P r T / rationalExp_Q r T) :
  derivable_pt_lim (rationalExp_rate r) T
    (rationalExp_derivative r (rationalExp_rate r T) (1 / T) T (T * T)).
Proof.
  assert (HP : rationalExp_P r T <> 0).
  { intros H0. rewrite H0 in HPQ. unfold Rdiv in HPQ.
    rewrite Rmult_0_l in HPQ. lra. }
  apply (derivable_pt_lim_ext
           (comp exp
              ((fun y => (0 + re_n r * ln y - re_temp r * (1 / y))%R)
               + comp ln (rationalExp_P r / rationalExp_Q r))%F)).
  { intros z. unfold rationalExp_rate, rationalExp_getLnRate, comp, plus_fct,
      div_fct, rationalExp_P, rationalExp_Q. f_equal. ring. }
  eapply derivable_pt_lim_value;
    [| apply derivable_pt_lim_comp;
       [apply derivable_pt_lim_plus;
        [apply derivable_pt_lim_arrhenius_exponent, HT
        | apply derivable_pt_lim_comp;
          [apply derivable_pt_lim_div;
           [apply derivable_pt_lim_rationalExp_P
           | apply derivable_pt_lim_rationalExp_Q
           | exact HQ]
          | apply derivable_pt_lim_ln; exact HPQ]]
       | apply derivable_pt_lim_exp]].
  unfold rationalExp_derivative, rationalExp_rate, rationalExp_getLnRate,
    plus_fct, comp, div_fct, Rsqr.
  fold (rationalExp_P r T). fold (rationalExp_Q r T).
  replace (0 + re_n r * ln T - re_temp r * (1 / T)
           + ln (rationalExp_P r T / rationalExp_Q r T))
    with (re_n r * ln T - re_temp r * (1 / T)
          + ln (rationalExp_P r T / rationalExp_Q r T)) by ring.
  field. repeat split; try assumption. lra.
Qed.

Lemma rationalExp_derivative_correct_witness :
  derivable_pt_lim (rationalExp_rate (mkRationalExp 0 0 1 0 0 1 0 0 0)) 1
    (rationalExp_derivative (mkRationalExp 0 0 1 0 0 1 0 0 0)
       (rationalExp_rate (mkRationalExp 0 0 1 0 0 1 0 0 0) 1)
       (1 / 1) 1 (1 * 1)).
Proof.
  apply rationalExp_derivative_correct;
    unfold rationalExp_P, rationalExp_Q; simpl; lra.
Defined.

End RateLawDerivatives.

(** ** Particle parameters of a single electronic level *)

Section ParticleRRHOProperties.

Import RRHO.

(** X26: the particle built for electronic level [level] exists exactly
    when the level is one of the particle's levels; it has that level as
    its only electronic level, at energy zero with the level's degeneracy,
    its formation enthalpy is raised by RU times the level's energy, and
    building the particle of its level 0 gives the same particle again. *)
Theorem ParticleRRHO_level_spec (RU : R) (rrho : ParticleRRHO) (level : nat) :
  (ParticleRRHO_level RU rrho level = None
   <-> (nElectronicLevels rrho <= level)%nat)
  /\ (forall p deg E,
        ParticleRRHO_level RU rrho level = Some p ->
        electronicEnergy rrho level = Some (deg, E) ->
        nElectronicLevels p = 1%nat
        /\ electronicEnergy p 0 = Some (deg, 0)
        /\ m_hform p = m_hform rrho + RU * E
        /\ m_vibrational_energies p = m_vibrational_energies rrho
        /\ m_rotational_t p = m_rotational_t rrho
        /\ m_steric p = m_steric rrho
        /\ m_linearity p = m_linearity rrho
        /\ ParticleRRHO_level RU p 0 = Some p).
Proof.
  unfold ParticleRRHO_level, electronicEnergy, nElectronicLevels. split.
  - destruct (m_electronic_energies rrho !! level) as [e|] eqn:He.
    + split; [discriminate |]. intros Hge.
      apply lookup_lt_Some in He. lia.
    + split; [| reflexivity]. intros _. apply lookup_ge_None, He.
  - intros p deg E Hp He. rewrite He in Hp. inversion Hp; subst; simpl.
    repeat split; try reflexivity.
    f_equal. f_equal. ring.
Qed.

Lemma ParticleRRHO_level_spec_witness :
  ParticleRRHO_level 8
    (mkParticleRRHO 10 1 2 3 [(1%Z, 0); (3%Z, 5)] [7]) 1
  <> None.
Proof.
  intros H.
  apply (proj1 (ParticleRRHO_level_spec 8
                  (mkParticleRRHO 10 1 2 3 [(1%Z, 0); (3%Z, 5)] [7]) 1)) in H.
  unfold nElectronicLevels in H. simpl in H. lia.
Defined.

End ParticleRRHOProperties.

(** ** Spontaneous emission source term *)

Section OmegaSEfProperties.

Import OmegaSEf.

Lemma sum_source_ext (m_rId : list nat) (delta1 rate1 delta2 rate2 : list R)
    (src : R) :
  (forall j, In j m_rId ->
             deref delta1 j = deref delta2 j /\ deref rate1 j = deref rate2 j) ->
  sum_source m_rId delta1 rate1 src = sum_source m_rId delta2 rate2 src.
Proof.
  revert src. induction m_rId as [|j rest IH]; intros src H; simpl.
  - reflexivity.
  - destruct (H j (or_introl eq_refl)) as [Hd Hr]. rewrite Hd, Hr.
    apply IH. intros k Hk. apply H. right. exact Hk.
Qed.

Lemma collect_rId_spec (rs : list Reaction) (i : nat) (acc : list nat)
    (j : nat) :
  In j (collect_rId i rs acc)
  <-> In j acc
      \/ exists k r, rs !! k = Some r /\ j = (i + k)%nat
                     /\ type r = BND_BND_EMISSION.
Proof.
  revert i acc. induction rs as [|r rest IH]; intros i acc; simpl.
  - split; [auto | intros [H | (k & r & Hk & _)]; [exact H | discriminate]].
  - destruct (is_BND_BND_EMISSION (type r)) eqn:Ht; rewrite IH.
    + rewrite in_app_iff. simpl. split.
      * intros [[H | [<- | []]] | (k & r' & Hk & -> & Hr)].
        -- left. exact H.
        -- right. exists 0%nat, r. rewrite Nat.add_0_r.
           repeat split. destruct (type r); (discriminate || reflexivity).
        -- right. exists (S k), r'. rewrite Nat.add_succ_r.
           repeat split; assumption.
      * intros [H | (k & r' & Hk & -> & Hr)].
        -- left. left. exact H.
        -- destruct k as [|k]; simpl in Hk.
           ++ left. right. left. lia.
           ++ right. exists k, r'. rewrite Nat.add_succ_r.
              repeat split; assumption.
    + split.
      * intros [H | (k & r' & Hk & -> & Hr)].
        -- left. exact H.
        -- right. exists (S k), r'. rewrite Nat.add_succ_r.
           repeat split; assumption.
      * intros [H | (k & r' & Hk & -> & Hr)].
        -- left. exact H.
        -- destruct k as [|k]; simpl in Hk.
           ++ inversion Hk; subst. rewrite Hr in Ht. discriminate.
           ++ right. exists k, r'. rewrite Nat.add_succ_r.
              repeat split; assumption.
Qed.

Lemma collect_rId_single (rs : list Reaction) (i j : nat)
    (acc : list nat) :
  (j < length rs)%nat ->
  (forall k r, rs !! k = Some r -> (type r = BND_BND_EMISSION <-> k = j)) ->
  collect_rId i rs acc = acc ++ [(i + j)%nat].
Proof.
  revert i j acc. induction rs as [|r rest IH]; intros i j acc Hj Hone;
    simpl in *; [lia |].
  destruct j as [|j].
  - assert (Hr : type r = BND_BND_EMISSION)
      by (apply (Hone 0%nat r); reflexivity).
    rewrite Hr. simpl. rewrite Nat.add_0_r.
    assert (Hnone : forall l n, collect_rId n rest l = l).
    { assert (Hrest : forall k r', rest !! k = Some r' ->
                        is_BND_BND_EMISSION (type r') = false).
      { intros k r' Hk.
        destruct (is_BND_BND_EMISSION (type r')) eqn:Ht; [| reflexivity].
        assert (Hr' : type r' = BND_BND_EMISSION)
          by (destruct (type r'); (discriminate || reflexivity)).
        apply (Hone (S k) r' Hk) in Hr'. discriminate. }
      clear - Hrest. induction rest as [|r' rest IH]; intros l n; simpl.
      - reflexivity.
      - rewrite (Hrest 0%nat r' eq_refl). apply IH.
        intros k r'' Hk. apply (Hrest (S k) r'' Hk). }
    apply Hnone.
  - assert (Hr : is_BND_BND_EMISSION (type r) = false).
    { destruct (is_BND_BND_EMISSION (type r)) eqn:Ht; [| reflexivity].
      assert (Hr' : type r = BND_BND_EMISSION)
        by (destruct (type r); (discriminate || reflexivity)).
      apply (Hone 0%nat r eq_refl) in Hr'. discriminate. }
    rewrite Hr. rewrite (IH (S i) j acc).
    + rewrite Nat.add_succ_r. reflexivity.
    + lia.
    + intros k r' Hk. rewrite (Hone (S k) r' Hk). lia.
Qed.

(** X27: the source term depends on the mixture only through its
    bound-bound emission reactions: two mixtures with the same reactions
    and temperature whose reaction deltas and rates of progress agree on
    every reaction of type BND_BND_EMISSION have the same source; a
    mixture without such a reaction has source zero; and a mixture whose
    only such reaction is reaction [j] has the source
    (0 + delta[j] rate[j]) RU T. *)
Theorem source_emission_only (RU : R) (mix1 mix2 : Mixture)
    (Hrs : reactions mix1 = reactions mix2) (HT : T mix1 = T mix2)
    (Hagree : forall j r,
        reactions mix1 !! j = Some r -> type r = BND_BND_EMISSION ->
        deref (mp_delta mix1) j = deref (mp_delta mix2) j
        /\ deref (mp_rate mix1) j = deref (mp_rate mix2) j) :
  source RU mix1 = source RU mix2
  /\ ((forall r, In r (reactions mix1) -> type r <> BND_BND_EMISSION) ->
      source RU mix1 = 0)
  /\ (forall j,
        (j < length (reactions mix1))%nat ->
        (forall k r, reactions mix1 !! k = Some r ->
                     (type r = BND_BND_EMISSION <-> k = j)) ->
        OmegaSEf_ctor mix1 = [j]
        /\ source RU mix1
           = (0 + deref (mp_delta mix1) j * deref (mp_rate mix1) j)
             * RU * T mix1
        /\ source RU mix2
           = (0 + deref (mp_delta mix1) j * deref (mp_rate mix1) j)
             * RU * T mix1).
Proof.
  assert (Heq : source RU mix1 = source RU mix2).
  { unfold source, OmegaSEf_ctor.
    rewrite <- Hrs, <- HT. f_equal. f_equal. apply sum_source_ext.
    intros j Hj. apply collect_rId_spec in Hj as [[] | (k & r & Hk & -> & Hr)].
    apply (Hagree k r Hk Hr). }
  split; [exact Heq | split].
  - intros Hnone. unfold source, OmegaSEf_ctor.
    assert (Hnil : collect_rId 0 (reactions mix1) [] = []).
    { destruct (collect_rId 0 (reactions mix1) []) as [|j l] eqn:Hc;
        [reflexivity |].
      assert (Hj : In j (collect_rId 0 (reactions mix1) []))
        by (rewrite Hc; left; reflexivity).
      apply collect_rId_spec in Hj as [[] | (k & r & Hk & _ & Hr)].
      exfalso. apply (Hnone r); [| exact Hr].
      apply list_elem_of_In, list_elem_of_lookup. eauto. }
    rewrite Hnil. simpl. ring.
  - intros j Hj Hone.
    assert (Hid : OmegaSEf_ctor mix1 = [j]).
    { unfold OmegaSEf_ctor.
      rewrite (collect_rId_single _ 0 j [] Hj Hone). reflexivity. }
    assert (Hsrc : source RU mix1
                   = (0 + deref (mp_delta mix1) j * deref (mp_rate mix1) j)
                     * RU * T mix1).
    { unfold source. rewrite Hid. reflexivity. }
    split; [exact Hid | split; [exact Hsrc |]].
    rewrite <- Heq. exact Hsrc.
Qed.

(** Two mixtures with an exchange reaction and an emission reaction, which
    differ in the delta and the rate of the exchange reaction only: both
    have the source (0 + 3 * 4) * 8 * 300 = 28800. *)
Lemma source_emission_only_witness :
  source 8 (mkMixture [exchange_irreversible; emission_reaction] 300
              [1; 3] [2; 4])
  = 28800
  /\ source 8 (mkMixture [exchange_irreversible; emission_reaction] 300
                 [5; 3] [7; 4])
     = 28800.
Proof.
  assert (Hagree : forall j r,
             [exchange_irreversible; emission_reaction] !! j = Some r ->
             type r = BND_BND_EMISSION ->
             deref [1; 3] j = deref [5; 3] j
             /\ deref [2; 4] j = deref [7; 4] j).
  { intros j r Hj Hr. destruct j as [|[|j]]; simpl in Hj.
    - inversion Hj; subst. discriminate Hr.
    - split; reflexivity.
    - discriminate. }
  destruct (source_emission_only 8
              (mkMixture [exchange_irreversible; emission_reaction] 300
                 [1; 3] [2; 4])
              (mkMixture [exchange_irreversible; emission_reaction] 300
                 [5; 3] [7; 4])
              eq_refl eq_refl Hagree) as (_ & _ & Hone).
  destruct (Hone 1%nat) as (_ & H1 & H2).
  - simpl. lia.
  - intros k r Hk. destruct k as [|[|k]]; simpl in Hk.
    + inversion Hk; subst. split; [discriminate | discriminate].
    + inversion Hk; subst. split; reflexivity.
    + discriminate.
  - split.
    + etransitivity; [exact H1 |]. unfold deref; simpl. lra.
    + etransitivity; [exact H2 |]. unfold deref; simpl. lra.
Defined.

End OmegaSEfProperties.

(** ** Rate manager: further properties *)

Section RateManagerExtras.

(** X5: after [update], for every reaction the ln(kf) entry is the log
    rate of its rate law at the temperature of its forward selector. *)
Theorem update_lnkf (ns : nat) (rs : list Reaction) (m : RateManager)
    (thermo : Thermodynamics) (i : nat) (r : Reaction)
    (Hm : constructed ns rs m) (Hi : rs !! i = Some r) :
  lnkf (update thermo m) !! i
  = Some (lnRate1T (rateLaw r) (getT (ForwardGroup (type r)) (state thermo))).
Proof.
  pose proof (constructed_inv _ _ _ Hm) as Hinv.
  destruct (inv_block _ _ _ Hinv) as (block & Hblk & Hlen).
  pose proof (lookup_lt_Some _ _ _ Hi) as Hlt.
  assert (Hupd : mp_lnkf (update thermo m)
                 = Some (correct_phase thermo m block)).
  { unfold update. rewrite Hblk. reflexivity. }
  rewrite (lnkf_lookup _ _ _ Hupd).
  - apply (correct_phase_values ns rs m thermo block i r Hinv Hlen Hi).
  - unfold update. rewrite Hblk. simpl. rewrite (inv_nr _ _ _ Hinv). exact Hlt.
Qed.

Lemma update_lnkf_witness :
  lnkf (update example_thermo
          (manager_of (RateManager_ctor 2 [dissociation_reversible]))) !! 0%nat
  = Some (lnRate1T (rateLaw dissociation_reversible)
            (getT ParkSelector (state example_thermo))).
Proof.
  apply (update_lnkf 2 [dissociation_reversible]).
  - apply constructed_ctor. reflexivity.
  - reflexivity.
Defined.

Lemma RateManager_ctor_block (ns : nat) (rs : list Reaction)
    (m : RateManager) :
  RateManager_ctor ns rs = Done m ->
  mp_lnkf m = Some (replicate (2 * length rs + ns) 0).
Proof.
  unfold RateManager_ctor.
  destruct (addReactions 0 rs _) as [m1|e m1] eqn:Hadd; [| discriminate].
  intros H. inversion H; subst; simpl.
  apply addReactions_Done in Hadd as (_ & Hnr & _). simpl in Hnr.
  rewrite Hnr. reflexivity.
Qed.

Lemma constructed_irreversible_slot (ns : nat) (rs : list Reaction)
    (m : RateManager) (i : nat) (r : Reaction) :
  constructed ns rs m -> rs !! i = Some r -> isReversible r = false ->
  lnkb m !! i = Some 0.
Proof.
  intros Hm Hi Hirr. pose proof (lookup_lt_Some _ _ _ Hi) as Hlt.
  induction Hm as [m Hctor | thermo m Hm IH].
  - pose proof (RateManager_ctor_inv _ _ _ Hctor) as Hinv.
    pose proof (RateManager_ctor_block ns rs m Hctor) as Hblk.
    rewrite (lnkb_lookup _ _ _ Hblk) by (rewrite (inv_nr _ _ _ Hinv); lia).
    apply lookup_replicate_2. rewrite (inv_nr _ _ _ Hinv). lia.
  - pose proof (constructed_inv _ _ _ Hm) as Hinv.
    destruct (inv_block _ _ _ Hinv) as (block & Hblk & Hlen).
    pose proof (inv_nr _ _ _ Hinv) as Hnr.
    assert (Hupd : mp_lnkf (update thermo m)
                   = Some (correct_phase thermo m block)).
    { unfold update. rewrite Hblk. reflexivity. }
    assert (Hnr' : m_nr (update thermo m) = length rs).
    { unfold update. rewrite Hblk. simpl. exact Hnr. }
    rewrite (lnkb_lookup _ _ _ Hupd) by lia. rewrite Hnr'.
    rewrite (proj2 (correct_phase_values ns rs m thermo block i r Hinv Hlen
                      Hi)).
    rewrite Hirr. rewrite (lnkb_lookup _ _ _ Hblk) in IH by lia.
    rewrite Hnr in IH. exact IH.
Qed.

(** X6: the ln(kb) entry of an irreversible reaction is never written: it
    is the 0.0 of the constructor after any number of updates. *)
Theorem irreversible_lnkb_zero (ns : nat) (rs : list Reaction)
    (m : RateManager) (i : nat) (r : Reaction)
    (Hm : constructed ns rs m) (Hi : rs !! i = Some r)
    (Hirr : isReversible r = false) :
  lnkb m !! i = Some 0.
Proof. exact (constructed_irreversible_slot ns rs m i r Hm Hi Hirr). Qed.

Lemma irreversible_lnkb_zero_witness :
  lnkb (update example_thermo
          (manager_of (RateManager_ctor 2 [exchange_irreversible]))) !! 0%nat
  = Some 0.
Proof.
  apply (irreversible_lnkb_zero 2 [exchange_irreversible] _ 0
           exchange_irreversible).
  - apply constructed_update, constructed_ctor. reflexivity.
  - reflexivity.
  - reflexivity.
Defined.

End RateManagerExtras.

Section RateManagerBookkeeping.

Lemma from_index_sorted (f : nat -> Reaction -> list nat) (i : nat)
    (rs : list Reaction) :
  (forall j r, f j r = [j] \/ f j r = []) ->
  StronglySorted lt (from_index f i rs)
  /\ forall x, In x (from_index f i rs) -> (i <= x)%nat.
Proof.
  intros Hf. revert i. induction rs as [|r rest IH]; intros i; simpl.
  - split; [constructor | contradiction].
  - destruct (IH (S i)) as [Hs Hge].
    destruct (Hf i r) as [-> | ->]; simpl.
    + split.
      * constructor; [exact Hs |]. apply List.Forall_forall.
        intros x Hx. apply Hge in Hx. lia.
      * intros x [<-|Hx]; [lia | apply Hge in Hx; lia].
    + split; [exact Hs |]. intros x Hx. apply Hge in Hx. lia.
Qed.

(** X7: after construction [m_irr] lists exactly the indices of the
    irreversible reactions and [m_to_copy] exactly the indices of the
    reversible reactions whose two selectors coincide, each in increasing
    order without repetition. *)
Theorem bookkeeping_lists (ns : nat) (rs : list Reaction) (m : RateManager)
    (Hctor : RateManager_ctor ns rs = Done m) :
  StronglySorted lt (m_irr m)
  /\ (forall i, In i (m_irr m)
                <-> exists r, rs !! i = Some r /\ isReversible r = false)
  /\ StronglySorted lt (m_to_copy m)
  /\ (forall i, In i (m_to_copy m)
                <-> exists r, rs !! i = Some r /\ isReversible r = true
                              /\ ForwardGroup (type r) = ReverseGroup (type r)).
Proof.
  pose proof (RateManager_ctor_inv _ _ _ Hctor) as Hinv.
  rewrite (inv_irr _ _ _ Hinv), (inv_copy _ _ _ Hinv).
  split; [| split; [| split]].
  - apply from_index_sorted. intros j r. unfold expected_irr.
    destruct (isReversible r); auto.
  - intros i. split.
    + intros Hin. pose proof Hin as Hin'.
      apply in_from_index in Hin' as (j & r & Hj & Hx). simpl in Hx.
      unfold expected_irr in Hx.
      destruct (isReversible r) eqn:Hrev; simpl in Hx; [contradiction |].
      destruct Hx as [<-|[]]. exists r. split; assumption.
    + intros (r & Hi & Hrev). apply (in_expected_irr rs i r Hi), Hrev.
  - apply from_index_sorted. intros j r. unfold expected_copy.
    destruct (isReversible r && same_selector r); auto.
  - intros i. split.
    + intros Hin. pose proof (copy_range _ _ _ Hin) as Hlt.
      destruct (lookup_lt_is_Some_2 rs i) as [r Hi]; [lia |].
      apply (in_expected_copy rs i r Hi) in Hin as [Hrev Hsame].
      exists r. repeat split; try assumption.
      apply same_selector_true, Hsame.
    + intros (r & Hi & Hrev & Hsame).
      apply (in_expected_copy rs i r Hi). split; [exact Hrev |].
      apply same_selector_true, Hsame.
Qed.

Lemma bookkeeping_lists_witness :
  StronglySorted lt
    (m_irr (manager_of (RateManager_ctor 2
                          [exchange_irreversible; exchange_reversible;
                           exchange_irreversible]))).
Proof.
  apply (bookkeeping_lists 2
           [exchange_irreversible; exchange_reversible;
            exchange_irreversible]).
  reflexivity.
Defined.

(** X8: every index [update] writes through lies inside the ln(kf) and
    ln(kb) arrays: the slots held by the groups are below 2 N, and the
    indices of the copy list and of the reactions held for the equilibrium
    correction are below N. *)
Theorem slots_in_bounds (ns : nat) (rs : list Reaction) (m : RateManager)
    (Hm : constructed ns rs m) :
  (forall s, In s (rate_slots m) -> (s < 2 * m_nr m)%nat)
  /\ (forall x, In x (m_to_copy m) -> (x < m_nr m)%nat)
  /\ (forall x, In x (map (fun e => fst (snd e))
                        (all_reacs (m_rate_groups m))) -> (x < m_nr m)%nat)
  /\ exists block, mp_lnkf m = Some block
                   /\ length block = (2 * m_nr m + m_ns m)%nat.
Proof.
  pose proof (constructed_inv _ _ _ Hm) as Hinv.
  rewrite (inv_nr _ _ _ Hinv), (inv_ns _ _ _ Hinv).
  split; [| split; [| split]].
  - intros s Hs. unfold rate_slots in Hs.
    eapply Permutation_in in Hs;
      [| apply Permutation_map, (inv_rates _ _ _ Hinv)].
    apply rates_slot_range in Hs. lia.
  - intros x Hx. rewrite (inv_copy _ _ _ Hinv) in Hx.
    apply copy_range in Hx. lia.
  - intros x Hx.
    eapply Permutation_in in Hx;
      [| apply Permutation_map, (inv_reacs _ _ _ Hinv)].
    apply reacs_slot_range in Hx. lia.
  - apply (inv_block _ _ _ Hinv).
Qed.

Lemma slots_in_bounds_witness :
  List.Forall (fun s => (s < 2 * 1)%nat)
    (rate_slots (manager_of (RateManager_ctor 2 [dissociation_reversible]))).
Proof.
  apply List.Forall_forall.
  apply (slots_in_bounds 2 [dissociation_reversible]).
  apply constructed_ctor. reflexivity.
Defined.

Lemma addReactions_app (pre post : list Reaction) (i : nat)
    (m : RateManager) :
  addReactions i (pre ++ post) m
  = match addReactions i pre m with
    | Done m1 => addReactions (i + length pre) post m1
    | Thrown e m1 => Thrown e m1
    end.
Proof.
  revert i m. induction pre as [|r pre IH]; intros i m; simpl.
  - rewrite Nat.add_0_r. reflexivity.
  - destruct (addReaction i r m) as [m1|e m1]; [| reflexivity].
    rewrite IH. rewrite Nat.add_succ_r. reflexivity.
Qed.

(** X9: when the reaction list holds a rate law the manager does not
    accept, the constructor throws for the first such reaction, naming its
    rate law's type; the reactions before it have been classified, none
    after it, and the block is not allocated. *)
Theorem RateManager_ctor_first_unsupported (ns : nat)
    (pre post : list Reaction) (r : Reaction)
    (Hpre : Forall (fun r' => accepted (typeid (rateLaw r')) = true) pre)
    (Hr : accepted (typeid (rateLaw r)) = false) :
  exists m,
    RateManager_ctor ns (pre ++ r :: post)
    = Thrown (InvalidRateLaw (typeid (rateLaw r))) m
    /\ all_rates (m_rate_groups m)
       ≡ₚ from_index (expected_rates (length (pre ++ r :: post))) 0 pre
    /\ m_irr m = from_index expected_irr 0 pre
    /\ m_to_copy m = from_index expected_copy 0 pre
    /\ mp_lnkf m = None.
Proof.
  unfold RateManager_ctor. rewrite addReactions_app.
  set (m0 := mkRateManager ns (length (pre ++ r :: post)) [] [] [] None).
  destruct (addReactions_accepted pre 0 m0 Hpre) as [m1 Hm1].
  rewrite Hm1. simpl. rewrite addReaction_outcome, Hr.
  apply addReactions_Done in Hm1
    as (_ & Hnr & Hblk & _ & Hrates & _ & Hcopy & Hirr).
  exists m1. simpl in *. repeat split; assumption.
Qed.

Lemma RateManager_ctor_first_unsupported_witness :
  exists m,
    RateManager_ctor 2 ([exchange_reversible] ++ expRat33_reaction
                          :: [exchange_irreversible])
    = Thrown (InvalidRateLaw KExpRat33) m
    /\ m_to_copy m = [0%nat].
Proof.
  destruct (RateManager_ctor_first_unsupported 2 [exchange_reversible]
              [exchange_irreversible] expRat33_reaction)
    as (m & H1 & _ & _ & H2 & _).
  - repeat constructor.
  - reflexivity.
  - exists m. split; [exact H1 | exact H2].
Defined.

End RateManagerBookkeeping.

Section RateManagerValues.

Lemma update_lookup (ns : nat) (rs : list Reaction) (m : RateManager)
    (thermo : Thermodynamics) (i : nat) (r : Reaction) :
  constructed ns rs m -> rs !! i = Some r ->
  lnkf (update thermo m) !! i
  = Some (lnRate1T (rateLaw r) (getT (ForwardGroup (type r)) (state thermo)))
  /\ lnkb (update thermo m) !! i
     = if isReversible r
       then Some (lnRate1T (rateLaw r)
                    (getT (ReverseGroup (type r)) (state thermo))
                  - lnKeq (gibbs_read thermo ns
                             (getT (ReverseGroup (type r)) (state thermo))) r)
       else Some 0.
Proof.
  intros Hm Hi. pose proof (constructed_inv _ _ _ Hm) as Hinv.
  destruct (inv_block _ _ _ Hinv) as (block & Hblk & Hlen).
  pose proof (lookup_lt_Some _ _ _ Hi) as Hlt.
  pose proof (inv_nr _ _ _ Hinv) as Hnr.
  assert (Hupd : mp_lnkf (update thermo m)
                 = Some (correct_phase thermo m block)).
  { unfold update. rewrite Hblk. reflexivity. }
  assert (Hnr' : m_nr (update thermo m) = length rs).
  { unfold update. rewrite Hblk. simpl. exact Hnr. }
  destruct (correct_phase_values ns rs m thermo block i r Hinv Hlen Hi)
    as [Hf Hb].
  split.
  - rewrite (lnkf_lookup _ _ _ Hupd) by lia. exact Hf.
  - rewrite (lnkb_lookup _ _ _ Hupd) by lia. rewrite Hnr', Hb.
    destruct (isReversible r) eqn:Hrev; [reflexivity |].
    rewrite <- (constructed_irreversible_slot ns rs m i r Hm Hi Hrev).
    rewrite (lnkb_lookup _ _ _ Hblk) by lia. rewrite Hnr. reflexivity.
Qed.

(** X10: the arrays after [update] do not depend on the manager's
    history: two managers built over the same reactions, whatever updates
    each has gone through, hold the same ln(kf) and ln(kb) after an update
    with the same thermodynamic state. *)
Theorem update_history_independent (ns : nat) (rs : list Reaction)
    (m1 m2 : RateManager) (thermo : Thermodynamics)
    (H1 : constructed ns rs m1) (H2 : constructed ns rs m2) :
  lnkf (update thermo m1) = lnkf (update thermo m2)
  /\ lnkb (update thermo m1) = lnkb (update thermo m2).
Proof.
  pose proof (constructed_inv _ _ _ (constructed_update ns rs thermo m1 H1))
    as Hinv1.
  pose proof (constructed_inv _ _ _ (constructed_update ns rs thermo m2 H2))
    as Hinv2.
  split; apply list_eq; intros i.
  - destruct (decide (i < length rs)%nat) as [Hi|Hi].
    + destruct (lookup_lt_is_Some_2 rs i Hi) as [r Hr].
      rewrite (proj1 (update_lookup ns rs m1 thermo i r H1 Hr)).
      rewrite (proj1 (update_lookup ns rs m2 thermo i r H2 Hr)).
      reflexivity.
    + rewrite !(proj2 (lookup_ge_None _ _)); [reflexivity | |].
      * rewrite (lnkf_length _ _ _ Hinv2). lia.
      * rewrite (lnkf_length _ _ _ Hinv1). lia.
  - destruct (decide (i < length rs)%nat) as [Hi|Hi].
    + destruct (lookup_lt_is_Some_2 rs i Hi) as [r Hr].
      rewrite (proj2 (update_lookup ns rs m1 thermo i r H1 Hr)).
      rewrite (proj2 (update_lookup ns rs m2 thermo i r H2 Hr)).
      reflexivity.
    + rewrite !(proj2 (lookup_ge_None _ _)); [reflexivity | |].
      * rewrite (lnkb_length _ _ _ Hinv2). lia.
      * rewrite (lnkb_length _ _ _ Hinv1). lia.
Qed.

Lemma update_history_independent_witness :
  lnkb (update example_thermo
          (manager_of (RateManager_ctor 2 [dissociation_reversible])))
  = lnkb (update example_thermo
            (update (mkThermo (mkStateModel 2 3 5) (fun _ _ => 1))
               (manager_of (RateManager_ctor 2 [dissociation_reversible])))).
Proof.
  apply (update_history_independent 2 [dissociation_reversible]).
  - apply constructed_ctor. reflexivity.
  - apply constructed_update, constructed_ctor. reflexivity.
Defined.

(** X11: in a state whose electron temperature equals its translational
    temperature, for every reversible reaction neither of whose selectors
    is the Park selector, the arrays after [update] satisfy detailed
    balance at T: ln(kb) is ln(kf) minus ln(Keq) at T. *)
Theorem update_detailed_balance (ns : nat) (rs : list Reaction)
    (m : RateManager) (thermo : Thermodynamics) (i : nat) (r : Reaction)
    (Hm : constructed ns rs m) (Hi : rs !! i = Some r)
    (Hrev : isReversible r = true)
    (Hsp : forall j, In j (reactants r ++ products r) -> (j < ns)%nat)
    (Hte : state_Te (state thermo) = state_T (state thermo))
    (Hfwd : ForwardGroup (type r) <> ParkSelector)
    (Hbwd : ReverseGroup (type r) <> ParkSelector) :
  exists kf,
    lnkf (update thermo m) !! i = Some kf
    /\ kf = lnRate1T (rateLaw r) (state_T (state thermo))
    /\ lnkb (update thermo m) !! i
       = Some (kf - lnKeq (speciesSTGOverRT thermo (state_T (state thermo)))
                      r).
Proof.
  destruct (update_lookup ns rs m thermo i r Hm Hi) as [Hf Hb].
  rewrite Hrev in Hb.
  assert (Hsel : forall sel, sel <> ParkSelector ->
                   getT sel (state thermo) = state_T (state thermo)).
  { intros sel Hsel. destruct sel; simpl; try assumption; try reflexivity.
    contradiction. }
  rewrite (Hsel _ Hfwd) in Hf. rewrite !(Hsel _ Hbwd) in Hb.
  eexists. split; [exact Hf | split; [reflexivity |]].
  rewrite Hb. f_equal. f_equal. apply lnKeq_ext.
  intros j Hj. unfold gibbs_read.
  rewrite decide_True by (apply Hsp, Hj). reflexivity.
Qed.

(** An associative ionization (forward selector T, reverse selector Te) in
    a state with T = Te = 4 and Tv = 9. *)
Lemma update_detailed_balance_witness :
  exists kf,
    lnkf (update (mkThermo (mkStateModel 4 4 9) (fun T j => T * INR j))
            (manager_of
               (RateManager_ctor 2
                  [mkReaction ASSOCIATIVE_IONIZATION true
                     (LawArrhenius (mkArrhenius 1 2 3)) [0%nat] [1%nat]])))
      !! 0%nat = Some kf
    /\ kf = lnRate1T (LawArrhenius (mkArrhenius 1 2 3)) 4
    /\ lnkb (update (mkThermo (mkStateModel 4 4 9) (fun T j => T * INR j))
               (manager_of
                  (RateManager_ctor 2
                     [mkReaction ASSOCIATIVE_IONIZATION true
                        (LawArrhenius (mkArrhenius 1 2 3)) [0%nat] [1%nat]])))
         !! 0%nat
       = Some (kf - lnKeq (fun j => 4 * INR j)
                      (mkReaction ASSOCIATIVE_IONIZATION true
                         (LawArrhenius (mkArrhenius 1 2 3))
                         [0%nat] [1%nat])).
Proof.
  apply (update_detailed_balance 2
           [mkReaction ASSOCIATIVE_IONIZATION true
              (LawArrhenius (mkArrhenius 1 2 3)) [0%nat] [1%nat]]
           _ (mkThermo (mkStateModel 4 4 9) (fun T j => T * INR j))
           0
           (mkReaction ASSOCIATIVE_IONIZATION true
              (LawArrhenius (mkArrhenius 1 2 3)) [0%nat] [1%nat])).
  - apply constructed_ctor. reflexivity.
  - reflexivity.
  - reflexivity.
  - simpl. intros j [<-|[<-|[]]]; lia.
  - reflexivity.
  - discriminate.
  - discriminate.
Defined.

End RateManagerValues.

(** ** Third-body manager: further properties *)

Section ThirdbodyExtras.

Import Thirdbody.

Lemma scaled_Permutation (l1 l2 : list PartialThirdbodyEffs)
    (conc gconc : list R) (rxn : nat) (x : R) :
  l1 ≡ₚ l2 -> List.NoDup (map m_rxn l1) ->
  scaled rxn l1 conc gconc x = scaled rxn l2 conc gconc x.
Proof.
  intros Hperm. revert x.
  induction Hperm as [| e l l' Hp IH | e1 e2 l | l l' l'' Hp1 IH1 Hp2 IH2];
    intros x Hnd; simpl.
  - reflexivity.
  - simpl in Hnd. inversion Hnd; subst. apply IH. assumption.
  - simpl in Hnd. inversion Hnd as [|? ? Hnotin _]; subst.
    destruct (decide (m_rxn e1 = rxn)) as [H1|H1],
             (decide (m_rxn e2 = rxn)) as [H2|H2]; try reflexivity.
    exfalso. apply Hnotin. left. congruence.
  - rewrite IH1 by exact Hnd. apply IH2.
    eapply Permutation_NoDup; [| exact Hnd].
    apply Permutation_map, Hp1.
Qed.

Lemma multiply_all_lookup_None (effs : list PartialThirdbodyEffs)
    (p_s p_g p_r : list R) (sum : R) (i : nat) :
  p_r !! i = None -> multiply_all effs sum p_s p_g p_r !! i = None.
Proof.
  intros H. apply lookup_ge_None. rewrite multiply_all_length.
  apply lookup_ge_None, H.
Qed.

(** X12: when no reaction index is registered twice, the order in
    which the reactions were registered does not matter: two managers
    holding the same registrations in a different order leave the same
    rates of progress. *)
Theorem multiplyThirdbodies_order_irrelevant (tm1 tm2 : ThirdbodyManager)
    (p_s p_r : list R)
    (Hnodup : List.NoDup (registered tm1))
    (Hperm : mgr_effs tm1 ≡ₚ mgr_effs tm2)
    (Hthermo : m_thermo tm1 = m_thermo tm2) (Hg : p_g tm1 = p_g tm2) :
  multiplyThirdbodies tm1 p_s p_r = multiplyThirdbodies tm2 p_s p_r.
Proof.
  unfold multiplyThirdbodies. rewrite Hthermo, Hg. f_equal.
  apply list_eq. intros i. destruct (p_r !! i) as [x|] eqn:Hx.
  - rewrite !(multiply_all_scaled _ _ _ _ _ _ Hx).
    rewrite (scaled_Permutation _ _ _ _ _ _ Hperm Hnodup). reflexivity.
  - rewrite !multiply_all_lookup_None by exact Hx. reflexivity.
Qed.

Lemma multiplyThirdbodies_order_irrelevant_witness :
  multiplyThirdbodies
    (addReaction 1 [(0%nat, 2)] [(0%nat, 5)]
       (addReaction 0 [(1%nat, 3)] []
          (ThirdbodyManager_ctor 2 false one_group_thermo)))
    [1; 2] [5; 7]
  = multiplyThirdbodies
      (addReaction 0 [(1%nat, 3)] []
         (addReaction 1 [(0%nat, 2)] [(0%nat, 5)]
            (ThirdbodyManager_ctor 2 false one_group_thermo)))
      [1; 2] [5; 7].
Proof.
  apply multiplyThirdbodies_order_irrelevant; try reflexivity.
  - simpl. constructor; [| constructor; [| constructor]].
    + simpl. intros [H|[]]. discriminate H.
    + simpl. tauto.
  - simpl. apply perm_swap.
Defined.

Lemma multiply_all_app (l1 l2 : list PartialThirdbodyEffs)
    (p_s p_g p_r : list R) (sum : R) :
  multiply_all (l1 ++ l2) sum p_s p_g p_r
  = multiply_all l2 sum p_s p_g (multiply_all l1 sum p_s p_g p_r).
Proof.
  revert p_r. induction l1 as [|e l1 IH]; intros p_r; simpl.
  - reflexivity.
  - apply IH.
Qed.

(** X13: registering one more reaction changes only that reaction's
    result: every other rate of progress comes out as before, and the rate
    of the registered index comes out multiplied once more, by the weighted
    sum of the new registration over the concentrations and over the group
    concentrations [sumSgroupMembersValues] computes from them. *)
Theorem addReaction_multiplyThirdbodies (tm : ThirdbodyManager)
    (rxn : nat) (effs gEffs : list (nat * R)) (p_s p_r : list R) :
  let groups := sumSgroupMembersValues (m_thermo tm) p_s (p_g tm) in
  let before := multiplyThirdbodies tm p_s p_r in
  let after := multiplyThirdbodies (addReaction rxn effs gEffs tm) p_s p_r in
  arr_g after = groups
  /\ (forall i, i <> rxn -> arr_r after !! i = arr_r before !! i)
  /\ (forall x, arr_r before !! rxn = Some x ->
                arr_r after !! rxn
                = Some (x * weighted_sum
                              (mkPartialThirdbodyEffs rxn effs gEffs)
                              p_s groups)).
Proof.
  simpl. rewrite multiply_all_app. simpl.
  rewrite multiplyEfficiencies_weighted. simpl.
  split; [reflexivity | split].
  - intros i Hi. apply list_lookup_insert_ne. congruence.
  - intros x Hx. rewrite (deref_Some _ _ _ Hx).
    apply list_lookup_insert_eq. apply lookup_lt_Some in Hx. exact Hx.
Qed.

(** Registering reaction 1 with species efficiency 2.0 for species 0 and
    efficiency 3.0 for the group of all species: its rate of progress 7
    becomes 7 (1 * 2 + (1 + 2) * 3) = 77. *)
Lemma addReaction_multiplyThirdbodies_witness :
  arr_r (multiplyThirdbodies
           (addReaction 1 [(0%nat, 2)] [(0%nat, 3)] example_group_manager)
           [1; 2] [5; 7])
    !! 1%nat
  = Some 77.
Proof.
  destruct (addReaction_multiplyThirdbodies example_group_manager 1
              [(0%nat, 2)] [(0%nat, 3)] [1; 2] [5; 7])
    as (_ & _ & H).
  etransitivity.
  - apply (H 7). reflexivity.
  - f_equal. unfold weighted_sum, deref; simpl. lra.
Defined.




End ThirdbodyExtras.

(** ** Species list descriptor: ordering of energy levels *)

Section EnergyLevelOrder.

Import SpeciesList.

Lemma lexicographical_compare_irrefl (l : list nat) :
  lexicographical_compare Nat.ltb l l = false.
Proof.
  induction l as [|x l IH]; simpl.
  - reflexivity.
  - rewrite Nat.ltb_irrefl. exact IH.
Qed.

Lemma lexicographical_compare_trans (l1 l2 l3 : list nat) :
  lexicographical_compare Nat.ltb l1 l2 = true ->
  lexicographical_compare Nat.ltb l2 l3 = true ->
  lexicographical_compare Nat.ltb l1 l3 = true.
Proof.
  revert l2 l3. induction l1 as [|x l1 IH]; intros [|y l2] [|z l3]; simpl;
    try discriminate; try reflexivity.
  destruct (Nat.ltb_spec x y), (Nat.ltb_spec y x), (Nat.ltb_spec y z),
    (Nat.ltb_spec z y), (Nat.ltb_spec x z), (Nat.ltb_spec z x);
    try discriminate; try reflexivity; try lia.
  apply IH.
Qed.

Lemma lexicographical_compare_total (l1 l2 : list nat) :
  lexicographical_compare Nat.ltb l1 l2 = false ->
  lexicographical_compare Nat.ltb l2 l1 = false ->
  l1 = l2.
Proof.
  revert l2. induction l1 as [|x l1 IH]; intros [|y l2]; simpl;
    try discriminate; try reflexivity.
  destruct (Nat.ltb_spec x y), (Nat.ltb_spec y x);
    try discriminate; try lia.
  intros H1 H2. assert (x = y) by lia. subst y. f_equal. apply IH; assumption.
Qed.

Lemma char_codes_inj (s1 s2 : String.string) :
  char_codes s1 = char_codes s2 -> s1 = s2.
Proof.
  unfold char_codes. intros H.
  assert (Hl : String.list_ascii_of_string s1
               = String.list_ascii_of_string s2).
  { revert H. generalize (String.list_ascii_of_string s1)
                (String.list_ascii_of_string s2).
    intros l1. induction l1 as [|a l1 IH]; intros [|b l2]; simpl;
      intros H; try discriminate; try reflexivity.
    inversion H as [[Hab Hrest]]. f_equal.
    - rewrite <- (Ascii.ascii_nat_embedding a),
        <- (Ascii.ascii_nat_embedding b), Hab.
      reflexivity.
    - apply IH, Hrest. }
  rewrite <- (String.string_of_list_ascii_of_string s1),
    <- (String.string_of_list_ascii_of_string s2), Hl.
  reflexivity.
Qed.

Lemma energyLevel_lt_irrefl (a : energyLevel) : energyLevel_lt a a = false.
Proof.
  unfold energyLevel_lt. rewrite String.eqb_refl. simpl.
  apply lexicographical_compare_irrefl.
Qed.

Lemma energyLevel_lt_trans (a b c : energyLevel) :
  energyLevel_lt a b = true -> energyLevel_lt b c = true ->
  energyLevel_lt a c = true.
Proof.
  destruct a as [n1 i1], b as [n2 i2], c as [n3 i3].
  unfold energyLevel_lt, string_lt. simpl.
  destruct (String.eqb_spec n1 n2) as [E12|N12],
    (String.eqb_spec n2 n3) as [E23|N23],
    (String.eqb_spec n1 n3) as [E13|N13]; simpl;
    try (exfalso; congruence).
  - apply lexicographical_compare_trans.
  - subst n2. auto.
  - subst n3. auto.
  - intros Ha Hb. subst n3.
    pose proof (lexicographical_compare_trans _ _ _ Ha Hb) as Hac.
    rewrite lexicographical_compare_irrefl in Hac. discriminate.
  - apply lexicographical_compare_trans.
Qed.

Lemma energyLevel_lt_total (a b : energyLevel) :
  energyLevel_lt a b = false -> energyLevel_lt b a = false -> a = b.
Proof.
  destruct a as [n1 i1], b as [n2 i2].
  unfold energyLevel_lt, string_lt. simpl.
  rewrite (String.eqb_sym n2 n1).
  destruct (String.eqb_spec n1 n2) as [->|H12]; simpl.
  - intros H1 H2. f_equal. apply lexicographical_compare_total; assumption.
  - intros H1 H2. exfalso. apply H12, char_codes_inj.
    apply lexicographical_compare_total; assumption.
Qed.

(** X15: [energyLevel::operator<] is a strict total order on (ground state
    name, indices): no level is below itself, the relation is transitive,
    and two levels neither of which is below the other are the same level,
    so a map keyed by energy levels holds one entry per level. *)
Theorem energyLevel_lt_strict_total_order :
  (forall a, energyLevel_lt a a = false)
  /\ (forall a b c, energyLevel_lt a b = true -> energyLevel_lt b c = true ->
                    energyLevel_lt a c = true)
  /\ (forall a b, energyLevel_lt a b = false -> energyLevel_lt b a = false ->
                  a = b).
Proof.
  split; [| split].
  - exact energyLevel_lt_irrefl.
  - exact energyLevel_lt_trans.
  - exact energyLevel_lt_total.
Qed.

End EnergyLevelOrder.

(** ** Species list descriptor: separating the species names *)

Section SeparateSpeciesNames.

Import SpeciesList.

Lemma append_nil_r (s : String.string) : String.append s String.EmptyString = s.
Proof. induction s as [|c s IH]; simpl; [reflexivity | rewrite IH; reflexivity]. Qed.

Lemma append_assoc (s1 s2 s3 : String.string) :
  String.append (String.append s1 s2) s3
  = String.append s1 (String.append s2 s3).
Proof.
  induction s1 as [|c s1 IH]; simpl; [reflexivity | rewrite IH; reflexivity].
Qed.

Lemma push_char_cons (name : String.string) (c : Ascii.ascii)
    (s : String.string) :
  String.append (push_char name c) s = String.append name (String.String c s).
Proof. unfold push_char. rewrite append_assoc. reflexivity. Qed.

Lemma has_char_append (p : Ascii.ascii -> bool) (s1 s2 : String.string) :
  has_char p (String.append s1 s2) = has_char p s1 || has_char p s2.
Proof.
  induction s1 as [|c s1 IH]; simpl; [reflexivity |].
  rewrite IH. apply orb_assoc.
Qed.

Lemma push_name_app (name : String.string) (names : list String.string) :
  push_name name names
  = names ++ match name with
             | String.EmptyString => []
             | String.String _ _ => [name]
             end.
Proof. destruct name; simpl; [rewrite app_nil_r |]; reflexivity. Qed.

Lemma separate_loop_names (rest : String.string) (i : nat) (q : bool)
    (name : String.string) (names result : list String.string) :
  has_char is_quote name = false ->
  separate_loop rest i q name names = Names result ->
  exists new,
    result = names ++ new
    /\ Forall (fun n => n <> String.EmptyString /\ has_char is_quote n = false) new.
Proof.
  assert (Hpush : forall name names,
             has_char is_quote name = false ->
             exists new,
               push_name name names = names ++ new
               /\ Forall (fun n => n <> String.EmptyString /\ has_char is_quote n = false)
                    new).
  { intros n ns Hn. rewrite push_name_app. eexists. split; [reflexivity |].
    destruct n; [constructor |].
    constructor; [split; [discriminate | exact Hn] | constructor]. }
  assert (Hstep : forall names mid result,
             (exists new, mid = names ++ new
                /\ Forall (fun n => n <> String.EmptyString /\ has_char is_quote n = false)
                     new) ->
             (exists new, result = mid ++ new
                /\ Forall (fun n => n <> String.EmptyString /\ has_char is_quote n = false)
                     new) ->
             exists new, result = names ++ new
                /\ Forall (fun n => n <> String.EmptyString /\ has_char is_quote n = false)
                     new).
  { intros ns mid res (n1 & -> & H1) (n2 & -> & H2).
    exists (n1 ++ n2). split; [rewrite app_assoc; reflexivity |].
    apply Forall_app. split; assumption. }
  revert i q name names.
  induction rest as [|c rest IH]; intros i q name names Hname H; simpl in H.
  - inversion H; subst. apply Hpush, Hname.
  - destruct q.
    + destruct (is_quote c) eqn:Hc.
      * eapply Hstep; [apply (Hpush name names Hname) |].
        eapply IH; [| exact H]. reflexivity.
      * eapply IH; [| exact H]. unfold push_char.
        rewrite has_char_append, Hname. simpl. rewrite Hc. reflexivity.
    + destruct (is_space c) eqn:Hs.
      * eapply Hstep; [apply (Hpush name names Hname) |].
        eapply IH; [| exact H]. reflexivity.
      * destruct (is_quote c) eqn:Hc.
        -- destruct name; [| discriminate].
           eapply IH; [| exact H]. reflexivity.
        -- eapply IH; [| exact H]. unfold push_char.
           rewrite has_char_append, Hname. simpl. rewrite Hc. reflexivity.
Qed.

(** X16: [separateSpeciesNames] only appends to the list of names, and no
    name it appends is empty or contains a quotation mark. *)
Theorem separateSpeciesNames_names
    (trim : String.string -> String.string) (descriptor : String.string)
    (m_species_names result : list String.string)
    (H : separateSpeciesNames trim descriptor m_species_names
         = Names result) :
  exists new,
    result = m_species_names ++ new
    /\ Forall (fun n => n <> String.EmptyString /\ has_char is_quote n = false) new.
Proof.
  unfold separateSpeciesNames in H.
  destruct (trim descriptor) as [|c rest].
  - eapply separate_loop_names; [| exact H]. reflexivity.
  - destruct (is_quote c); (eapply separate_loop_names; [| exact H]);
      reflexivity.
Qed.

Lemma separateSpeciesNames_names_witness :
  exists new,
    [String.String (Ascii.ascii_of_nat 78) String.EmptyString]
    = [] ++ new
    /\ Forall (fun n => n <> String.EmptyString /\ has_char is_quote n = false) new.
Proof.
  apply (separateSpeciesNames_names (fun s => s)
           (String.String (Ascii.ascii_of_nat 32)
              (String.String (Ascii.ascii_of_nat 78) String.EmptyString)) []).
  reflexivity.
Defined.

Lemma scan_plain (t rest : String.string) (i : nat)
    (name : String.string) (names : list String.string) :
  has_char is_space t = false -> has_char is_quote t = false ->
  separate_loop (String.append t rest) i false name names
  = separate_loop rest (i + String.length t)%nat false
      (String.append name t) names.
Proof.
  revert i name. induction t as [|c t IH]; intros i name Hs Hq; simpl in *.
  - rewrite Nat.add_0_r, append_nil_r. reflexivity.
  - apply orb_false_elim in Hs as [Hs1 Hs2].
    apply orb_false_elim in Hq as [Hq1 Hq2].
    rewrite Hs1, Hq1, IH by assumption.
    rewrite push_char_cons, Nat.add_succ_r. reflexivity.
Qed.

Lemma scan_quoted (t rest : String.string) (i : nat)
    (name : String.string) (names : list String.string) :
  has_char is_quote t = false ->
  separate_loop (String.append t rest) i true name names
  = separate_loop rest (i + String.length t)%nat true
      (String.append name t) names.
Proof.
  revert i name. induction t as [|c t IH]; intros i name Hq; simpl in *.
  - rewrite Nat.add_0_r, append_nil_r. reflexivity.
  - apply orb_false_elim in Hq as [Hq1 Hq2].
    rewrite Hq1, IH by assumption.
    rewrite push_char_cons, Nat.add_succ_r. reflexivity.
Qed.

Lemma separate_loop_join (ns : list String.string) (i : nat)
    (names : list String.string) :
  Forall plain_name ns ->
  separate_loop (join_names ns) i false String.EmptyString names = Names (names ++ ns).
Proof.
  revert i names. induction ns as [|n ns IH]; intros i names Hall.
  - simpl. rewrite app_nil_r. reflexivity.
  - inversion Hall as [|? ? (Hne & Hs & Hq) Hrest]; subst.
    destruct ns as [|n' ns'].
    + simpl join_names. rewrite <- (append_nil_r n) at 1.
      rewrite (scan_plain n String.EmptyString) by assumption. simpl.
      rewrite push_name_app. destruct n; [contradiction | reflexivity].
    + change (join_names (n :: n' :: ns'))
        with (String.append n
                (String.String (Ascii.ascii_of_nat 32)
                   (join_names (n' :: ns')))).
      rewrite (scan_plain n) by assumption.
      cbn [separate_loop String.append].
      change (is_space (Ascii.ascii_of_nat 32)) with true. cbv iota.
      rewrite IH by exact Hrest. rewrite push_name_app.
      destruct n; [contradiction |]. rewrite <- app_assoc. reflexivity.
Qed.

Lemma plain_name_head (n : String.string) :
  plain_name n ->
  exists c rest, n = String.String c rest /\ is_quote c = false.
Proof.
  intros (Hne & _ & Hq). destruct n as [|c rest]; [contradiction |].
  simpl in Hq. apply orb_false_elim in Hq as [Hq _]. eauto.
Qed.

(** X17: names that contain no white space and no quotation mark, written
    one after the other with a space between them, are separated again
    into exactly those names, in order. *)
Theorem separateSpeciesNames_join
    (trim : String.string -> String.string) (ns : list String.string)
    (m_species_names : list String.string)
    (Hplain : Forall plain_name ns)
    (Htrim : trim (join_names ns) = join_names ns) :
  separateSpeciesNames trim (join_names ns) m_species_names
  = Names (m_species_names ++ ns).
Proof.
  unfold separateSpeciesNames. rewrite Htrim.
  pose proof (separate_loop_join ns 0 m_species_names Hplain) as Hloop.
  destruct (join_names ns) as [|c rest] eqn:Hj.
  - exact Hloop.
  - assert (Hc : is_quote c = false).
    { destruct ns as [|n ns']; [discriminate |].
      inversion Hplain as [|? ? Hn _]; subst.
      destruct (plain_name_head n Hn) as (c' & r' & -> & Hq).
      destruct ns'; simpl in Hj; inversion Hj; subst; exact Hq. }
    rewrite Hc. exact Hloop.
Qed.

Lemma separateSpeciesNames_join_witness :
  separateSpeciesNames (fun s => s)
    (join_names [String.String (Ascii.ascii_of_nat 78) String.EmptyString;
                 String.String (Ascii.ascii_of_nat 79) String.EmptyString]) []
  = Names ([] ++ [String.String (Ascii.ascii_of_nat 78) String.EmptyString;
                  String.String (Ascii.ascii_of_nat 79) String.EmptyString]).
Proof.
  apply separateSpeciesNames_join.
  - repeat constructor; discriminate.
  - reflexivity.
Defined.

(** X18: a non-empty name without quotation marks written between
    quotation marks is read as one name, white space included. *)
Theorem separateSpeciesNames_quoted
    (trim : String.string -> String.string) (name : String.string)
    (m_species_names : list String.string)
    (Hne : name <> String.EmptyString) (Hq : has_char is_quote name = false)
    (Htrim : trim (quoted name) = quoted name) :
  separateSpeciesNames trim (quoted name) m_species_names
  = Names (m_species_names ++ [name]).
Proof.
  unfold separateSpeciesNames. rewrite Htrim. unfold quoted.
  change (is_quote (Ascii.ascii_of_nat 34)) with true. cbv iota.
  rewrite (scan_quoted name) by exact Hq.
  cbn [separate_loop String.append].
  change (is_quote (Ascii.ascii_of_nat 34)) with true. cbv iota.
  destruct name; [contradiction |]. reflexivity.
Qed.

Lemma separateSpeciesNames_quoted_witness :
  separateSpeciesNames (fun s => s)
    (quoted (String.String (Ascii.ascii_of_nat 78)
               (String.String (Ascii.ascii_of_nat 32)
                  (String.String (Ascii.ascii_of_nat 50) String.EmptyString)))) []
  = Names ([] ++ [String.String (Ascii.ascii_of_nat 78)
                    (String.String (Ascii.ascii_of_nat 32)
                       (String.String (Ascii.ascii_of_nat 50) String.EmptyString))]).
Proof.
  apply separateSpeciesNames_quoted; [discriminate | reflexivity ..].
Defined.

(** X19: a quotation mark that follows the characters of an unquoted name
    is an error: the scan stops there and throws, reporting the name read
    so far. *)
Theorem separateSpeciesNames_quote_in_name
    (trim : String.string -> String.string)
    (descriptor name rest : String.string)
    (m_species_names : list String.string)
    (Hplain : plain_name name)
    (Htrim : trim descriptor
             = String.append name
                 (String.String (Ascii.ascii_of_nat 34) rest)) :
  separateSpeciesNames trim descriptor m_species_names
  = QuoteInName name (String.length name).
Proof.
  unfold separateSpeciesNames. rewrite Htrim.
  destruct Hplain as (Hne & Hs & Hq).
  assert (Hscan : separate_loop
                    (String.append name
                       (String.String (Ascii.ascii_of_nat 34) rest))
                    0 false String.EmptyString m_species_names
                  = QuoteInName name (String.length name)).
  { rewrite (scan_plain name) by assumption.
    cbn [separate_loop String.append].
    change (is_space (Ascii.ascii_of_nat 34)) with false.
    change (is_quote (Ascii.ascii_of_nat 34)) with true. cbv iota.
    destruct name; [contradiction | reflexivity]. }
  destruct name as [|c name']; [contradiction |].
  simpl in Hq. apply orb_false_elim in Hq as [Hqc _].
  cbn [String.append]. rewrite Hqc. exact Hscan.
Qed.

Lemma separateSpeciesNames_quote_in_name_witness :
  separateSpeciesNames (fun s => s)
    (String.String (Ascii.ascii_of_nat 78)
       (String.String (Ascii.ascii_of_nat 34) String.EmptyString)) []
  = QuoteInName (String.String (Ascii.ascii_of_nat 78) String.EmptyString) 1.
Proof.
  apply (separateSpeciesNames_quote_in_name (fun s => s) _
           (String.String (Ascii.ascii_of_nat 78) String.EmptyString) String.EmptyString).
  - repeat split; (discriminate || reflexivity).
  - reflexivity.
Defined.

End SeparateSpeciesNames.

(** ** Species list descriptor: ordering the species *)

Section OrderProperties.

Import SpeciesList.

Lemma find_if_split {A : Type} (p : A -> bool) (l : list A) (k : nat) :
  find_if p l = Some k ->
  exists a x b,
    l = a ++ x :: b /\ length a = k /\ p x = true
    /\ List.filter p a = [].
Proof.
  revert k. induction l as [|y l IH]; intros k H; simpl in H.
  - discriminate.
  - destruct (p y) eqn:Hy.
    + inversion H; subst. exists [], y, l. repeat split; assumption.
    + destruct (find_if p l) as [k'|] eqn:Hf; [| discriminate].
      inversion H; subst. destruct (IH k' eq_refl) as (a & x & b & -> & Hl & Hx & Ha).
      exists (y :: a), x, b. simpl. rewrite Hy, Hl. repeat split; assumption.
Qed.

Lemma find_if_None {A : Type} (p : A -> bool) (l : list A) :
  find_if p l = None <-> List.filter p l = [].
Proof.
  induction l as [|y l IH]; simpl.
  - split; reflexivity.
  - destruct (p y).
    + split; discriminate.
    + rewrite <- IH. destruct (find_if p l); simpl; split;
        (discriminate || reflexivity).
Qed.

Lemma split_lookup {A : Type} (a b : list A) (x : A) :
  (a ++ x :: b) !! length a = Some x.
Proof. apply list_lookup_middle. reflexivity. Qed.

Lemma split_delete {A : Type} (a b : list A) (x : A) :
  delete (length a) (a ++ x :: b) = a ++ b.
Proof.
  induction a as [|y a IH]; simpl; [reflexivity | rewrite IH; reflexivity].
Qed.

Lemma take_out_Permutation {A : Type} (l : list A) (k : nat) (x : A) :
  l !! k = Some x -> l ≡ₚ x :: delete k l.
Proof. apply delete_Permutation. Qed.

Lemma moved_Permutation {A : Type} (l o : list A) (k : nat) (s : A) :
  l !! k = Some s -> delete k l ++ (o ++ [s]) ≡ₚ l ++ o.
Proof.
  intros Hs. rewrite app_assoc, <- Permutation_cons_append.
  change (s :: delete k l ++ o) with ((s :: delete k l) ++ o).
  apply Permutation_app_tail. symmetry. apply take_out_Permutation, Hs.
Qed.

Lemma expand_name_Permutation (fuel : nat) (nm : String.string)
    (input ordered : list Species) :
  fst (expand_name fuel nm input ordered)
  ++ snd (expand_name fuel nm input ordered)
  ≡ₚ input ++ ordered.
Proof.
  revert input ordered. induction fuel as [|fuel IH]; intros input ordered;
    simpl; [reflexivity |].
  destruct (find_if _ input) as [k0|]; [| reflexivity].
  destruct (input !! k0) as [s0|]; [| reflexivity].
  destruct (input !! lowest_level _ _ _ _ _) as [s|] eqn:Hs; [| reflexivity].
  rewrite IH. apply moved_Permutation, Hs.
Qed.

Lemma order_names_Permutation (d : SpeciesListDescriptor)
    (names : list String.string) (input ordered : list Species)
    (missing : list String.string) :
  fst (fst (order_names d names input ordered missing))
  ++ snd (fst (order_names d names input ordered missing))
  ≡ₚ input ++ ordered.
Proof.
  revert input ordered missing.
  induction names as [|nm rest IH]; intros input ordered missing; simpl.
  - reflexivity.
  - destruct (found_with d _ 0).
    + destruct (find_if _ input) as [k|]; [| apply IH].
      destruct (input !! k) as [s|] eqn:Hs; [| apply IH].
      rewrite IH. apply moved_Permutation, Hs.
    + rewrite IH. apply expand_name_Permutation.
Qed.

Lemma electron_first_Permutation (l : list Species) :
  electron_first l ≡ₚ l.
Proof.
  unfold electron_first. destruct (find_if _ l) as [[|k]|]; try reflexivity.
  destruct (l !! S k) as [s|] eqn:Hs; [| reflexivity].
  symmetry. apply take_out_Permutation, Hs.
Qed.

Lemma condensed_last_Permutation (n : nat) (l : list Species) :
  condensed_last n l ≡ₚ l.
Proof.
  revert l. induction n as [|n IH]; intros l; simpl; [reflexivity |].
  destruct (find_if _ l) as [k|]; [| reflexivity].
  destruct (l !! k) as [s|] eqn:Hs; [| reflexivity].
  rewrite IH, <- Permutation_cons_append.
  symmetry. apply take_out_Permutation, Hs.
Qed.

Lemma order_complete (d : SpeciesListDescriptor)
    (input output : list Species) (missing : list String.string) :
  ord_missing (order d input output missing) = [] ->
  order d input output missing
  = mkOrdered []
      (condensed_last
         (count_if IsCondensed
            (electron_first
               (snd (fst (order_names d (m_species_names d) input []
                            missing))
                ++ fst (fst (order_names d (m_species_names d) input []
                               missing)))))
         (electron_first
            (snd (fst (order_names d (m_species_names d) input [] missing))
             ++ fst (fst (order_names d (m_species_names d) input []
                            missing)))))
      [].
Proof.
  unfold order.
  destruct (order_names d (m_species_names d) input [] missing)
    as [[input1 ordered1] missing1]. simpl.
  destruct (check_missing (m_expand_states d) ordered1 missing1) as [|nm ms];
    simpl; [reflexivity | discriminate].
Qed.

(** X20: when no species is reported missing, [order] empties the input
    list and the output holds exactly the species of the input, each as
    often as it occurred. *)
Theorem order_Permutation (d : SpeciesListDescriptor)
    (input output : list Species) (missing : list String.string)
    (Hall : ord_missing (order d input output missing) = []) :
  ord_input (order d input output missing) = []
  /\ ord_output (order d input output missing) ≡ₚ input.
Proof.
  rewrite (order_complete d input output missing Hall). simpl.
  split; [reflexivity |].
  rewrite condensed_last_Permutation, electron_first_Permutation.
  rewrite Permutation_app_comm, order_names_Permutation, app_nil_r.
  reflexivity.
Qed.

Lemma find_if_intro {A : Type} (p : A -> bool) (a b : list A) (x : A) :
  List.filter p a = [] -> p x = true ->
  find_if p (a ++ x :: b) = Some (length a).
Proof.
  intros Ha Hx. induction a as [|y a IH]; simpl in *.
  - rewrite Hx. reflexivity.
  - destruct (p y); [discriminate |]. rewrite (IH Ha). reflexivity.
Qed.

Lemma filter_negb_all {A : Type} (p : A -> bool) (a : list A) :
  List.filter p a = [] -> List.filter (fun s => negb (p s)) a = a.
Proof.
  induction a as [|y a IH]; simpl; [reflexivity |].
  destruct (p y); [discriminate |]. simpl. intros H. rewrite (IH H).
  reflexivity.
Qed.

Lemma filter_nonempty_find {A : Type} (p : A -> bool) (l : list A) (n : nat) :
  length (List.filter p l) = S n -> exists k, find_if p l = Some k.
Proof.
  intros H. destruct (find_if p l) as [k|] eqn:Hf; [eauto |].
  apply find_if_None in Hf. rewrite Hf in H. discriminate.
Qed.

Lemma condensed_last_partition (n : nat) (l1 l2 : list Species) :
  length (List.filter IsCondensed l1) = n ->
  condensed_last n (l1 ++ l2)
  = List.filter (fun s => negb (IsCondensed s)) l1 ++ l2
    ++ List.filter IsCondensed l1.
Proof.
  revert l1 l2. induction n as [|n IH]; intros l1 l2 Hn; simpl.
  - apply length_zero_iff_nil in Hn.
    rewrite Hn, (filter_negb_all _ _ Hn), app_nil_r. reflexivity.
  - destruct (filter_nonempty_find _ _ _ Hn) as [k Hk].
    destruct (find_if_split _ _ _ Hk) as (a & x & b & -> & <- & Hx & Ha).
    rewrite <- app_assoc. simpl.
    rewrite (find_if_intro _ a (b ++ l2) x Ha Hx).
    rewrite split_lookup, split_delete.
    rewrite !List.filter_app in *. simpl in *. rewrite Hx in *. simpl in *.
    rewrite Ha in *. simpl in Hn.
    replace ((a ++ b ++ l2) ++ [x]) with ((a ++ b) ++ (l2 ++ [x]))
      by (rewrite <- !app_assoc; reflexivity).
    rewrite IH.
    + rewrite !List.filter_app, Ha. simpl. rewrite <- !app_assoc. reflexivity.
    + rewrite List.filter_app, Ha. simpl. lia.
Qed.

Lemma filter_partition_Permutation {A : Type} (p : A -> bool) (l : list A) :
  List.filter (fun s => negb (p s)) l ++ List.filter p l ≡ₚ l.
Proof.
  induction l as [|y l IH]; simpl; [reflexivity |].
  destruct (p y); simpl.
  - rewrite <- Permutation_middle, IH. reflexivity.
  - rewrite IH. reflexivity.
Qed.

Lemma PhaseType_eqb_eq (a b : PhaseType) :
  PhaseType_eqb a b = true <-> a = b.
Proof. destruct a, b; simpl; split; (reflexivity || discriminate). Qed.

Lemma ParticleType_eqb_eq (a b : ParticleType) :
  ParticleType_eqb a b = true <-> a = b.
Proof. destruct a, b; simpl; split; (reflexivity || discriminate). Qed.

Lemma order_output_partition (d : SpeciesListDescriptor)
    (input output : list Species) (missing : list String.string) :
  ord_missing (order d input output missing) = [] ->
  exists l,
    l ≡ₚ input
    /\ l = electron_first
             (snd (fst (order_names d (m_species_names d) input []
                          missing))
              ++ fst (fst (order_names d (m_species_names d) input []
                             missing)))
    /\ ord_output (order d input output missing)
       = List.filter (fun s => negb (IsCondensed s)) l
         ++ List.filter IsCondensed l.
Proof.
  intros Hall. rewrite (order_complete d input output missing Hall). simpl.
  eexists. split; [| split; [reflexivity |]].
  - rewrite electron_first_Permutation, Permutation_app_comm,
      order_names_Permutation, app_nil_r. reflexivity.
  - rewrite <- (app_nil_r (electron_first _)) at 2.
    rewrite condensed_last_partition by reflexivity. reflexivity.
Qed.

Lemma order_Permutation_witness :
  ord_output (order descriptor_N [sp_C; sp_e; sp_N] [] [])
  ≡ₚ [sp_C; sp_e; sp_N].
Proof.
  apply (order_Permutation descriptor_N [sp_C; sp_e; sp_N] [] []).
  reflexivity.
Defined.

(** X21: when no species is reported missing, the output lists every gas
    species before every condensed (solid or liquid) species, and keeps
    the species of each of the two kinds in the order they had before the
    condensed ones were moved. *)
Theorem order_condensed_last (d : SpeciesListDescriptor)
    (input output : list Species) (missing : list String.string)
    (Hall : ord_missing (order d input output missing) = []) :
  exists gases condensed,
    ord_output (order d input output missing) = gases ++ condensed
    /\ Forall (fun s => phase s = GAS) gases
    /\ Forall (fun s => phase s <> GAS) condensed
    /\ gases ++ condensed ≡ₚ input.
Proof.
  destruct (order_output_partition d input output missing Hall)
    as (l & Hperm & _ & Hout).
  exists (List.filter (fun s => negb (IsCondensed s)) l),
    (List.filter IsCondensed l).
  split; [exact Hout | split; [| split]].
  - apply List.Forall_forall. intros s Hs.
    apply List.filter_In in Hs as [_ Hs]. unfold IsCondensed in Hs.
    rewrite negb_involutive in Hs. apply PhaseType_eqb_eq, Hs.
  - apply List.Forall_forall. intros s Hs.
    apply List.filter_In in Hs as [_ Hs]. unfold IsCondensed in Hs.
    intros Hgas. rewrite Hgas in Hs. discriminate.
  - rewrite filter_partition_Permutation. exact Hperm.
Qed.

Lemma order_condensed_last_witness :
  exists gases condensed,
    ord_output (order descriptor_N [sp_C; sp_e; sp_N] [] [])
    = gases ++ condensed
    /\ Forall (fun s => phase s = GAS) gases
    /\ Forall (fun s => phase s <> GAS) condensed
    /\ gases ++ condensed ≡ₚ [sp_C; sp_e; sp_N].
Proof.
  apply (order_condensed_last descriptor_N [sp_C; sp_e; sp_N] [] []).
  reflexivity.
Defined.

Lemma electron_first_head (l : list Species) :
  (exists s, In s l /\ type s = ELECTRON) ->
  exists e rest, electron_first l = e :: rest /\ type e = ELECTRON.
Proof.
  intros (s & Hin & Hs). unfold electron_first.
  destruct (find_if (TypeEquals ELECTRON) l) as [k|] eqn:Hf.
  - destruct (find_if_split _ _ _ Hf) as (a & x & b & -> & <- & Hx & _).
    apply ParticleType_eqb_eq in Hx.
    destruct a as [|y a]; simpl.
    + eauto.
    + change (S (length a)) with (length (y :: a)).
      change (y :: a ++ x :: b) with ((y :: a) ++ x :: b).
      rewrite split_lookup. eauto.
  - apply find_if_None in Hf.
    assert (Hin' : In s (List.filter (TypeEquals ELECTRON) l)).
    { apply List.filter_In. split; [exact Hin |].
      apply ParticleType_eqb_eq, Hs. }
    rewrite Hf in Hin'. contradiction.
Qed.

(** X22: when no species is reported missing and the input holds an
    electron, every electron being a gas species, the output starts with
    an electron. *)
Theorem order_electron_first (d : SpeciesListDescriptor)
    (input output : list Species) (missing : list String.string)
    (Hall : ord_missing (order d input output missing) = [])
    (Hel : exists s, In s input /\ type s = ELECTRON)
    (Hgas : forall s, In s input -> type s = ELECTRON -> phase s = GAS) :
  exists e rest,
    ord_output (order d input output missing) = e :: rest
    /\ type e = ELECTRON.
Proof.
  destruct (order_output_partition d input output missing Hall)
    as (l & Hperm & Hl & Hout).
  destruct Hel as (s & Hin & Hs).
  destruct (electron_first_head
              (snd (fst (order_names d (m_species_names d) input []
                           missing))
               ++ fst (fst (order_names d (m_species_names d) input []
                              missing))))
    as (e & rest & Hhead & He).
  { exists s. split; [| exact Hs].
    eapply Permutation_in; [| exact Hin].
    symmetry. rewrite Permutation_app_comm, order_names_Permutation,
      app_nil_r. reflexivity. }
  rewrite <- Hl in Hhead.
  assert (Hphase : phase e = GAS).
  { apply Hgas; [| exact He].
    eapply Permutation_in; [exact Hperm |]. rewrite Hhead. left. reflexivity. }
  rewrite Hout, Hhead. simpl. unfold IsCondensed at 1. rewrite Hphase. simpl.
  eauto.
Qed.

Lemma order_electron_first_witness :
  exists e rest,
    ord_output (order descriptor_N [sp_C; sp_e; sp_N] [] []) = e :: rest
    /\ type e = ELECTRON.
Proof.
  apply (order_electron_first descriptor_N [sp_C; sp_e; sp_N] [] []).
  - reflexivity.
  - exists sp_e. split; [right; left; reflexivity | reflexivity].
  - intros s [<-|[<-|[<-|[]]]]; simpl; (discriminate || reflexivity).
Defined.

Lemma order_names_missing (d : SpeciesListDescriptor)
    (names : list String.string) (input ordered : list Species)
    (missing : list String.string) :
  exists new,
    snd (order_names d names input ordered missing) = missing ++ new.
Proof.
  revert input ordered missing.
  induction names as [|nm rest IH]; intros input ordered missing; simpl.
  - exists []. rewrite app_nil_r. reflexivity.
  - destruct (found_with d _ 0).
    + destruct (find_if _ input) as [k|].
      * destruct (input !! k); apply IH.
      * destruct (IH input ordered (missing ++ [nm])) as [new Hnew].
        exists (nm :: new). rewrite Hnew, <- app_assoc. reflexivity.
    + apply IH.
Qed.

Lemma check_missing_app (m : list (energyLevel * nat))
    (ordered : list Species) (missing : list String.string) :
  exists new, check_missing m ordered missing = missing ++ new.
Proof.
  revert missing. induction m as [|[lvl v] m IH]; intros missing; simpl.
  - exists []. rewrite app_nil_r. reflexivity.
  - destruct (Nat.eqb v 0); [| apply IH].
    destruct (find_if _ ordered); [apply IH |].
    destruct (IH (missing ++ [energyLevel_name lvl])) as [new Hnew].
    exists (energyLevel_name lvl :: new).
    rewrite Hnew, <- app_assoc. reflexivity.
Qed.

(** X23: [order] only appends to the list of missing names, and when the
    list is not empty on return (a listed species was not found, or names
    were already reported missing), the output is left as it was. *)
Theorem order_missing (d : SpeciesListDescriptor)
    (input output : list Species) (missing : list String.string) :
  (exists new, ord_missing (order d input output missing) = missing ++ new)
  /\ (ord_missing (order d input output missing) <> [] ->
      ord_output (order d input output missing) = output).
Proof.
  unfold order.
  destruct (order_names_missing d (m_species_names d) input [] missing)
    as [new1 H1].
  destruct (order_names d (m_species_names d) input [] missing)
    as [[input1 ordered1] missing1]. simpl in H1. subst missing1.
  destruct (check_missing_app (m_expand_states d) ordered1 (missing ++ new1))
    as [new2 H2].
  rewrite H2.
  destruct ((missing ++ new1) ++ new2) as [|nm ms] eqn:Hm; simpl.
  - split; [| intros H; contradiction].
    exists (new1 ++ new2). rewrite app_assoc. symmetry. exact Hm.
  - split; [| reflexivity].
    exists (new1 ++ new2). rewrite app_assoc. symmetry. exact Hm.
Qed.

Lemma order_missing_witness :
  ord_output
    (order (mkDescriptor [chr 78] [] [(mkEnergyLevel (chr 78) [], 0%nat)]
              true false false)
       [] [] [])
  = [].
Proof.
  apply (proj2 (order_missing
                  (mkDescriptor [chr 78] []
                     [(mkEnergyLevel (chr 78) [], 0%nat)] true false false)
                  [] [] [])).
  discriminate.
Defined.

End OrderProperties.

(** ** Species list descriptor: expanding a name into its levels *)

Section ExpandProperties.

Import SpeciesList.

Lemma energyLevel_not_below (a b c : energyLevel) :
  energyLevel_lt a b = true -> energyLevel_lt c b = false ->
  energyLevel_lt a c = true.
Proof.
  intros Hab Hcb. destruct (energyLevel_lt b c) eqn:Hbc.
  - apply (energyLevel_lt_trans a b c); assumption.
  - rewrite <- (energyLevel_lt_total b c Hbc Hcb). exact Hab.
Qed.

Lemma lowest_level_spec (nm : String.string) (l pre : list Species)
    (lowest : nat) (lvl : Species) :
  (pre ++ l) !! lowest = Some lvl -> (lowest < length pre)%nat ->
  exists s,
    (pre ++ l) !! lowest_level nm l (length pre) lowest lvl = Some s
    /\ (s = lvl \/ (GroundStateNameEquals nm s = true /\ In s l))
    /\ energyLevel_lt (energyLevel_of lvl) (energyLevel_of s) = false
    /\ forall y, In y l -> GroundStateNameEquals nm y = true ->
                 energyLevel_lt (energyLevel_of y) (energyLevel_of s) = false.
Proof.
  revert pre lowest lvl.
  induction l as [|s0 l IH]; intros pre lowest lvl Hlvl Hlt; simpl.
  - exists lvl. repeat split; auto.
    + apply energyLevel_lt_irrefl.
    + intros y [].
  - assert (Happ : pre ++ s0 :: l = (pre ++ [s0]) ++ l)
      by (rewrite <- app_assoc; reflexivity).
    assert (Hlen : length (pre ++ [s0]) = S (length pre))
      by (rewrite length_app; simpl; lia).
    destruct (GroundStateNameEquals nm s0) eqn:Hgs; simpl.
    + destruct (energyLevel_lt (energyLevel_of s0) (energyLevel_of lvl))
        eqn:Hbelow.
      * destruct (IH (pre ++ [s0]) (length pre) s0) as (s & Hs & Hwho & Hmin0 & Hmin).
        { rewrite <- Happ. apply list_lookup_middle. reflexivity. }
        { lia. }
        rewrite Hlen, <- Happ in Hs. exists s. split; [exact Hs |].
        split; [| split].
        -- right. destruct Hwho as [-> | [H1 H2]].
           ++ split; [exact Hgs | left; reflexivity].
           ++ split; [exact H1 | right; exact H2].
        -- destruct (energyLevel_lt (energyLevel_of lvl) (energyLevel_of s))
             eqn:Hc; [| reflexivity].
           rewrite (energyLevel_lt_trans _ _ _ Hbelow Hc) in Hmin0.
           discriminate.
        -- intros y [<- | Hy] Hygs; [exact Hmin0 | apply Hmin; assumption].
      * destruct (IH (pre ++ [s0]) lowest lvl) as (s & Hs & Hwho & Hmin0 & Hmin).
        { rewrite <- Happ. exact Hlvl. }
        { lia. }
        rewrite Hlen, <- Happ in Hs. exists s. split; [exact Hs |].
        split; [| split; [exact Hmin0 |]].
        -- destruct Hwho as [-> | [H1 H2]]; [left; reflexivity |].
           right. split; [exact H1 | right; exact H2].
        -- intros y [<- | Hy] Hygs; [| apply Hmin; assumption].
           destruct (energyLevel_lt (energyLevel_of s0) (energyLevel_of s))
             eqn:Hc; [| reflexivity].
           rewrite (energyLevel_not_below _ _ _ Hc Hmin0) in Hbelow.
           discriminate.
    + destruct (IH (pre ++ [s0]) lowest lvl) as (s & Hs & Hwho & Hmin0 & Hmin).
      { rewrite <- Happ. exact Hlvl. }
      { lia. }
      rewrite Hlen, <- Happ in Hs. exists s. split; [exact Hs |].
      split; [| split; [exact Hmin0 |]].
      * destruct Hwho as [-> | [H1 H2]]; [left; reflexivity |].
        right. split; [exact H1 | right; exact H2].
      * intros y [<- | Hy] Hygs; [| apply Hmin; assumption].
        rewrite Hgs in Hygs. discriminate.
Qed.

Lemma filter_delete {A : Type} (p : A -> bool) (l : list A) (k : nat) (s : A) :
  l !! k = Some s -> p s = true ->
  List.filter (fun x => negb (p x)) (delete k l)
  = List.filter (fun x => negb (p x)) l
  /\ List.filter p l ≡ₚ s :: List.filter p (delete k l).
Proof.
  revert k. induction l as [|y l IH]; intros k Hk Hs; [discriminate |].
  destruct k as [|k]; simpl in *.
  - inversion Hk; subst. rewrite Hs. simpl. split; reflexivity.
  - destruct (IH k Hk Hs) as [H1 H2]. destruct (p y); simpl.
    + split; [exact H1 |]. rewrite H2. apply perm_swap.
    + split; [rewrite H1; reflexivity | exact H2].
Qed.

Lemma expand_name_spec (fuel : nat) (nm : String.string)
    (input ordered : list Species) :
  (length (List.filter (GroundStateNameEquals nm) input) <= fuel)%nat ->
  exists moved,
    expand_name fuel nm input ordered
    = (List.filter (fun s => negb (GroundStateNameEquals nm s)) input,
       ordered ++ moved)
    /\ moved ≡ₚ List.filter (GroundStateNameEquals nm) input
    /\ StronglySorted
         (fun a b =>
            energyLevel_lt (energyLevel_of b) (energyLevel_of a) = false)
         moved.
Proof.
  revert input ordered. induction fuel as [|fuel IH]; intros input ordered Hlen.
  - assert (Hnil : List.filter (GroundStateNameEquals nm) input = []).
    { apply length_zero_iff_nil. lia. }
    exists []. simpl. rewrite (filter_negb_all _ _ Hnil), Hnil, app_nil_r.
    repeat split; constructor.
  - simpl. destruct (find_if (GroundStateNameEquals nm) input) as [k0|] eqn:Hf.
    + destruct (find_if_split _ _ _ Hf) as (a & s0 & b & -> & <- & Hs0 & Ha).
      rewrite split_lookup.
      replace (drop (S (length a)) (a ++ s0 :: b)) with b.
      2:{ change (a ++ s0 :: b) with (a ++ [s0] ++ b). rewrite app_assoc.
          rewrite drop_app_length'; [reflexivity |].
          rewrite length_app. simpl. lia. }
      destruct (lowest_level_spec nm b (a ++ [s0]) (length a) s0)
        as (s & Hs & Hwho & Hmin0 & Hmin).
      { rewrite <- app_assoc. apply split_lookup. }
      { rewrite length_app. simpl. lia. }
      rewrite length_app in Hs. simpl in Hs.
      rewrite Nat.add_1_r, <- app_assoc in Hs. simpl in Hs.
      rewrite Hs.
      assert (Hgs : GroundStateNameEquals nm s = true)
        by (destruct Hwho as [-> | [H _]]; assumption).
      destruct (filter_delete (GroundStateNameEquals nm) _ _ _ Hs Hgs)
        as [Hrest Hperm].
      destruct (IH (delete (lowest_level nm b (S (length a)) (length a) s0)
                      (a ++ s0 :: b)) (ordered ++ [s]))
        as (moved & Heq & Hmoved & Hsorted).
      { apply Permutation_length in Hperm. simpl in Hperm. lia. }
      exists (s :: moved). rewrite Heq, Hrest, <- app_assoc. simpl.
      split; [reflexivity | split].
      * rewrite Hperm, Hmoved. reflexivity.
      * constructor; [exact Hsorted |].
        apply List.Forall_forall. intros y Hy.
        assert (Hy' : In y (List.filter (GroundStateNameEquals nm)
                              (a ++ s0 :: b))).
        { eapply Permutation_in; [symmetry; exact Hperm |].
          right. eapply Permutation_in; [exact Hmoved | exact Hy]. }
        apply List.filter_In in Hy' as [Hin Hygs].
        apply in_app_or in Hin as [Hin | [<- | Hin]].
        -- assert (Hya : In y (List.filter (GroundStateNameEquals nm) a))
             by (apply List.filter_In; split; assumption).
           rewrite Ha in Hya. contradiction.
        -- exact Hmin0.
        -- apply Hmin; assumption.
    + apply find_if_None in Hf.
      exists []. rewrite (filter_negb_all _ _ Hf), Hf, app_nil_r.
      repeat split; constructor.
Qed.

(** X28: expanding a listed name moves exactly the species with that
    ground state name from the input to the end of the ordered list,
    lowest energy level first (no species is followed by one of a lower
    level), and leaves the other species of the input in their order. *)
Theorem expand_name_sorted (nm : String.string)
    (input ordered : list Species) :
  exists moved,
    expand_name (length input) nm input ordered
    = (List.filter (fun s => negb (GroundStateNameEquals nm s)) input,
       ordered ++ moved)
    /\ moved ≡ₚ List.filter (GroundStateNameEquals nm) input
    /\ StronglySorted
         (fun a b =>
            energyLevel_lt (energyLevel_of b) (energyLevel_of a) = false)
         moved.
Proof. apply expand_name_spec. apply List.filter_length_le. Qed.

End ExpandProperties.

(** ** Species list descriptor: matching a species *)

Section MatchesProperties.

Import SpeciesList.

Lemma matches_explicit_not_listed (d : SpeciesListDescriptor)
    (s : Species) (names : list String.string) :
  ~ In (groundStateName s) names -> matches_explicit d s names = None.
Proof.
  induction names as [|nm rest IH]; intros Hnot; simpl.
  - reflexivity.
  - destruct (String.eqb_spec (groundStateName s) nm) as [Heq|Hne].
    + exfalso. apply Hnot. left. symmetry. exact Heq.
    + apply IH. intros Hin. apply Hnot. right. exact Hin.
Qed.

Lemma matches_explicit_listed (d : SpeciesListDescriptor)
    (s : Species) (names : list String.string) :
  In (groundStateName s) names ->
  matches_explicit d s names
  = Some (matches_levels d s (level_rank (levelType s)) 0
            (m_indices (energyLevel_of s))).
Proof.
  induction names as [|nm rest IH]; intros Hin; simpl.
  - contradiction.
  - destruct (String.eqb_spec (groundStateName s) nm) as [Heq|Hne].
    + reflexivity.
    + apply IH. destruct Hin as [Heq|Hin]; [| exact Hin].
      exfalso. apply Hne. symmetry. exact Heq.
Qed.

(** X24: a species whose ground state name is not among the listed names
    is matched by the implicit rule only: it matches exactly when it is
    not an excited level, its phase is one the descriptor allows, and
    every element of its stoichiometry is an allowed element. *)
Theorem matches_implicit (d : SpeciesListDescriptor) (s : Species)
    (Hnot : ~ In (groundStateName s) (m_species_names d)) :
  matches d s = true
  <-> levelType s = NONE
      /\ phase_allowed d (phase s) = true
      /\ forall el n, In (el, n) (stoichiometry s) ->
                      In el (m_element_names d).
Proof.
  unfold matches. rewrite (matches_explicit_not_listed d s _ Hnot).
  assert (Hel : forallb (fun e => has_element d (fst e)) (stoichiometry s)
                = true
                <-> forall el n, In (el, n) (stoichiometry s) ->
                                 In el (m_element_names d)).
  { rewrite forallb_forall. split.
    - intros H el n Hin. specialize (H (el, n) Hin). simpl in H.
      unfold has_element in H. apply existsb_exists in H as (x & Hx & Heq).
      apply String.eqb_eq in Heq. subst. exact Hx.
    - intros H [el n] Hin. simpl. unfold has_element.
      apply existsb_exists. exists el. split; [eapply H, Hin |].
      apply String.eqb_refl. }
  destruct (levelType s); simpl;
    try (split; [discriminate | intros [H _]; discriminate]).
  destruct (phase s); simpl.
  - destruct (m_gases d); simpl.
    + rewrite Hel. tauto.
    + split; [discriminate | intros (_ & H & _); discriminate].
  - destruct (m_liquids d); simpl.
    + rewrite Hel. tauto.
    + split; [discriminate | intros (_ & H & _); discriminate].
  - destruct (m_solids d); simpl.
    + rewrite Hel. tauto.
    + split; [discriminate | intros (_ & H & _); discriminate].
Qed.

Lemma matches_implicit_witness :
  matches descriptor_N sp_C = true
  <-> levelType sp_C = NONE
      /\ phase_allowed descriptor_N (phase sp_C) = true
      /\ forall el n, In (el, n) (stoichiometry sp_C) ->
                      In el (m_element_names descriptor_N).
Proof.
  apply matches_implicit. simpl. intros [H|[]]. discriminate H.
Defined.

Lemma indices_length (s : Species) :
  length (m_indices (energyLevel_of s)) = level_rank (levelType s).
Proof. unfold energyLevel_of. destruct (levelType s); reflexivity. Qed.

Lemma matches_levels_stars (d : SpeciesListDescriptor) (s : Species)
    (count j : nat) (indices : list nat) :
  length indices = count ->
  found_with d (mkEnergyLevel (groundStateName s) [])
    (level_rank (levelType s)) = true ->
  matches_levels d s count j indices = true.
Proof.
  revert j indices. induction count as [|count IH]; intros j indices Hlen Hf;
    simpl.
  - apply length_zero_iff_nil in Hlen. subst. exact Hf.
  - destruct (found_with d _ j); [reflexivity |].
    apply IH; [| exact Hf].
    destruct indices as [|i indices] using rev_ind; [discriminate |].
    rewrite removelast_last. rewrite length_app in Hlen. simpl in Hlen. lia.
Qed.

(** X25: a listed name matches by its number of stars: when the ground
    state name of a species is listed and the map of expanded states holds
    that name, without indices, with as many stars as the species has
    level indices, the species matches; for a species that is not an
    excited level this is the only way to match. *)
Theorem matches_listed (d : SpeciesListDescriptor) (s : Species)
    (Hin : In (groundStateName s) (m_species_names d)) :
  (found_with d (mkEnergyLevel (groundStateName s) [])
     (level_rank (levelType s)) = true ->
   matches d s = true)
  /\ (levelType s = NONE ->
      matches d s
      = found_with d (mkEnergyLevel (groundStateName s) []) 0).
Proof.
  unfold matches. rewrite (matches_explicit_listed d s _ Hin). split.
  - intros Hf. apply matches_levels_stars; [apply indices_length | exact Hf].
  - intros Hnone. unfold energyLevel_of. rewrite Hnone. simpl.
    rewrite Hnone. reflexivity.
Qed.

Lemma matches_listed_witness : matches descriptor_N sp_N = true.
Proof.
  apply (proj1 (matches_listed descriptor_N sp_N
                  (or_introl eq_refl))).
  reflexivity.
Defined.

End MatchesProperties.
